(** * Magic Manager: the card-search gateway, the collection routes and
      their rate-limited fetch client, embedded from the TypeScript sources.

    - [Scryfall]              services/api/src/scryfall.ts
    - [Schemas]               packages/shared/src/types.ts (the zod schemas)
    - [Database]              the two tables behind packages/database/src/client.ts
    - [CollectionAddRoute]    apps/web/src/app/api/collection/add/route.ts
    - [CardsSearchRoute]      the cards search route (GET)
    - [CollectionSearchRoute] the collection search route (GET)
    - [EventLoop]             overlapping calls of the fetch client
    - [ScryfallLookups]       the lookups, autocomplete, sets and image
                              download of services/api/src/scryfall.ts
    - [Components]            apps/web/src/components/card-search.tsx: the
                              requests the components send to the routes

    The definitions come first; the vocabulary of the properties and the
    concrete inputs they are run on follow; the properties come last, one
    section per component.

    JavaScript numbers that the routes handle are integral (page numbers,
    quantities, HTTP statuses, millisecond timestamps); they are modelled as
    [Z], which is exact on the safe-integer range ([safe_integer]).  The
    schemas bound every number a request can carry except the [page] of
    the collection search; the properties whose statement needs it carry
    the bound [MAX_SAFE_INTEGER] as a hypothesis. *)

From Stdlib Require Import ZArith List String Ascii Bool Lia DecimalString.
From Stdlib Require DecimalPos.
Import ListNotations.
Set Warnings "-register-all".
Local Open Scope string_scope.
Local Open Scope Z_scope.

(** ** JavaScript preliminaries *)

(** What a [throw] carries: a zod validation error with its issues, or a
    plain [Error] with its message. *)
Record ZodIssue := { issue_path : list string; issue_message : string }.

Inductive Exn :=
| ZodError (issues : list ZodIssue)
| Error (message : string).

(** A computation that returns or throws. *)
Inductive Res (A : Type) :=
| Ok (a : A)
| Throw (e : Exn).
Arguments Ok {A} a.
Arguments Throw {A} e.

Definition bindR {A B} (r : Res A) (k : A -> Res B) : Res B :=
  match r with
  | Ok a => k a
  | Throw e => Throw e
  end.

Declare Scope res_scope.
Delimit Scope res_scope with res.
Notation "'let*' x ':=' c 'in' k" := (bindR c (fun x => k))
  (at level 61, x pattern, c at next level, right associativity) : res_scope.

(** [try { body } catch (error) { handler }] *)
Definition try_catch {A} (body : Res A) (handler : Exn -> Res A) : Res A :=
  match body with
  | Ok a => Ok a
  | Throw e => handler e
  end.

Definition dquote : string := String (ascii_of_nat 34) EmptyString.

(** Truthiness of a string and of an optional (possibly undefined) string. *)
Definition truthy_string (s : string) : bool :=
  negb (String.eqb s EmptyString).

Definition truthy (o : option string) : bool :=
  match o with
  | Some s => truthy_string s
  | None => false
  end.

(** [a || b] on an optional string with a string fallback. *)
Definition or_string (a : option string) (b : string) : string :=
  match a with
  | Some s => if truthy_string s then s else b
  | None => b
  end.

(** [a || b] where both sides may be undefined. *)
Definition or_option (a b : option string) : option string :=
  if truthy a then a else b.

(** [Array.prototype.join] *)
Definition join (sep : string) (parts : list string) : string :=
  String.concat sep parts.

(** [Number.MAX_SAFE_INTEGER], 2^53 - 1.  A JavaScript number is a double:
    the integers from [-MAX_SAFE_INTEGER] to [MAX_SAFE_INTEGER] are each a
    double of their own, and sums, differences and products of them that
    stay in that range are exact.  Outside it integers are rounded. *)
Definition MAX_SAFE_INTEGER : Z := 9007199254740991.

Definition safe_integer (n : Z) : Prop :=
  - MAX_SAFE_INTEGER <= n <= MAX_SAFE_INTEGER.

(** [Number.prototype.toString] on an integral number: its decimal
    digits.  This is what JavaScript prints for an integer below 10^21 in
    absolute value, so for every safe integer; from 10^21 on JavaScript
    prints exponent notation (['1e+21']), which this definition does not
    follow.  Properties that print a number a caller chooses are stated for
    safe integers. *)
Definition number_toString (n : Z) : string :=
  NilZero.string_of_int (Z.to_int n).

Definition boolean_toString (b : bool) : string :=
  if b then "true" else "false".

(** [xs && xs.length > 0] *)
Definition nonempty_list {A} (o : option (list A)) : option (list A) :=
  match o with
  | Some (x :: xs) => Some (x :: xs)
  | _ => None
  end.

(** ** packages/shared/src/types.ts: the external card payload *)

(** Nested JSON that the code only copies around (image URIs, prices,
    legalities) is kept as an uninterpreted blob. *)
Definition Blob := string.

Record ScryfallCard := {
  sc_id : string;
  sc_name : string;
  sc_mana_cost : option string;
  sc_cmc : Z;
  sc_type_line : string;
  sc_oracle_text : option string;
  sc_colors : list string;
  sc_color_identity : list string;
  sc_keywords : option (list string);
  sc_power : option string;
  sc_toughness : option string;
  sc_image_uris : option Blob;
  sc_prices : Blob;
  sc_legalities : Blob;
  sc_set : string;
  sc_set_name : string;
  sc_rarity : string
}.

Record ScryfallSearchResponse := {
  total_cards : Z;
  has_more : bool;
  data : list ScryfallCard
}.

(** ** services/api/src/scryfall.ts *)
Module Scryfall.

Definition REQUEST_DELAY : Z := 100.

(** A URL as the code assembles it: an endpoint and the entries of its
    [URLSearchParams], before serialisation. *)
Record Request := { endpoint : string; params : list (string * string) }.

(** The JSON bodies the gateway distinguishes: [object: 'error'] with its
    [code] and [details], or a result list. *)
Inductive Payload :=
| PError (code details : option string)
| PList (r : ScryfallSearchResponse).

(** A [Response]; [body = None] is a body on which [response.json()]
    rejects. *)
Record Response := {
  status : Z;
  statusText : string;
  body : option Payload
}.

Definition ok (r : Response) : bool :=
  (200 <=? status r) && (status r <=? 299).

(** One round trip of the remote server: how long the response takes and
    what it is, given the request. *)
Record Exchange := { latency : Z; respond : Request -> Response }.

(** The process-wide state the client touches: the wall clock read by
    [Date.now()], the module-level [lastRequestTime], the requests
    dispatched so far with their dispatch times (latest first), and how
    much later than asked a timer fires. *)
Record Timing := {
  clock : Z;
  lastRequestTime : Z;
  dispatches : list (Z * Request);
  timerLag : Z
}.

(** [await new Promise(resolve => setTimeout(resolve, ms))] with nothing
    else running. *)
Definition setTimeout (ms : Z) (t : Timing) : Timing :=
  {| clock := clock t + ms + timerLag t;
     lastRequestTime := lastRequestTime t;
     dispatches := dispatches t;
     timerLag := timerLag t |}.

(** [lastRequestTime = Date.now()] followed by the dispatch of [fetch]. *)
Definition stamp_and_dispatch (url : Request) (t : Timing) : Timing :=
  {| clock := clock t;
     lastRequestTime := clock t;
     dispatches := (clock t, url) :: dispatches t;
     timerLag := timerLag t |}.

Definition elapse (ms : Z) (t : Timing) : Timing :=
  {| clock := clock t + ms;
     lastRequestTime := lastRequestTime t;
     dispatches := dispatches t;
     timerLag := timerLag t |}.

(** The throttle at the head of [rateLimitedFetch]. *)
Definition throttle (t : Timing) : Timing :=
  let now := clock t in
  let timeSinceLastRequest := now - lastRequestTime t in
  if timeSinceLastRequest <? REQUEST_DELAY
  then setTimeout (REQUEST_DELAY - timeSinceLastRequest) t
  else t.

(** [rateLimitedFetch], one caller at a time.  Every dispatch is answered
    by the next exchange of the server; the recursion of the source on a
    429 is the recursion on the remaining exchanges.  When the server has
    no exchange left the dispatched [fetch] rejects. *)
Fixpoint rateLimitedFetch_on (server : list Exchange) (url : Request)
    (t : Timing) : Res Response * (Timing * list Exchange) :=
  let t := stamp_and_dispatch url (throttle t) in
  match server with
  | [] => (Throw (Error "fetch failed"), (t, []))
  | x :: rest =>
      let t := elapse (latency x) t in
      let response := respond x url in
      if negb (ok response) then
        if status response =? 429 then
          (* Rate limited, wait and retry once *)
          rateLimitedFetch_on rest url (setTimeout 1000 t)
        else
          (Throw (Error ("Scryfall API error: "
                         ++ number_toString (status response) ++ " "
                         ++ statusText response)),
           (t, rest))
      else (Ok response, (t, rest))
  end.

Record Net := { timing : Timing; server : list Exchange }.

Definition rateLimitedFetch (url : Request) (w : Net) : Res Response * Net :=
  let '(r, (t, s)) := rateLimitedFetch_on (server w) url (timing w) in
  (r, {| timing := t; server := s |}).

(** [unique] is one of ['cards'], ['art'], ['prints'] when present. *)
Record SearchOptions := {
  unique : option string;
  page : option Z;
  include_extras : option bool;
  include_multilingual : option bool
}.

Definition no_options : SearchOptions :=
  {| unique := None; page := None;
     include_extras := None; include_multilingual := None |}.

Definition search_params (query : string) (options : SearchOptions)
    : list (string * string) :=
  [("q", query);
   ("unique", or_string (unique options) "cards")]
  ++ match page options with
     | Some p => if p =? 0 then [] else [("page", number_toString p)]
     | None => []
     end
  ++ match include_extras options with
     | Some b => [("include_extras", boolean_toString b)]
     | None => []
     end
  ++ match include_multilingual options with
     | Some b => [("include_multilingual", boolean_toString b)]
     | None => []
     end.

Definition empty_result : ScryfallSearchResponse :=
  {| total_cards := 0; has_more := false; data := [] |}.

(** [data.code === expected] *)
Definition is_code (code : option string) (expected : string) : bool :=
  match code with
  | Some c => String.eqb c expected
  | None => false
  end.

(** What [searchCards] does with a response that [rateLimitedFetch]
    returned. *)
Definition decode_search (response : Response) : Res ScryfallSearchResponse :=
  match body response with
  | None => Throw (Error "Unexpected end of JSON input")
  | Some (PError code details) =>
      if is_code code "not_found" then
        (* No cards found, return empty result *)
        Ok empty_result
      else Throw (Error (or_string details "Unknown Scryfall error"))
  | Some (PList r) => Ok r
  end.

(** [ScryfallService.searchCards]; the [catch] logs and rethrows. *)
Definition searchCards (query : string) (options : SearchOptions) (w : Net)
    : Res ScryfallSearchResponse * Net :=
  let url := {| endpoint := "/cards/search";
                params := search_params query options |} in
  let '(r, w) := rateLimitedFetch url w in
  (try_catch (bindR r decode_search) (fun error => Throw error), w).

Record Range := { min : option Z; max : option Z }.

Record Filters := {
  name : option string;
  colors : option (list string);
  colorIdentity : option (list string);
  types : option (list string);
  text : option string;
  manaValue : option Range;
  power : option Range;
  toughness : option Range;
  sets : option (list string);
  rarity : option (list string);
  format : option string;
  banned : option bool;
  legal : option bool
}.

(** [range?.min] and [range?.max] *)
Definition range_min (r : option Range) : option Z :=
  match r with Some r => min r | None => None end.
Definition range_max (r : option Range) : option Z :=
  match r with Some r => max r | None => None end.

Definition quoted (key value : string) : string :=
  key ++ ":" ++ dquote ++ value ++ dquote.

(** [values.map(v => `key:"${v}"`).join(' OR ')] wrapped in parentheses. *)
Definition or_clause (key : string) (values : list string) : string :=
  "(" ++ join " OR " (map (quoted key) values) ++ ")".

Definition when_string (o : option string) (f : string -> string) : list string :=
  match o with
  | Some s => if truthy_string s then [f s] else []
  | None => []
  end.

Definition when_list (o : option (list string)) (f : list string -> string)
    : list string :=
  match nonempty_list o with
  | Some l => [f l]
  | None => []
  end.

Definition when_number (o : option Z) (f : Z -> string) : list string :=
  match o with
  | Some n => [f n]
  | None => []
  end.

Definition is_true (o : option bool) : bool :=
  match o with Some true => true | _ => false end.

(** The [queryParts] array of [advancedSearch] after all the pushes. *)
Definition queryParts (filters : Filters) : list string :=
  when_string (name filters) (fun n => quoted "name" n)
  ++ when_list (colors filters) (fun c => "c:" ++ join EmptyString c)
  ++ when_list (colorIdentity filters) (fun c => "id:" ++ join EmptyString c)
  ++ when_list (types filters) (or_clause "t")
  ++ when_string (text filters) (fun t => quoted "o" t)
  ++ when_number (range_min (manaValue filters)) (fun n => "cmc>=" ++ number_toString n)
  ++ when_number (range_max (manaValue filters)) (fun n => "cmc<=" ++ number_toString n)
  ++ when_number (range_min (power filters)) (fun n => "pow>=" ++ number_toString n)
  ++ when_number (range_max (power filters)) (fun n => "pow<=" ++ number_toString n)
  ++ when_number (range_min (toughness filters)) (fun n => "tou>=" ++ number_toString n)
  ++ when_number (range_max (toughness filters)) (fun n => "tou<=" ++ number_toString n)
  ++ when_list (sets filters) (or_clause "s")
  ++ when_list (rarity filters) (or_clause "r")
  ++ match format filters with
     | Some f =>
         if truthy_string f then
           if is_true (legal filters) then ["f:" ++ f]
           else if is_true (banned filters) then ["banned:" ++ f]
           else []
         else []
     | None => []
     end.

Record AdvancedOptions := { adv_page : option Z; adv_unique : option string }.

Definition advancedSearch_query (filters : Filters) : string :=
  join " " (queryParts filters).

Definition advancedSearch (filters : Filters) (options : AdvancedOptions)
    (w : Net) : Res ScryfallSearchResponse * Net :=
  let query := advancedSearch_query filters in
  searchCards query
    {| unique := adv_unique options; page := adv_page options;
       include_extras := None; include_multilingual := None |} w.

End Scryfall.

(** ** packages/shared/src/types.ts: the zod schemas *)
Module Schemas.

(** The JavaScript values that reach a schema: the parsed JSON body of a
    request, or the object a route assembles from its query string. *)
Inductive Value :=
| VUndefined
| VNull
| VBool (b : bool)
| VNumber (n : Z)
| VNaN
| VString (s : string)
| VArray (items : list Value)
| VObject (fields : list (string * Value)).

(** Property access on a parsed JSON object: the last entry of a repeated
    key wins, an absent key reads [undefined]. *)
Fixpoint field (key : string) (fields : list (string * Value)) : Value :=
  match fields with
  | [] => VUndefined
  | (k, v) :: rest =>
      match field key rest with
      | VUndefined => if String.eqb k key then v else VUndefined
      | later => later
      end
  end.

(** A checked value or the issues zod collected on the way.  An issue
    carries the path of the member it is about; the message texts below
    stand for zod's own. *)
Definition Checked (A : Type) : Type := A + list ZodIssue.

Definition valid {A} (a : A) : Checked A := inl a.
Definition invalid {A} (path : list string) (message : string) : Checked A :=
  inr [{| issue_path := path; issue_message := message |}].

(** Issues of all the members of an object are reported together. *)
Definition ap {A B} (f : Checked (A -> B)) (x : Checked A) : Checked B :=
  match f, x with
  | inl g, inl a => inl (g a)
  | inl _, inr ys => inr ys
  | inr xs, inl _ => inr xs
  | inr xs, inr ys => inr (xs ++ ys)%list
  end.

Declare Scope zod_scope.
Delimit Scope zod_scope with zod.
Notation "f <*> x" := (ap f x) (at level 52, left associativity) : zod_scope.

Definition Schema (A : Type) : Type := list string -> Value -> Checked A.

Definition z_string : Schema string := fun path v =>
  match v with
  | VString s => valid s
  | VUndefined => invalid path "Required"
  | _ => invalid path "Expected string"
  end.

Definition z_string_min_max (lo hi : nat) : Schema string := fun path v =>
  match z_string path v with
  | inl s =>
      if (String.length s <? lo)%nat
      then invalid path "String must contain more characters"
      else if (hi <? String.length s)%nat
      then invalid path "String must contain fewer characters"
      else valid s
  | inr issues => inr issues
  end.

Definition is_hex (c : ascii) : bool :=
  let n := N_of_ascii c in
  ((48 <=? n) && (n <=? 57) || (97 <=? n) && (n <=? 102)
   || (65 <=? n) && (n <=? 70))%N.

(** Does [s] start with [n] hexadecimal digits?  Returns what follows. *)
Fixpoint hex_run (n : nat) (s : string) : option string :=
  match n with
  | O => Some s
  | S n' =>
      match s with
      | String c rest => if is_hex c then hex_run n' rest else None
      | EmptyString => None
      end
  end.

Definition dash (o : option string) : option string :=
  match o with
  | Some (String "-" rest) => Some rest
  | _ => None
  end.

(** zod's uuid shape: 8-4-4-4-12 hexadecimal digits. *)
Definition is_uuid (s : string) : bool :=
  let step (n : nat) (o : option string) : option string :=
    match o with Some r => hex_run n r | None => None end in
  match step 12%nat (dash (step 4%nat (dash (step 4%nat (dash
          (step 4%nat (dash (step 8%nat (Some s))))))))) with
  | Some EmptyString => true
  | _ => false
  end.

Definition z_string_uuid : Schema string := fun path v =>
  match z_string path v with
  | inl s => if is_uuid s then valid s else invalid path "Invalid uuid"
  | inr issues => inr issues
  end.

Definition z_number : Schema Z := fun path v =>
  match v with
  | VNumber n => valid n
  | VUndefined => invalid path "Required"
  | VNaN => invalid path "Expected number, received nan"
  | _ => invalid path "Expected number"
  end.

(** [z.number().min(lo)] with an optional [.max(hi)] *)
Definition z_number_min_max (lo : Z) (hi : option Z) : Schema Z := fun path v =>
  match z_number path v with
  | inl n =>
      if n <? lo then invalid path "Number must be greater than or equal to the minimum"
      else match hi with
           | Some h =>
               if h <? n
               then invalid path "Number must be less than or equal to the maximum"
               else valid n
           | None => valid n
           end
  | inr issues => inr issues
  end.

Definition z_boolean : Schema bool := fun path v =>
  match v with
  | VBool b => valid b
  | VUndefined => invalid path "Required"
  | _ => invalid path "Expected boolean"
  end.

Definition z_enum (options : list string) : Schema string := fun path v =>
  match v with
  | VString s =>
      if existsb (String.eqb s) options then valid s
      else invalid path "Invalid enum value"
  | VUndefined => invalid path "Required"
  | _ => invalid path "Invalid enum value"
  end.

Definition z_optional {A} (inner : Schema A) : Schema (option A) := fun path v =>
  match v with
  | VUndefined => valid None
  | _ => match inner path v with
         | inl a => valid (Some a)
         | inr issues => inr issues
         end
  end.

Definition z_default {A} (inner : Schema A) (default : A) : Schema A := fun path v =>
  match v with
  | VUndefined => valid default
  | _ => inner path v
  end.

Fixpoint z_items {A} (inner : Schema A) (path : list string) (index : Z)
    (items : list Value) : Checked (list A) :=
  match items with
  | [] => valid []
  | v :: rest =>
      (valid cons <*> inner (path ++ [number_toString index])%list v
                  <*> z_items inner path (index + 1) rest)%zod
  end.

Definition z_array {A} (inner : Schema A) : Schema (list A) := fun path v =>
  match v with
  | VArray items => z_items inner path 0 items
  | VUndefined => invalid path "Required"
  | _ => invalid path "Expected array"
  end.

(** [schema.parse]: returns the parsed value or throws a [ZodError]. *)
Definition parse {A} (c : Checked A) : Res A :=
  match c with
  | inl a => Ok a
  | inr issues => Throw (ZodError issues)
  end.

Definition CARD_CONDITIONS : list string :=
  ["mint"; "near_mint"; "excellent"; "good"; "light_played"; "played"; "poor"].

Definition MTG_RARITIES : list string := ["common"; "uncommon"; "rare"; "mythic"].

Record SearchCards := {
  search_q : string;
  search_page : option Z;
  search_unique : option string
}.

Definition SearchCardsSchema (v : Value) : Res SearchCards :=
  match v with
  | VObject fs =>
      parse (valid Build_SearchCards
             <*> z_string_min_max 1 100 ["q"] (field "q" fs)
             <*> z_optional (z_number_min_max 1 (Some 10)) ["page"] (field "page" fs)
             <*> z_optional (z_enum ["cards"; "art"; "prints"]) ["unique"]
                   (field "unique" fs))%zod
  | _ => Throw (ZodError [{| issue_path := []; issue_message := "Expected object" |}])
  end.

Record AddToCollection := {
  add_scryfall_id : string;
  add_quantity : Z;
  add_condition : string;
  add_foil : bool;
  add_notes : option string
}.

Definition AddToCollectionSchema (v : Value) : Res AddToCollection :=
  match v with
  | VObject fs =>
      parse (valid Build_AddToCollection
             <*> z_string_uuid ["scryfall_id"] (field "scryfall_id" fs)
             <*> z_default (z_number_min_max 1 (Some 100)) 1 ["quantity"]
                   (field "quantity" fs)
             <*> z_default (z_enum CARD_CONDITIONS) "near_mint" ["condition"]
                   (field "condition" fs)
             <*> z_default z_boolean false ["foil"] (field "foil" fs)
             <*> z_optional (z_string_min_max 0 500) ["notes"] (field "notes" fs))%zod
  | _ => Throw (ZodError [{| issue_path := []; issue_message := "Expected object" |}])
  end.

Record SearchCollection := {
  q : option string;
  colors : option (list string);
  types : option (list string);
  sets : option (list string);
  cmc_min : option Z;
  cmc_max : option Z;
  rarity : option (list string);
  sort : string;
  order : string;
  page : Z;
  limit : Z
}.

Definition SearchCollectionSchema (v : Value) : Res SearchCollection :=
  match v with
  | VObject fs =>
      parse (valid Build_SearchCollection
             <*> z_optional z_string ["q"] (field "q" fs)
             <*> z_optional (z_array z_string) ["colors"] (field "colors" fs)
             <*> z_optional (z_array z_string) ["types"] (field "types" fs)
             <*> z_optional (z_array z_string) ["sets"] (field "sets" fs)
             <*> z_optional (z_number_min_max 0 (Some 20)) ["cmc_min"] (field "cmc_min" fs)
             <*> z_optional (z_number_min_max 0 (Some 20)) ["cmc_max"] (field "cmc_max" fs)
             <*> z_optional (z_array (z_enum MTG_RARITIES)) ["rarity"] (field "rarity" fs)
             <*> z_default (z_enum ["name"; "cmc"; "rarity"; "set"; "added_at"]) "name"
                   ["sort"] (field "sort" fs)
             <*> z_default (z_enum ["asc"; "desc"]) "asc" ["order"] (field "order" fs)
             <*> z_default (z_number_min_max 1 None) 1 ["page"] (field "page" fs)
             <*> z_default (z_number_min_max 1 (Some 100)) 50 ["limit"]
                   (field "limit" fs))%zod
  | _ => Throw (ZodError [{| issue_path := []; issue_message := "Expected object" |}])
  end.

End Schemas.

(** ** The hosted database behind packages/database/src/client.ts *)
Module Database.

(** A row of [cards_cache]. *)
Record CardCache := {
  scryfall_id : string;
  name : string;
  mana_cost : option string;
  cmc : Z;
  type_line : string;
  oracle_text : option string;
  colors : list string;
  color_identity : list string;
  keywords : option (list string);
  power : option string;
  toughness : option string;
  image_uris : option Blob;
  local_image_url : option string;
  prices : option Blob;
  legalities : option Blob;
  set_code : string;
  rarity : string;
  created_at : string;
  updated_at : string
}.

(** A row of [collection_cards]; the synthetic [id] is drawn from a
    counter. *)
Record CollectionCard := {
  cc_id : nat;
  cc_user_id : string;
  cc_scryfall_id : string;
  cc_quantity : Z;
  cc_condition : string;
  cc_foil : bool;
  cc_notes : option string;
  cc_added_at : string;
  cc_updated_at : string
}.

(** A collection row with its embedded [card] relation (the joined cache row). *)
Record CollectionRow := { entry : CollectionCard; card : option CardCache }.

Record Db := {
  cards_cache : list CardCache;
  collection_cards : list CollectionCard;
  next_id : nat;
  db_now : string
}.

(** What every query builder resolves to: [{ data, error }]. *)
Record PgResult (A : Type) := { pg_data : option A; pg_error : option string }.
Arguments pg_data {A} _.
Arguments pg_error {A} _.

Definition pg_ok {A} (a : A) : PgResult A :=
  {| pg_data := Some a; pg_error := None |}.
Definition pg_fail {A} (message : string) : PgResult A :=
  {| pg_data := None; pg_error := Some message |}.

(** [.single()]: exactly one row, or an error and no data. *)
Definition single {A} (rows : list A) : PgResult A :=
  match rows with
  | [r] => pg_ok r
  | _ => pg_fail "JSON object requested, multiple (or no) rows returned"
  end.

(** The requests the routes send.  Any of them may fail on its way (the
    network, the service), which is what [Faults] decides; a request that
    goes through is answered from the tables. *)
Inductive Op :=
| SelectCard (scryfall_id : string)
| UpsertCard (scryfall_id : string)
| SelectOwned (scryfall_id : string)
| SelectEntry (user_id scryfall_id condition : string) (foil : bool)
| UpdateEntry (id : nat)
| InsertEntry (user_id scryfall_id condition : string) (foil : bool)
| SelectPage
| CountPage.

Definition Faults := Op -> option string.

Definition no_faults : Faults := fun _ => None.

Definition request {A} (faults : Faults) (op : Op) (answer : PgResult A)
    : PgResult A :=
  match faults op with
  | Some message => pg_fail message
  | None => answer
  end.

(** [withErrorHandling] *)
Definition withErrorHandling {A} (r : PgResult A) : Res A :=
  match pg_error r with
  | Some message =>
      Throw (Error (or_string (Some message) "Database operation failed"))
  | None =>
      match pg_data r with
      | None => Throw (Error "No data returned from operation")
      | Some d => Ok d
      end
  end.

Definition has_id (id : string) (c : CardCache) : bool :=
  String.eqb (scryfall_id c) id.

(** [from('cards_cache').select('*').eq('scryfall_id', id).single()] *)
Definition select_card (faults : Faults) (db : Db) (id : string)
    : PgResult CardCache :=
  request faults (SelectCard id) (single (filter (has_id id) (cards_cache db))).

Definition getCardFromCache (faults : Faults) (db : Db) (scryfallId : string)
    : Res CardCache :=
  withErrorHandling (select_card faults db scryfallId).

(** The row an upsert of [card] leaves in [cards_cache]: the listed
    columns come from the payload, the others from the row it replaces or
    from the column defaults. *)
Definition cache_row (card : ScryfallCard) (old : option CardCache)
    (now : string) : CardCache :=
  {| scryfall_id := sc_id card;
     name := sc_name card;
     mana_cost := sc_mana_cost card;
     cmc := sc_cmc card;
     type_line := sc_type_line card;
     oracle_text := sc_oracle_text card;
     colors := sc_colors card;
     color_identity := sc_color_identity card;
     keywords := sc_keywords card;
     power := sc_power card;
     toughness := sc_toughness card;
     image_uris := sc_image_uris card;
     local_image_url :=
       match old with Some o => local_image_url o | None => None end;
     prices := Some (sc_prices card);
     legalities := Some (sc_legalities card);
     set_code := sc_set card;
     rarity := sc_rarity card;
     created_at := match old with Some o => created_at o | None => now end;
     updated_at := match old with Some o => updated_at o | None => now end |}.

Definition upsert_row (row : CardCache) (cache : list CardCache)
    : list CardCache :=
  if existsb (has_id (scryfall_id row)) cache
  then map (fun c => if has_id (scryfall_id row) c then row else c) cache
  else (cache ++ [row])%list.

Definition with_cache (db : Db) (cache : list CardCache) : Db :=
  {| cards_cache := cache;
     collection_cards := collection_cards db;
     next_id := next_id db;
     db_now := db_now db |}.

Definition with_collection (db : Db) (rows : list CollectionCard)
    (next : nat) : Db :=
  {| cards_cache := cards_cache db;
     collection_cards := rows;
     next_id := next;
     db_now := db_now db |}.

(** [insertCardToCache]: an upsert on the key [scryfall_id], returning the
    stored row. *)
Definition insertCardToCache (faults : Faults) (db : Db) (card : ScryfallCard)
    : Res CardCache * Db :=
  match faults (UpsertCard (sc_id card)) with
  | Some message => (withErrorHandling (pg_fail message), db)
  | None =>
      let row := cache_row card (find (has_id (sc_id card)) (cards_cache db))
                   (db_now db) in
      let db := with_cache db (upsert_row row (cards_cache db)) in
      (withErrorHandling (single (filter (has_id (sc_id card)) (cards_cache db))),
       db)
  end.

(** Modelled from the spec: the row-level auth of the hosted database,
    whose policies are not among the sources.  A client that carries a
    user's session sees the collection rows of that user only. *)
Definition row_level_auth (uid : string) (rows : list CollectionCard)
    : list CollectionCard :=
  filter (fun r => String.eqb (cc_user_id r) uid) rows.

Definition join_card (db : Db) (r : CollectionCard) : CollectionRow :=
  {| entry := r; card := find (has_id (cc_scryfall_id r)) (cards_cache db) |}.

(** The four [.eq] filters of the collection-add route. *)
Definition same_entry (uid id condition : string) (foil : bool)
    (r : CollectionCard) : bool :=
  String.eqb (cc_user_id r) uid && String.eqb (cc_scryfall_id r) id
  && String.eqb (cc_condition r) condition && Bool.eqb (cc_foil r) foil.

Definition select_entry (faults : Faults) (db : Db)
    (uid id condition : string) (foil : bool) : PgResult CollectionCard :=
  request faults (SelectEntry uid id condition foil)
    (single (filter (same_entry uid id condition foil)
               (row_level_auth uid (collection_cards db)))).

(** [select('quantity').eq('scryfall_id', id).single()] through the
    session of [uid]. *)
Definition select_owned (faults : Faults) (db : Db) (uid id : string)
    : PgResult Z :=
  request faults (SelectOwned id)
    (single (map cc_quantity
               (filter (fun r => String.eqb (cc_scryfall_id r) id)
                  (row_level_auth uid (collection_cards db))))).

Definition set_quantity_notes (quantity : Z) (notes : option string)
    (r : CollectionCard) : CollectionCard :=
  {| cc_id := cc_id r;
     cc_user_id := cc_user_id r;
     cc_scryfall_id := cc_scryfall_id r;
     cc_quantity := quantity;
     cc_condition := cc_condition r;
     cc_foil := cc_foil r;
     cc_notes := notes;
     cc_added_at := cc_added_at r;
     cc_updated_at := cc_updated_at r |}.

Definition targets (uid : string) (id : nat) (r : CollectionCard) : bool :=
  String.eqb (cc_user_id r) uid && Nat.eqb (cc_id r) id.

(** [update({ quantity, notes }).eq('id', id).select(...).single()]:
    the statement is rolled back unless it returns exactly one row. *)
Definition update_entry (faults : Faults) (db : Db) (uid : string) (id : nat)
    (quantity : Z) (notes : option string) : PgResult CollectionRow * Db :=
  match faults (UpdateEntry id) with
  | Some message => (pg_fail message, db)
  | None =>
      let rows :=
        map (fun r => if targets uid id r
                      then set_quantity_notes quantity notes r else r)
          (collection_cards db) in
      let db' := with_collection db rows (next_id db) in
      match filter (targets uid id) rows with
      | [r] => (pg_ok (join_card db' r), db')
      | returned => (single (map (join_card db') returned), db)
      end
  end.

(** Modelled from the spec: the uniqueness constraint of the collection
    table over (user, external identifier, condition, foil); the schema
    is not among the sources.  An insert that would break it fails. *)
Definition violates_unique (rows : list CollectionCard)
    (uid id condition : string) (foil : bool) : bool :=
  existsb (same_entry uid id condition foil) rows.

(** [insert({...}).select(...).single()] *)
Definition insert_entry (faults : Faults) (db : Db)
    (uid id : string) (quantity : Z) (condition : string) (foil : bool)
    (notes : option string) : PgResult CollectionRow * Db :=
  match faults (InsertEntry uid id condition foil) with
  | Some message => (pg_fail message, db)
  | None =>
      if violates_unique (collection_cards db) uid id condition foil
      then (pg_fail "duplicate key value violates unique constraint", db)
      else
        let r := {| cc_id := next_id db;
                    cc_user_id := uid;
                    cc_scryfall_id := id;
                    cc_quantity := quantity;
                    cc_condition := condition;
                    cc_foil := foil;
                    cc_notes := notes;
                    cc_added_at := db_now db;
                    cc_updated_at := db_now db |} in
        let db' := with_collection db (collection_cards db ++ [r])%list
                     (S (next_id db)) in
        (pg_ok (join_card db' r), db')
  end.

(** [supabase.auth.getUser()] *)
Record User := { user_id : string }.
Record AuthResult := { user : option User; authError : option string }.

(** [authError || !user] *)
Definition authenticated (auth : AuthResult) : option User :=
  match authError auth with
  | Some _ => None
  | None => user auth
  end.

End Database.

(** [NextResponse.json(body, { status })] with the bodies the routes send. *)
Record ErrorBody := { error : string; details : option (list ZodIssue) }.

Inductive NextResponse (A : Type) :=
| Json (status : Z) (body : A)
| JsonError (status : Z) (body : ErrorBody).
Arguments Json {A} status body.
Arguments JsonError {A} status body.

Definition http_status {A} (r : NextResponse A) : Z :=
  match r with
  | Json status _ => status
  | JsonError status _ => status
  end.

(** The [catch] block shared by the three routes. *)
Definition route_catch {A} (invalid : string) (e : Exn) : NextResponse A :=
  match e with
  | ZodError issues =>
      JsonError 400 {| error := invalid; details := Some issues |}
  | Error _ =>
      JsonError 500 {| error := "Internal server error"; details := None |}
  end.

Definition unauthorized {A} : NextResponse A :=
  JsonError 401 {| error := "Unauthorized"; details := None |}.

(** ** apps/web/src/app/api/collection/add/route.ts *)
Module CollectionAddRoute.
Import Database.

(** The part of [POST] after validation and authentication: the cache
    check, the lookup of an existing entry, and the update or insert.
    Returns early with a response, returns the row, or throws. *)
Definition add_to_collection (faults : Faults) (user : User)
    (validatedData : Schemas.AddToCollection) (db : Db)
    : Res (NextResponse (option CollectionRow)) * Db :=
  let id := Schemas.add_scryfall_id validatedData in
  let condition := Schemas.add_condition validatedData in
  let foil := Schemas.add_foil validatedData in
  (* Check if card exists in cache *)
  let cardExists := select_card faults db id in
  match pg_error cardExists, pg_data cardExists with
  | None, Some _ =>
      (* Check if user already has this card in collection *)
      let existing := select_entry faults db (user_id user) id condition foil in
      match pg_data existing with
      | Some existingCard =>
          (* Update existing card quantity *)
          let newQuantity :=
            cc_quantity existingCard + Schemas.add_quantity validatedData in
          let '(updated, db') :=
            update_entry faults db (user_id user) (cc_id existingCard) newQuantity
              (or_option (Schemas.add_notes validatedData) (cc_notes existingCard)) in
          match pg_error updated with
          | Some message =>
              (Throw (Error ("Failed to update collection card: " ++ message)), db')
          | None => (Ok (Json 200 (pg_data updated)), db')
          end
      | None =>
          (* Insert new card to collection *)
          let '(inserted, db') :=
            insert_entry faults db (user_id user) id
              (Schemas.add_quantity validatedData) condition foil
              (Schemas.add_notes validatedData) in
          match pg_error inserted with
          | Some message =>
              (Throw (Error ("Failed to add card to collection: " ++ message)), db')
          | None => (Ok (Json 200 (pg_data inserted)), db')
          end
      end
  | _, _ =>
      (Ok (JsonError 404 {| error := "Card not found in database";
                            details := None |}), db)
  end.

(** [POST]: [body = None] is a request whose [request.json()] rejects. *)
Definition POST (body : option Schemas.Value) (auth : AuthResult)
    (faults : Faults) (db : Db) : NextResponse (option CollectionRow) * Db :=
  match body with
  | None => (route_catch "Invalid request data" (Error "Unexpected token"), db)
  | Some body =>
      (* Validate input *)
      match Schemas.AddToCollectionSchema body with
      | Throw e => (route_catch "Invalid request data" e, db)
      | Ok validatedData =>
          (* Check authentication *)
          match authenticated auth with
          | None => (unauthorized, db)
          | Some user =>
              match add_to_collection faults user validatedData db with
              | (Ok response, db') => (response, db')
              | (Throw e, db') => (route_catch "Invalid request data" e, db')
              end
          end
      end
  end.

End CollectionAddRoute.

(** ** What the routes use of the JavaScript runtime *)
Module Js.
Import Schemas.

(** [URLSearchParams.prototype.get]: the first value of the key, or null. *)
Fixpoint get (key : string) (searchParams : list (string * string))
    : option string :=
  match searchParams with
  | [] => None
  | (k, v) :: rest => if String.eqb k key then Some v else get key rest
  end.

Definition is_white_space (c : ascii) : bool :=
  let n := N_of_ascii c in
  ((n =? 32) || (9 <=? n) && (n <=? 13))%N.

Fixpoint trim_start (s : string) : string :=
  match s with
  | String c rest => if is_white_space c then trim_start rest else s
  | EmptyString => s
  end.

Definition digit_value (radix : Z) (c : ascii) : option Z :=
  let n := Z.of_N (N_of_ascii c) in
  let d := if (48 <=? n) && (n <=? 57) then n - 48
           else if (97 <=? n) && (n <=? 122) then n - 87
           else if (65 <=? n) && (n <=? 90) then n - 55
           else radix in
  if d <? radix then Some d else None.

(** The value of the longest prefix of digits, if it is not empty. *)
Fixpoint digits (radix : Z) (s : string) (acc : option Z) : option Z :=
  match s with
  | String c rest =>
      match digit_value radix c with
      | Some d =>
          digits radix rest
            (Some (radix * match acc with Some a => a | None => 0 end + d))
      | None => acc
      end
  | EmptyString => acc
  end.

(** [parseInt(s)] without a radix: the value of the longest prefix of
    digits after white space and a sign, [NaN] when there is none.  The
    value is kept exact.  JavaScript returns it as a double: the same
    number while it is a safe integer, a rounded one beyond
    [MAX_SAFE_INTEGER] and [Infinity] for very long digit strings, which
    this definition does not follow.  Properties that depend on a number
    read from a query string with no upper bound in its schema (the [page]
    of the collection search) are stated for safe integers. *)
Definition parseInt (s : string) : Value :=
  let s := trim_start s in
  let '(sign, s) :=
    match s with
    | String "-" rest => (-1, rest)
    | String "+" rest => (1, rest)
    | _ => (1, s)
    end in
  let '(radix, s) :=
    match s with
    | String "0" (String "x" rest) => (16, rest)
    | String "0" (String "X" rest) => (16, rest)
    | _ => (10, s)
    end in
  match digits radix s None with
  | Some n => VNumber (sign * n)
  | None => VNaN
  end.

(** [s.split(',')] *)
Fixpoint split_comma (s : string) : list string :=
  match s with
  | EmptyString => [EmptyString]
  | String c rest =>
      if Ascii.eqb c "," then EmptyString :: split_comma rest
      else match split_comma rest with
           | piece :: pieces => String c piece :: pieces
           | [] => [String c EmptyString]
           end
  end.

(** [searchParams.get(key)?.split(',').filter(Boolean) || undefined] *)
Definition list_param (key : string) (searchParams : list (string * string))
    : Value :=
  match get key searchParams with
  | Some s => VArray (map VString (filter truthy_string (split_comma s)))
  | None => VUndefined
  end.

(** [searchParams.get(key) ? parseInt(searchParams.get(key)!) : otherwise] *)
Definition int_param (key : string) (otherwise : Value)
    (searchParams : list (string * string)) : Value :=
  match get key searchParams with
  | Some s => if truthy_string s then parseInt s else otherwise
  | None => otherwise
  end.

(** A value that is a string or null. *)
Definition nullable (o : option string) : Value :=
  match o with
  | Some s => VString s
  | None => VNull
  end.

End Js.

(** ** The cards search route: search, cache and enrich *)
Module CardsSearchRoute.
Import Database.

(** An element of the returned page: the cache row (or the record built
    from the payload) with the two ownership members spread over it. *)
Record CardSearchResult := {
  cached : CardCache;
  in_collection : bool;
  collection_quantity : Z
}.

Record SearchPage := {
  page_total_cards : Z;
  page_has_more : bool;
  page_data : list CardSearchResult
}.

(** The record of the inner [catch]: basic card data taken from the
    payload, stamped with the current time. *)
Definition basic_card (card : ScryfallCard) (now : string) : CardCache :=
  {| scryfall_id := sc_id card;
     name := sc_name card;
     mana_cost := sc_mana_cost card;
     cmc := sc_cmc card;
     type_line := sc_type_line card;
     oracle_text := sc_oracle_text card;
     colors := sc_colors card;
     color_identity := sc_color_identity card;
     keywords := sc_keywords card;
     power := sc_power card;
     toughness := sc_toughness card;
     image_uris := sc_image_uris card;
     local_image_url := None;
     prices := Some (sc_prices card);
     legalities := Some (sc_legalities card);
     set_code := sc_set card;
     rarity := sc_rarity card;
     created_at := now;
     updated_at := now |}.

(** The body of the [try] of the per-card callback.  The cache goes
    through the service client, the ownership query through the client
    that carries the session of [uid]. *)
Definition enrich (faults : Faults) (uid : string) (card : ScryfallCard)
    (db : Db) : Res CardSearchResult * Db :=
  let '(cachedCard, db) :=
    (* Try to get from cache first *)
    match getCardFromCache faults db (sc_id card) with
    | Ok c => (Ok c, db)
    | Throw _ =>
        (* Card not in cache, insert it *)
        insertCardToCache faults db card
    end in
  match cachedCard with
  | Throw e => (Throw e, db)
  | Ok cachedCard =>
      (* Check if user has this card in collection *)
      let collectionCard := pg_data (select_owned faults db uid (sc_id card)) in
      (Ok {| cached := cachedCard;
             in_collection :=
               match collectionCard with Some _ => true | None => false end;
             collection_quantity :=
               match collectionCard with
               | Some quantity => if quantity =? 0 then 0 else quantity
               | None => 0
               end |},
       db)
  end.

(** The per-card callback with its [catch]. *)
Definition enhance (faults : Faults) (uid now : string) (card : ScryfallCard)
    (db : Db) : CardSearchResult * Db :=
  match enrich faults uid card db with
  | (Ok result, db) => (result, db)
  | (Throw _, db) =>
      (* Return basic card data if caching fails *)
      ({| cached := basic_card card now;
          in_collection := false;
          collection_quantity := 0 |}, db)
  end.

(** [Promise.all(searchResult.data.map(...))]: one result per card, in
    the order of the page.  The callbacks only meet in the cache table,
    which is threaded through them in page order. *)
Fixpoint enhance_all (faults : Faults) (uid now : string)
    (cards : list ScryfallCard) (db : Db) : list CardSearchResult * Db :=
  match cards with
  | [] => ([], db)
  | card :: rest =>
      let '(result, db) := enhance faults uid now card db in
      let '(results, db) := enhance_all faults uid now rest db in
      (result :: results, db)
  end.

(** What the handler runs in: the session, whether the service-role key is
    configured, the time, the faults of the database requests. *)
Record Env := {
  auth : AuthResult;
  service_key : bool;
  now : string;
  faults : Faults
}.

Definition search_params (searchParams : list (string * string))
    : Schemas.Value :=
  Schemas.VObject
    [("q", Js.nullable (Js.get "q" searchParams));
     ("page", Js.int_param "page" Schemas.VUndefined searchParams);
     ("unique", Js.nullable (Js.get "unique" searchParams))].

Definition GET (searchParams : list (string * string)) (env : Env)
    (w : Scryfall.Net) (db : Db)
    : NextResponse SearchPage * (Scryfall.Net * Db) :=
  (* Validate input *)
  match Schemas.SearchCardsSchema (search_params searchParams) with
  | Throw e => (route_catch "Invalid request parameters" e, (w, db))
  | Ok validatedParams =>
      (* Check authentication *)
      match authenticated (auth env) with
      | None => (unauthorized, (w, db))
      | Some user =>
          (* Search Scryfall *)
          match Scryfall.searchCards (Schemas.search_q validatedParams)
                  {| Scryfall.unique := Schemas.search_unique validatedParams;
                     Scryfall.page := Schemas.search_page validatedParams;
                     Scryfall.include_extras := None;
                     Scryfall.include_multilingual := None |} w with
          | (Throw e, w) => (route_catch "Invalid request parameters" e, (w, db))
          | (Ok searchResult, w) =>
              (* Cache cards in database and check collection status *)
              if service_key env then
                let '(enhancedResults, db) :=
                  enhance_all (faults env) (user_id user) (now env)
                    (data searchResult) db in
                (Json 200 {| page_total_cards := total_cards searchResult;
                             page_has_more := has_more searchResult;
                             page_data := enhancedResults |}, (w, db))
              else
                (route_catch "Invalid request parameters"
                   (Error "Missing SUPABASE_SERVICE_ROLE_KEY environment variable"),
                 (w, db))
          end
      end
  end.

End CardsSearchRoute.

(** ** The collection search route: the query builder *)
Module CollectionSearchRoute.
Import Database.

(** The filter calls of the supabase query builder, with the arguments
    the route passes. *)
Inductive Filter :=
| Eq (column value : string)
| Or (conditions : string)
| Overlaps (column : string) (values : list string)
| In_ (column : string) (values : list string)
| Gte (column : string) (value : Z)
| Lte (column : string) (value : Z).

(** A built query: whether the card relation is embedded in the select,
    the filters in the order they were applied, the order clause and the
    inclusive range. *)
Record Query := {
  embed_card : bool;
  filters : list Filter;
  ordering : option (string * bool);
  range : option (Z * Z)
}.

Definition from_collection_cards (embed : bool) : Query :=
  {| embed_card := embed; filters := []; ordering := None; range := None |}.

Definition add_filter (f : Filter) (q : Query) : Query :=
  {| embed_card := embed_card q;
     filters := (filters q ++ [f])%list;
     ordering := ordering q;
     range := range q |}.

Definition set_order (column : string) (ascending : bool) (q : Query) : Query :=
  {| embed_card := embed_card q;
     filters := filters q;
     ordering := Some (column, ascending);
     range := range q |}.

Definition set_range (from to : Z) (q : Query) : Query :=
  {| embed_card := embed_card q;
     filters := filters q;
     ordering := ordering q;
     range := Some (from, to) |}.

(** [if (cond) query = query.f(...)] *)
Definition when_ (f : option Filter) (q : Query) : Query :=
  match f with
  | Some f => add_filter f q
  | None => q
  end.

Definition text_filter (q : option string) : option Filter :=
  match q with
  | Some q =>
      if truthy_string q then
        Some (Or ("card.name.ilike.%" ++ q ++ "%,card.oracle_text.ilike.%" ++ q
                  ++ "%,card.type_line.ilike.%" ++ q ++ "%"))
      else None
  | None => None
  end.

Definition list_filter (values : option (list string))
    (f : list string -> Filter) : option Filter :=
  match nonempty_list values with
  | Some l => Some (f l)
  | None => None
  end.

Definition types_filter (types : option (list string)) : option Filter :=
  list_filter types (fun types =>
    let typeConditions :=
      join "," (map (fun type => "card.type_line.ilike.%" ++ type ++ "%") types) in
    Or typeConditions).

Definition number_filter (n : option Z) (f : Z -> Filter) : option Filter :=
  match n with
  | Some n => Some (f n)
  | None => None
  end.

(** The filters of the page query ([query]). *)
Definition page_filters (uid : string) (p : Schemas.SearchCollection)
    (q : Query) : Query :=
  let q := add_filter (Eq "user_id" uid) q in
  let q := when_ (text_filter (Schemas.q p)) q in
  let q := when_ (list_filter (Schemas.colors p) (Overlaps "card.colors")) q in
  let q := when_ (types_filter (Schemas.types p)) q in
  let q := when_ (list_filter (Schemas.sets p) (In_ "card.set_code")) q in
  let q := when_ (number_filter (Schemas.cmc_min p) (Gte "card.cmc")) q in
  let q := when_ (number_filter (Schemas.cmc_max p) (Lte "card.cmc")) q in
  when_ (list_filter (Schemas.rarity p) (In_ "card.rarity")) q.

(** The filters of the count query ([countQuery]), the second copy of
    the same block in the source. *)
Definition count_filters (uid : string) (p : Schemas.SearchCollection)
    (countQuery : Query) : Query :=
  let countQuery := add_filter (Eq "user_id" uid) countQuery in
  let countQuery := when_ (text_filter (Schemas.q p)) countQuery in
  let countQuery :=
    when_ (list_filter (Schemas.colors p) (Overlaps "card.colors")) countQuery in
  let countQuery := when_ (types_filter (Schemas.types p)) countQuery in
  let countQuery :=
    when_ (list_filter (Schemas.sets p) (In_ "card.set_code")) countQuery in
  let countQuery :=
    when_ (number_filter (Schemas.cmc_min p) (Gte "card.cmc")) countQuery in
  let countQuery :=
    when_ (number_filter (Schemas.cmc_max p) (Lte "card.cmc")) countQuery in
  when_ (list_filter (Schemas.rarity p) (In_ "card.rarity")) countQuery.

Definition sortColumn (sort : string) : string :=
  if String.eqb sort "name" then "card.name"
  else if String.eqb sort "cmc" then "card.cmc"
  else if String.eqb sort "rarity" then "card.rarity"
  else if String.eqb sort "set" then "card.set_code"
  else if String.eqb sort "added_at" then "added_at"
  else "card.name".

Definition offset (p : Schemas.SearchCollection) : Z :=
  (Schemas.page p - 1) * Schemas.limit p.

(** The finished page query. *)
Definition page_query (uid : string) (p : Schemas.SearchCollection) : Query :=
  let query := page_filters uid p (from_collection_cards true) in
  (* Apply sorting *)
  let query :=
    set_order (sortColumn (Schemas.sort p)) (String.eqb (Schemas.order p) "asc")
      query in
  (* Apply pagination *)
  set_range (offset p) (offset p + Schemas.limit p - 1) query.

Definition count_query (uid : string) (p : Schemas.SearchCollection) : Query :=
  count_filters uid p (from_collection_cards false).

Record Pagination := {
  page : Z;
  limit : Z;
  total : Z;
  hasMore : bool
}.

Record CollectionPage := {
  data : list CollectionRow;
  pagination : Pagination
}.

Section Store.

(** How the store reads one filter on one row, and how it orders rows
    by a column: the query engine of the hosted database, which the
    route only talks to.  The engine is taken to read a filter the same
    way in the page query and in the count query, whose selects differ
    (only the first embeds the card relation). *)
Variable holds : Filter -> CollectionRow -> bool.
Variable ordered : string -> bool -> list CollectionRow -> list CollectionRow.

(** The rows a query selects, for the session of [uid]. *)
Definition matching (query : Query) (uid : string) (db : Db)
    : list CollectionRow :=
  filter (fun r => forallb (fun f => holds f r) (filters query))
    (map (join_card db) (row_level_auth uid (collection_cards db))).

(** [range(from, to)]: the rows at positions [from] to [to]. *)
Definition window (range : option (Z * Z)) (rows : list CollectionRow)
    : list CollectionRow :=
  match range with
  | Some (from, to) =>
      firstn (Z.to_nat (to - from + 1)) (skipn (Z.to_nat from) rows)
  | None => rows
  end.

Definition arranged (query : Query) (rows : list CollectionRow)
    : list CollectionRow :=
  match ordering query with
  | Some (column, ascending) => ordered column ascending rows
  | None => rows
  end.

(** [await query] *)
Definition run (faults : Faults) (query : Query) (uid : string) (db : Db)
    : PgResult (list CollectionRow) :=
  request faults SelectPage
    (pg_ok (window (range query) (arranged query (matching query uid db)))).

(** [await countQuery], a [{ count: 'exact', head: true }] select: the
    number of selected rows arrives in [count], and no rows. *)
Definition run_count (faults : Faults) (countQuery : Query) (uid : string)
    (db : Db) : PgResult Z :=
  request faults CountPage
    (pg_ok (Z.of_nat (List.length (matching countQuery uid db)))).

(** [count || 0] *)
Definition count_or_0 (count : option Z) : Z :=
  match count with
  | Some n => n
  | None => 0
  end.

(** The part of [GET] after validation and authentication. *)
Definition search_collection (faults : Faults) (user : User)
    (validatedParams : Schemas.SearchCollection) (db : Db)
    : Res (NextResponse CollectionPage) :=
  let query := page_query (user_id user) validatedParams in
  let result := run faults query (user_id user) db in
  match pg_error result with
  | Some message =>
      Throw (Error ("Failed to search collection: " ++ message))
  | None =>
      let cards := pg_data result in
      (* Get total count for pagination *)
      let countQuery := count_query (user_id user) validatedParams in
      let count := pg_data (run_count faults countQuery (user_id user) db) in
      Ok (Json 200
            {| data := match cards with Some rows => rows | None => [] end;
               pagination :=
                 {| page := Schemas.page validatedParams;
                    limit := Schemas.limit validatedParams;
                    total := count_or_0 count;
                    hasMore :=
                      Schemas.page validatedParams * Schemas.limit validatedParams
                      <? count_or_0 count |} |})
  end.

Definition search_params (searchParams : list (string * string))
    : Schemas.Value :=
  let optional_string key :=
    match Js.get key searchParams with
    | Some s => if truthy_string s then Schemas.VString s else Schemas.VUndefined
    | None => Schemas.VUndefined
    end in
  Schemas.VObject
    [("q", optional_string "q");
     ("colors", Js.list_param "colors" searchParams);
     ("types", Js.list_param "types" searchParams);
     ("sets", Js.list_param "sets" searchParams);
     ("cmc_min", Js.int_param "cmc_min" Schemas.VUndefined searchParams);
     ("cmc_max", Js.int_param "cmc_max" Schemas.VUndefined searchParams);
     ("rarity", Js.list_param "rarity" searchParams);
     ("sort", Schemas.VString (or_string (Js.get "sort" searchParams) "name"));
     ("order", Schemas.VString (or_string (Js.get "order" searchParams) "asc"));
     ("page", Js.int_param "page" (Schemas.VNumber 1) searchParams);
     ("limit", Js.int_param "limit" (Schemas.VNumber 50) searchParams)].

Definition GET (searchParams : list (string * string)) (auth : AuthResult)
    (faults : Faults) (db : Db) : NextResponse CollectionPage :=
  (* Validate input *)
  match Schemas.SearchCollectionSchema (search_params searchParams) with
  | Throw e => route_catch "Invalid request parameters" e
  | Ok validatedParams =>
      (* Check authentication *)
      match authenticated auth with
      | None => unauthorized
      | Some user =>
          match search_collection faults user validatedParams db with
          | Ok response => response
          | Throw e => route_catch "Invalid request parameters" e
          end
      end
  end.

End Store.

End CollectionSearchRoute.

(** ** Overlapping calls of [rateLimitedFetch]

    An [async] function runs until its next [await] and then yields.  A call
    of [rateLimitedFetch] therefore passes through the states below, and
    several calls that are in progress at once interleave at these
    points, all of them reading and writing the one [lastRequestTime]. *)
Module EventLoop.
Import Scryfall.

(** Where a call stands: made at some time and not yet run; asleep in the
    throttle until [wake]; dispatched, with its response (none when the
    fetch rejects) arriving at [arrives]; asleep for the 1000ms after a 429
    until [wake]; returned or thrown. *)
Inductive Task :=
| Called (at_time : Z)
| Throttled (wake : Z)
| InFlight (arrives : Z) (response : option Response)
| BackingOff (wake : Z)
| Settled (result : Res Response).

Record Call := { url : Request; task : Task }.

Record Loop := { net : Net; calls : list Call }.

(** When the event loop can next run the call, if ever. *)
Definition ready (t : Task) : option Z :=
  match t with
  | Called at_time => Some at_time
  | Throttled wake => Some wake
  | InFlight arrives _ => Some arrives
  | BackingOff wake => Some wake
  | Settled _ => None
  end.

Fixpoint earliest (calls : list Call) : option Z :=
  match calls with
  | [] => None
  | c :: rest =>
      match ready (task c), earliest rest with
      | Some a, Some b => Some (Z.min a b)
      | Some a, None => Some a
      | None, later => later
      end
  end.

(** [lastRequestTime = Date.now()] and the [fetch] that follows, up to
    its [await]. *)
Definition dispatch (url : Request) (w : Net) : Task * Net :=
  let t := stamp_and_dispatch url (timing w) in
  match server w with
  | [] => (InFlight (clock t) None, {| timing := t; server := [] |})
  | x :: rest =>
      (InFlight (clock t + latency x) (Some (respond x url)),
       {| timing := t; server := rest |})
  end.

(** The start of [rateLimitedFetch], up to its first [await]. *)
Definition enter (url : Request) (w : Net) : Task * Net :=
  let now := clock (timing w) in
  let timeSinceLastRequest := now - lastRequestTime (timing w) in
  if timeSinceLastRequest <? REQUEST_DELAY
  then (Throttled (now + (REQUEST_DELAY - timeSinceLastRequest)
                   + timerLag (timing w)), w)
  else dispatch url w.

(** What follows the [await fetch(...)]. *)
Definition settle (response : option Response) (w : Net) : Task * Net :=
  match response with
  | None => (Settled (Throw (Error "fetch failed")), w)
  | Some response =>
      if negb (ok response) then
        if status response =? 429 then
          (BackingOff (clock (timing w) + 1000 + timerLag (timing w)), w)
        else
          (Settled (Throw (Error ("Scryfall API error: "
                                  ++ number_toString (status response) ++ " "
                                  ++ statusText response))), w)
      else (Settled (Ok response), w)
  end.

(** The call continues from where it awaited. *)
Definition resume (c : Call) (w : Net) : Call * Net :=
  let '(t, w) :=
    match task c with
    | Called _ => enter (url c) w
    | Throttled _ => dispatch (url c) w
    | InFlight _ response => settle response w
    | BackingOff _ => enter (url c) w
    | Settled r => (Settled r, w)
    end in
  ({| url := url c; task := t |}, w).

(** Resume the first call that is ready at [time]. *)
Fixpoint resume_first (time : Z) (calls : list Call) (w : Net)
    : list Call * Net :=
  match calls with
  | [] => ([], w)
  | c :: rest =>
      match ready (task c) with
      | Some r =>
          if r <=? time then
            let '(c, w) := resume c w in (c :: rest, w)
          else
            let '(rest, w) := resume_first time rest w in (c :: rest, w)
      | None =>
          let '(rest, w) := resume_first time rest w in (c :: rest, w)
      end
  end.

Definition advance_to (time : Z) (w : Net) : Net :=
  {| timing := elapse (Z.max 0 (time - clock (timing w))) (timing w);
     server := server w |}.

(** One turn of the loop: the clock moves to the next callback that is
    due, and that callback runs to its next [await]. *)
Definition step (l : Loop) : option Loop :=
  match earliest (calls l) with
  | None => None
  | Some time =>
      let w := advance_to time (net l) in
      let '(calls, w) := resume_first (clock (timing w)) (calls l) w in
      Some {| net := w; calls := calls |}
  end.

Fixpoint run (turns : nat) (l : Loop) : Loop :=
  match turns with
  | O => l
  | S turns =>
      match step l with
      | Some l => run turns l
      | None => l
      end
  end.

Definition settled (l : Loop) : bool :=
  forallb (fun c => match task c with Settled _ => true | _ => false end)
    (calls l).

(** The dispatch times in the order the requests went out. *)
Definition dispatch_times (l : Loop) : list Z :=
  rev (map fst (dispatches (timing (net l)))).

End EventLoop.


(** * Vocabulary of the properties, and the inputs they are run on *)

(** ** The fetch client *)
Module FetchSpec.
Import Scryfall.

(** Dispatch times, latest first, that are at least [REQUEST_DELAY] apart. *)
Fixpoint spaced (times : list Z) : bool :=
  match times with
  | later :: ((earlier :: _) as rest) =>
      (earlier + REQUEST_DELAY <=? later) && spaced rest
  | _ => true
  end.

(** The state one caller at a time keeps: timers never fire early, the
    dispatches so far are spaced, and none is later than
    [lastRequestTime]. *)
Definition paced (t : Timing) : Prop :=
  0 <= timerLag t
  /\ spaced (map fst (dispatches t)) = true
  /\ (forall d, hd_error (map fst (dispatches t)) = Some d ->
                d <= lastRequestTime t).

Definition answer (status : Z) (statusText : string) (body : option Payload)
    : Exchange :=
  {| latency := 50;
     respond := fun _ => {| status := status; statusText := statusText;
                            body := body |} |}.

Definition too_many_requests : Exchange :=
  answer 429 "Too Many Requests" None.

Definition found_nothing : Payload :=
  PError (Some "not_found") (Some "No cards found").

Definition bad_request : Payload :=
  PError (Some "bad_request") (Some "Invalid search syntax").

Definition no_cards : Exchange := answer 200 "OK" (Some (PList empty_result)).

(** A process that has not sent anything yet, some time after its start. *)
Definition fresh_timing : Timing :=
  {| clock := 5000; lastRequestTime := 0; dispatches := []; timerLag := 0 |}.

Definition facing (server : list Exchange) : Net :=
  {| timing := fresh_timing; server := server |}.

Definition search_url (query : string) (options : SearchOptions) : Request :=
  {| endpoint := "/cards/search"; params := search_params query options |}.

(** Three calls made in the same turn of the event loop, each answered with
    an empty list after 50ms. *)
Definition three_calls_at_once : EventLoop.Loop :=
  let call := {| EventLoop.url := search_url "bolt" no_options;
                 EventLoop.task := EventLoop.Called 5000 |} in
  {| EventLoop.net := facing [no_cards; no_cards; no_cards];
     EventLoop.calls := [call; call; call] |}.

(** A filter object with no member set. *)
Definition no_filters : Filters :=
  {| name := None; colors := None; colorIdentity := None; types := None;
     text := None; manaValue := None; power := None; toughness := None;
     sets := None; rarity := None; format := None; banned := None;
     legal := None |}.

(** Every member but [sets] is empty: absent, an empty string, an empty
    list, or a range with neither bound. *)
Definition only_sets (f : Filters) : Prop :=
  truthy (name f) = false
  /\ nonempty_list (colors f) = None
  /\ nonempty_list (colorIdentity f) = None
  /\ nonempty_list (types f) = None
  /\ truthy (text f) = false
  /\ range_min (manaValue f) = None /\ range_max (manaValue f) = None
  /\ range_min (power f) = None /\ range_max (power f) = None
  /\ range_min (toughness f) = None /\ range_max (toughness f) = None
  /\ nonempty_list (rarity f) = None
  /\ truthy (format f) = false.

Definition with_sets (codes : list string) : Filters :=
  {| name := None; colors := None; colorIdentity := None; types := None;
     text := None; manaValue := None; power := None; toughness := None;
     sets := Some codes; rarity := None; format := None; banned := None;
     legal := None |}.

End FetchSpec.

(** ** The collection table *)
Module DbSpec.
Import Database.

(** What the table is unique on: (user, card, condition, foil). *)
Definition entry_key (r : CollectionCard) : string * string * string * bool :=
  (cc_user_id r, cc_scryfall_id r, cc_condition r, cc_foil r).

(** The keys of the two tables hold: one cache row per external
    identifier, one collection row per id and per (user, card, condition,
    foil), and ids below the counter they are drawn from. *)
Definition well_formed (db : Db) : Prop :=
  NoDup (map scryfall_id (cards_cache db))
  /\ NoDup (map cc_id (collection_cards db))
  /\ NoDup (map entry_key (collection_cards db))
  /\ Forall (fun r => (cc_id r < next_id db)%nat) (collection_cards db).

Definition cached (db : Db) (id : string) : Prop :=
  In id (map scryfall_id (cards_cache db)).

(** The row a merge leaves in place of [existing]. *)
Definition merged (existing : CollectionCard) (v : Schemas.AddToCollection)
    : CollectionCard :=
  set_quantity_notes (cc_quantity existing + Schemas.add_quantity v)
    (or_option (Schemas.add_notes v) (cc_notes existing)) existing.

(** The row an add creates. *)
Definition created (db : Db) (uid : string) (v : Schemas.AddToCollection)
    : CollectionCard :=
  {| cc_id := next_id db;
     cc_user_id := uid;
     cc_scryfall_id := Schemas.add_scryfall_id v;
     cc_quantity := Schemas.add_quantity v;
     cc_condition := Schemas.add_condition v;
     cc_foil := Schemas.add_foil v;
     cc_notes := Schemas.add_notes v;
     cc_added_at := db_now db;
     cc_updated_at := db_now db |}.

Definition bolt_id : string := "123e4567-e89b-12d3-a456-426614174000".

Definition bolt : ScryfallCard :=
  {| sc_id := bolt_id;
     sc_name := "Lightning Bolt";
     sc_mana_cost := Some "{R}";
     sc_cmc := 1;
     sc_type_line := "Instant";
     sc_oracle_text := Some "Lightning Bolt deals 3 damage to any target.";
     sc_colors := ["R"];
     sc_color_identity := ["R"];
     sc_keywords := None;
     sc_power := None;
     sc_toughness := None;
     sc_image_uris := None;
     sc_prices := "{}";
     sc_legalities := "{}";
     sc_set := "lea";
     sc_set_name := "Limited Edition Alpha";
     sc_rarity := "common" |}.

Definition alice : User := {| user_id := "alice" |}.

Definition signed_in (u : User) : AuthResult :=
  {| user := Some u; authError := None |}.


Definition entry_of (id : nat) (uid : string) (quantity : Z) (foil : bool)
    (notes : option string) : CollectionCard :=
  {| cc_id := id;
     cc_user_id := uid;
     cc_scryfall_id := bolt_id;
     cc_quantity := quantity;
     cc_condition := "near_mint";
     cc_foil := foil;
     cc_notes := notes;
     cc_added_at := "2024-01-01T00:00:00Z";
     cc_updated_at := "2024-01-01T00:00:00Z" |}.

Definition db_with (rows : list CollectionCard) : Db :=
  {| cards_cache := [cache_row bolt None "2024-01-01T00:00:00Z"];
     collection_cards := rows;
     next_id := 10;
     db_now := "2024-06-01T00:00:00Z" |}.

(** Alice holds two near-mint, non-foil bolts, with a note. *)
Definition alices_db : Db := db_with [entry_of 1 "alice" 2 false (Some "signed")].

(** Alice holds the bolt twice: two non-foil and one foil. *)
Definition alices_foil_db : Db :=
  db_with [entry_of 1 "alice" 2 false None; entry_of 2 "alice" 1 true None].

Definition add_body (quantity : Z) (foil : bool) (notes : Schemas.Value)
    : Schemas.Value :=
  Schemas.VObject
    [("scryfall_id", Schemas.VString bolt_id);
     ("quantity", Schemas.VNumber quantity);
     ("condition", Schemas.VString "near_mint");
     ("foil", Schemas.VBool foil);
     ("notes", notes)].

End DbSpec.

(** What the schema makes of [DbSpec.add_body]. *)
Definition add_request (quantity : Z) (foil : bool) (notes : option string)
    : Schemas.AddToCollection :=
  {| Schemas.add_scryfall_id := DbSpec.bolt_id;
     Schemas.add_quantity := quantity;
     Schemas.add_condition := "near_mint";
     Schemas.add_foil := foil;
     Schemas.add_notes := notes |}.

(** ** The cache-and-enrich pipeline *)
Module EnrichSpec.
Import Database CardsSearchRoute.

(** The database as the callback of the card at position [i] finds it. *)
Definition db_at (faults : Faults) (uid now : string)
    (cards : list ScryfallCard) (db : Db) (i : nat) : Db :=
  snd (enhance_all faults uid now (firstn i cards) db).

(** The minimal record of a card whose enrichment failed. *)
Definition degraded (card : ScryfallCard) (now : string) : CardSearchResult :=
  {| cached := basic_card card now;
     in_collection := false;
     collection_quantity := 0 |}.

(** The collection rows of [uid] for the card [id]. *)
Definition owned_entries (db : Db) (uid id : string) : list CollectionCard :=
  filter (fun r => String.eqb (cc_user_id r) uid
                   && String.eqb (cc_scryfall_id r) id)
    (collection_cards db).

(** The ownership members of the page a response carries. *)
Definition ownership (response : NextResponse SearchPage) : list (bool * Z) :=
  match response with
  | Json _ page =>
      map (fun r => (in_collection r, collection_quantity r)) (page_data page)
  | JsonError _ _ => []
  end.

Definition shock : ScryfallCard :=
  {| sc_id := "9e3f2a10-5b7c-4d8e-a1f0-3c2b1a0f9e8d";
     sc_name := "Shock";
     sc_mana_cost := Some "{R}";
     sc_cmc := 1;
     sc_type_line := "Instant";
     sc_oracle_text := Some "Shock deals 2 damage to any target.";
     sc_colors := ["R"];
     sc_color_identity := ["R"];
     sc_keywords := None;
     sc_power := None;
     sc_toughness := None;
     sc_image_uris := None;
     sc_prices := "{}";
     sc_legalities := "{}";
     sc_set := "m21";
     sc_set_name := "Core Set 2021";
     sc_rarity := "common" |}.

(** The API answers with one page of the given cards. *)
Definition serving (cards : list ScryfallCard) : Scryfall.Net :=
  FetchSpec.facing
    [FetchSpec.answer 200 "OK"
       (Some (Scryfall.PList {| total_cards := Z.of_nat (List.length cards);
                                has_more := false;
                                data := cards |}))].

Definition session_of (u : User) (faults : Faults) : Env :=
  {| auth := DbSpec.signed_in u;
     service_key := true;
     now := "2024-06-01T12:00:00.000Z";
     faults := faults |}.

(** Neither reading nor writing the cache row of [id] goes through. *)
Definition cache_down_for (id : string) : Faults := fun op =>
  match op with
  | SelectCard i => if String.eqb i id then Some "connection reset" else None
  | UpsertCard i => if String.eqb i id then Some "connection reset" else None
  | _ => None
  end.

Definition bolt_search : list (string * string) :=
  [("q", "lightning bolt"); ("unique", "cards")].

End EnrichSpec.

(** ** The collection query builder *)
Module QuerySpec.
Import Database CollectionSearchRoute.

(** A query engine to run the route on: it reads the comparisons on the
    mana value and the membership in a set list, lets every other filter
    pass, and orders rows as stored or, descending, reversed. *)
Definition sample_holds (f : Filter) (r : CollectionRow) : bool :=
  match f, card r with
  | Gte _ n, Some c => n <=? cmc c
  | Lte _ n, Some c => cmc c <=? n
  | In_ column values, Some c =>
      if String.eqb column "card.set_code"
      then existsb (String.eqb (set_code c)) values
      else true
  | _, _ => true
  end.

Definition sample_ordered (column : string) (ascending : bool)
    (rows : list CollectionRow) : list CollectionRow :=
  if ascending then rows else rev rows.

Definition second_page_of_one : list (string * string) :=
  [("sets", "lea,leb"); ("page", "2"); ("limit", "1")].

End QuerySpec.

(** Searches made one after the other, each awaited before the next. *)
Fixpoint search_in_turn (queries : list string) (w : Scryfall.Net)
    : Scryfall.Net :=
  match queries with
  | [] => w
  | query :: rest =>
      search_in_turn rest (snd (Scryfall.searchCards query Scryfall.no_options w))
  end.

(** The loop gets from [l] to [l'] in some number of turns. *)
Definition reaches (l l' : EventLoop.Loop) : Prop :=
  exists turns, forall more,
    EventLoop.run (turns + more) l = EventLoop.run more l'.

(** A loop with the one call [task] of [url]. *)
Definition alone (url : Scryfall.Request) (task : EventLoop.Task)
    (t : Scryfall.Timing) (server : list Scryfall.Exchange) : EventLoop.Loop :=
  {| EventLoop.net := {| Scryfall.timing := t; Scryfall.server := server |};
     EventLoop.calls := [{| EventLoop.url := url; EventLoop.task := task |}] |}.

(** ** services/api/src/scryfall.ts: the other operations of the gateway *)
Module ScryfallLookups.
Import Scryfall Schemas.

(** Truthiness of a JavaScript value. *)
Definition truthy_value (v : Value) : bool :=
  match v with
  | VUndefined | VNull | VNaN => false
  | VBool b => b
  | VNumber n => negb (n =? 0)
  | VString s => truthy_string s
  | VArray _ | VObject _ => true
  end.

(** [String(v)], as [new Error(v)] makes its message. *)
Fixpoint toString (v : Value) : string :=
  match v with
  | VUndefined => "undefined"
  | VNull => "null"
  | VBool b => boolean_toString b
  | VNumber n => number_toString n
  | VNaN => "NaN"
  | VString s => s
  | VArray items =>
      join ","
        (map (fun item => match item with
                          | VUndefined | VNull => EmptyString
                          | _ => toString item
                          end) items)
  | VObject _ => "[object Object]"
  end.

(** [data.key]: reading a member of null or undefined throws, a member an
    object does not have reads undefined, as does any member this code
    asks of a number, string, boolean or array. *)
Definition member (key : string) (data : Value) : Res Value :=
  match data with
  | VUndefined | VNull =>
      Throw (Error ("Cannot read properties of null (reading '" ++ key ++ "')"))
  | VObject fields => Ok (field key fields)
  | _ => Ok VUndefined
  end.

(** [v === 'text'] *)
Definition is_string (v : Value) (text : string) : bool :=
  match v with
  | VString s => String.eqb s text
  | _ => false
  end.

(** [v || 'fallback'] as the message of an [Error]. *)
Definition or_message (v : Value) (fallback : string) : string :=
  if truthy_value v then toString v else fallback.

(** [v || []] *)
Definition or_empty_array (v : Value) : Value :=
  if truthy_value v then v else VArray [].

Section Bodies.

(** What [response.json()] resolves to on a response of these endpoints
    ([None]: it rejects), and what [response.arrayBuffer()] resolves to. *)
Variable json : Response -> option Value.
Variable arrayBuffer : Response -> option Blob.

(** [const response = await rateLimitedFetch(url);
     const data = await response.json();] *)
Definition fetch_json (url : Request) (w : Net) : Res Value * Net :=
  let '(r, w) := rateLimitedFetch url w in
  (bindR r (fun response =>
     match json response with
     | Some data => Ok data
     | None => Throw (Error "Unexpected end of JSON input")
     end), w).

(** [ScryfallService.getAutocomplete]: the [catch] logs and returns []. *)
Definition getAutocomplete (query : string) (w : Net) : Res Value * Net :=
  let url := {| endpoint := "/cards/autocomplete"; params := [("q", query)] |} in
  let '(fetched, w) := fetch_json url w in
  (try_catch
     (bindR fetched (fun data =>
      bindR (member "object" data) (fun object =>
      if is_string object "error" then Ok (VArray [])
      else bindR (member "data" data) (fun d => Ok (or_empty_array d)))))
     (fun error => Ok (VArray [])), w).

(** The body the three single-card lookups share: an error object throws
    its details, anything else is returned as the card; the [catch] logs
    and rethrows. *)
Definition lookup (url : Request) (w : Net) : Res Value * Net :=
  let '(fetched, w) := fetch_json url w in
  (try_catch
     (bindR fetched (fun data =>
      bindR (member "object" data) (fun object =>
      if is_string object "error" then
        bindR (member "details" data) (fun details =>
        Throw (Error (or_message details "Card not found")))
      else Ok data)))
     (fun error => Throw error), w).

(** [ScryfallService.getCard] *)
Definition getCard (scryfallId : string) (w : Net) : Res Value * Net :=
  lookup {| endpoint := "/cards/" ++ scryfallId; params := [] |} w.

(** [ScryfallService.getCardByName] *)
Definition getCardByName (name : string) (set : option string) (w : Net)
    : Res Value * Net :=
  lookup {| endpoint := "/cards/named";
            params := ("exact", name)
                      :: match set with
                         | Some s => if truthy_string s then [("set", s)] else []
                         | None => []
                         end |} w.

(** [ScryfallService.getCardByFuzzyName] *)
Definition getCardByFuzzyName (name : string) (w : Net) : Res Value * Net :=
  lookup {| endpoint := "/cards/named"; params := [("fuzzy", name)] |} w.

(** [ScryfallService.getSets] *)
Definition getSets (w : Net) : Res Value * Net :=
  let url := {| endpoint := "/sets"; params := [] |} in
  let '(fetched, w) := fetch_json url w in
  (try_catch
     (bindR fetched (fun data =>
      bindR (member "object" data) (fun object =>
      if is_string object "error" then
        bindR (member "details" data) (fun details =>
        Throw (Error (or_message details "Failed to fetch sets")))
      else bindR (member "data" data) (fun d => Ok (or_empty_array d)))))
     (fun error => Throw error), w).

(** [ScryfallService.downloadCardImage] *)
Definition downloadCardImage (imageUrl : string) (w : Net) : Res Blob * Net :=
  let '(r, w) := rateLimitedFetch {| endpoint := imageUrl; params := [] |} w in
  (try_catch
     (bindR r (fun response =>
        match arrayBuffer response with
        | Some bytes => Ok bytes
        | None => Throw (Error "body stream already read")
        end))
     (fun error => Throw error), w).

End Bodies.

End ScryfallLookups.

(** ** apps/web/src/components: what the components ask of the routes

    A request is kept as the entries of its query string, or as the
    value its JSON body parses to; serialising and parsing them back is not
    modelled. *)
Module Components.
Import Schemas.

(** [CardSearch]: the key of its [useSWR], a search of the debounced text
    once it has two characters, and no request before. *)
Definition CardSearch_request (debouncedQuery : string)
    : option (list (string * string)) :=
  if (2 <=? String.length debouncedQuery)%nat
  then Some [("q", debouncedQuery)]
  else None.

(** [handleAddToCollection]: the body of its POST. *)
Definition handleAddToCollection_body (scryfall_id : string) : Value :=
  VObject [("scryfall_id", VString scryfall_id); ("quantity", VNumber 1)].

(** [CollectionView]: its [queryParams]. *)
Definition CollectionView_request (currentPage : Z) (debouncedQuery : string)
    : list (string * string) :=
  ([("page", number_toString currentPage); ("limit", "20")]
   ++ (if truthy_string debouncedQuery then [("q", debouncedQuery)] else []))%list.

End Components.

(** ** Further vocabulary *)
Module MoreSpec.
Import Database.

(** The number a string of decimal digits stands for, read from the left
    onto [acc]. *)
Fixpoint uint_value (d : Decimal.uint) (acc : Z) : Z :=
  match d with
  | Decimal.Nil => acc
  | Decimal.D0 d => uint_value d (10 * acc + 0)
  | Decimal.D1 d => uint_value d (10 * acc + 1)
  | Decimal.D2 d => uint_value d (10 * acc + 2)
  | Decimal.D3 d => uint_value d (10 * acc + 3)
  | Decimal.D4 d => uint_value d (10 * acc + 4)
  | Decimal.D5 d => uint_value d (10 * acc + 5)
  | Decimal.D6 d => uint_value d (10 * acc + 6)
  | Decimal.D7 d => uint_value d (10 * acc + 7)
  | Decimal.D8 d => uint_value d (10 * acc + 8)
  | Decimal.D9 d => uint_value d (10 * acc + 9)
  end.

(** How many copies the entries with a key hold together. *)
Definition held (db : Db) (uid id condition : string) (foil : bool) : Z :=
  fold_right Z.add 0
    (map cc_quantity
       (filter (same_entry uid id condition foil) (collection_cards db))).

(** The add button of [CardSearch] pressed [k] times for a card, each
    request answered before the next. *)
Fixpoint pressed (k : nat) (scryfall_id : string) (auth : AuthResult)
    (db : Db) : Db :=
  match k with
  | O => db
  | S k =>
      pressed k scryfall_id auth
        (snd (CollectionAddRoute.POST
                (Some (Components.handleAddToCollection_body scryfall_id))
                auth no_faults db))
  end.

(** The collection rows that are not those of [uid]. *)
Definition of_others (uid : string) (rows : list CollectionCard)
    : list CollectionCard :=
  filter (fun r => negb (String.eqb (cc_user_id r) uid)) rows.

(** The same search, asked for page [p]. *)
Definition on_page (params : Schemas.SearchCollection) (p : Z)
    : Schemas.SearchCollection :=
  {| Schemas.q := Schemas.q params;
     Schemas.colors := Schemas.colors params;
     Schemas.types := Schemas.types params;
     Schemas.sets := Schemas.sets params;
     Schemas.cmc_min := Schemas.cmc_min params;
     Schemas.cmc_max := Schemas.cmc_max params;
     Schemas.rarity := Schemas.rarity params;
     Schemas.sort := Schemas.sort params;
     Schemas.order := Schemas.order params;
     Schemas.page := p;
     Schemas.limit := Schemas.limit params |}.

(** The rows and the [hasMore] flag of a response of the collection
    search. *)
Definition rows_of (r : Res (NextResponse CollectionSearchRoute.CollectionPage))
    : list CollectionRow :=
  match r with
  | Ok (Json _ page) => CollectionSearchRoute.data page
  | _ => []
  end.

Definition hasMore_of (r : Res (NextResponse CollectionSearchRoute.CollectionPage))
    : bool :=
  match r with
  | Ok (Json _ page) =>
      CollectionSearchRoute.hasMore (CollectionSearchRoute.pagination page)
  | _ => false
  end.

(** The rows of pages 1 to [k], one page after the other. *)
Fixpoint first_pages (rows_on : Z -> list CollectionRow) (k : nat)
    : list CollectionRow :=
  match k with
  | O => []
  | S k' => (first_pages rows_on k' ++ rows_on (Z.of_nat k))%list
  end.

(** A query engine that breaks ties one way at the request for the first
    page and the other way afterwards. *)
Definition fickle_ordered (p : Z) (column : string) (ascending : bool)
    (rows : list CollectionRow) : list CollectionRow :=
  if p =? 1 then rows else rev rows.

(** The statuses a route answers with. *)
Definition status_in (statuses : list Z) (status : Z) : Prop := In status statuses.

(** The tables after a cards search, or after part of one: the collection
    is as it was, and what was cached is still cached. *)
Definition kept (db db' : Db) : Prop :=
  collection_cards db' = collection_cards db
  /\ next_id db' = next_id db
  /\ db_now db' = db_now db
  /\ (forall id, DbSpec.cached db id -> DbSpec.cached db' id).

(** What the collection-add route admits into the table: at least one
    copy, a condition of [CARD_CONDITIONS], an identifier of the shape of
    a uuid that has a row in the card cache, and notes of at most 500
    characters. *)
Definition admitted (db : Db) (r : CollectionCard) : Prop :=
  1 <= cc_quantity r
  /\ In (cc_condition r) Schemas.CARD_CONDITIONS
  /\ Schemas.is_uuid (cc_scryfall_id r) = true
  /\ DbSpec.cached db (cc_scryfall_id r)
  /\ match cc_notes r with
     | Some notes => (String.length notes <= 500)%nat
     | None => True
     end.




(** The ownership query for [id] does not go through. *)
Definition ownership_down_for (id : string) : Faults := fun op =>
  match op with
  | SelectOwned i => if String.eqb i id then Some "connection reset" else None
  | _ => None
  end.

(** The elements of the page a cards search answers with. *)
Definition elements
    (response : NextResponse CardsSearchRoute.SearchPage)
    : list CardsSearchRoute.CardSearchResult :=
  match response with
  | Json _ page => CardsSearchRoute.page_data page
  | JsonError _ _ => []
  end.

(** The count query of the collection search does not go through. *)
Definition count_down : Faults := fun op =>
  match op with
  | CountPage => Some "canceling statement due to statement timeout"
  | _ => None
  end.

End MoreSpec.

(** ** The gateway as a whole: its methods, called in turn *)
Module GatewaySpec.
Import Scryfall ScryfallLookups.

(** A call of one of the static methods of [ScryfallService]. *)
Inductive Operation :=
| SearchCards (query : string) (options : SearchOptions)
| GetCard (scryfallId : string)
| GetCardByName (name : string) (set : option string)
| GetCardByFuzzyName (name : string)
| GetAutocomplete (query : string)
| DownloadCardImage (imageUrl : string)
| GetSets
| AdvancedSearch (filters : Filters) (options : AdvancedOptions).

Section Bodies.
Variable json : Response -> option Schemas.Value.
Variable arrayBuffer : Response -> option Blob.

(** The network after the call has settled, whatever it settled with. *)
Definition perform (op : Operation) (w : Net) : Net :=
  match op with
  | SearchCards query options => snd (searchCards query options w)
  | GetCard scryfallId => snd (getCard json scryfallId w)
  | GetCardByName name set => snd (getCardByName json name set w)
  | GetCardByFuzzyName name => snd (getCardByFuzzyName json name w)
  | GetAutocomplete query => snd (getAutocomplete json query w)
  | DownloadCardImage imageUrl => snd (downloadCardImage arrayBuffer imageUrl w)
  | GetSets => snd (getSets json w)
  | AdvancedSearch filters options => snd (advancedSearch filters options w)
  end.

(** Calls made one after the other, each awaited before the next. *)
Fixpoint in_turn (ops : list Operation) (w : Net) : Net :=
  match ops with
  | [] => w
  | op :: rest => in_turn rest (perform op w)
  end.

End Bodies.
End GatewaySpec.

(** ** What a rejected request is told *)
Module IssueSpec.
(** Issues that tell the caller what to fix: there is at least one, and
    each is about a member of the schema, named first in its path. *)
Definition name_members (members : list string) (issues : list ZodIssue)
    : Prop :=
  issues <> []
  /\ Forall (fun issue => exists member rest,
               issue_path issue = member :: rest /\ In member members)
       issues.

(** A checked value whose issues, if any, name members; a schema that
    names the member it is applied at. *)
Definition named {A} (members : list string) (c : Schemas.Checked A) : Prop :=
  match c with
  | inl _ => True
  | inr issues => name_members members issues
  end.

Definition names {A} (members : list string) (s : Schemas.Schema A) : Prop :=
  forall member rest v,
    In member members -> named members (s (member :: rest) v).

(** The members of the three schemas. *)
Definition AddToCollection_members : list string :=
  ["scryfall_id"; "quantity"; "condition"; "foil"; "notes"].
Definition SearchCards_members : list string := ["q"; "page"; "unique"].
Definition SearchCollection_members : list string :=
  ["q"; "colors"; "types"; "sets"; "cmc_min"; "cmc_max"; "rarity"; "sort";
   "order"; "page"; "limit"].

End IssueSpec.

(** ** Calls made at once in the event loop *)
Module OverlapSpec.
Import Scryfall EventLoop.

(** Calls of [rateLimitedFetch] made in the same turn of the event loop,
    one per request, none of them run yet. *)
Definition at_once (urls : list Request) (t : Timing) (server : list Exchange)
    : Loop :=
  {| net := {| timing := t; server := server |};
     calls := map (fun u => {| url := u; task := Called (clock t) |}) urls |}.

(** The call cannot run at [time]: it is due later, or has settled. *)
Definition not_due (time : Z) (c : Call) : Prop :=
  match ready (task c) with
  | Some r => time < r
  | None => True
  end.

(** A process that sent its last request 50ms ago. *)
Definition just_sent : Timing :=
  {| clock := 5000; lastRequestTime := 4950;
     dispatches := [(4950, FetchSpec.search_url "bolt" no_options)];
     timerLag := 0 |}.

End OverlapSpec.

(** * Properties *)

(** ** The rate-limited fetch client *)
Section FetchClient.
Import Scryfall FetchSpec.

Lemma throttle_frame t :
  lastRequestTime (throttle t) = lastRequestTime t
  /\ dispatches (throttle t) = dispatches t
  /\ timerLag (throttle t) = timerLag t.
Proof.
  unfold throttle. destruct (_ <? _); simpl; auto.
Qed.

(** After the throttle at least [REQUEST_DELAY] has passed since
    [lastRequestTime], whatever the clock was. *)
Lemma throttle_waits t :
  0 <= timerLag t ->
  lastRequestTime t + REQUEST_DELAY <= clock (throttle t).
Proof.
  intros Hlag. unfold throttle, setTimeout, REQUEST_DELAY.
  destruct (Z.ltb_spec (clock t - lastRequestTime t) 100); cbn [clock]; lia.
Qed.

Lemma paced_dispatch url t :
  paced t -> paced (stamp_and_dispatch url (throttle t)).
Proof.
  intros (Hlag & Hsp & Hhd).
  destruct (throttle_frame t) as (Hlast & Hlog & Hl).
  pose proof (throttle_waits t Hlag) as Hwait.
  unfold paced, stamp_and_dispatch; simpl. rewrite Hl, Hlog.
  split; [assumption|]. split.
  - destruct (dispatches t) as [|[d u] rest] eqn:E; simpl; [reflexivity|].
    simpl in Hsp. rewrite Hsp, andb_true_r.
    apply Z.leb_le. specialize (Hhd d eq_refl). lia.
  - intros d Hd. injection Hd as <-. lia.
Qed.

Lemma paced_elapse ms t : paced t -> paced (elapse ms t).
Proof. unfold paced; simpl; auto. Qed.

Lemma paced_setTimeout ms t : paced t -> paced (setTimeout ms t).
Proof. unfold paced; simpl; auto. Qed.

(** One caller at a time: whatever the server answers and however long it
    takes, a call of [rateLimitedFetch] leaves all dispatches at least
    [REQUEST_DELAY] apart, retries included. *)
Lemma rateLimitedFetch_on_paced server url :
  forall t, paced t -> paced (fst (snd (rateLimitedFetch_on server url t))).
Proof.
  induction server as [|x rest IH]; intros t Ht; simpl.
  - now apply paced_dispatch.
  - destruct (negb (ok (respond x url))).
    + destruct (status (respond x url) =? 429); simpl.
      * apply IH, paced_setTimeout, paced_elapse, paced_dispatch, Ht.
      * apply paced_elapse, paced_dispatch, Ht.
    + simpl. apply paced_elapse, paced_dispatch, Ht.
Qed.

Lemma rateLimitedFetch_paced url w :
  paced (timing w) -> paced (timing (snd (rateLimitedFetch url w))).
Proof.
  intros H. unfold rateLimitedFetch.
  pose proof (rateLimitedFetch_on_paced (server w) url (timing w) H) as P.
  destruct (rateLimitedFetch_on (server w) url (timing w)) as [r [t s]].
  exact P.
Qed.

(** A response is handed to the caller only when its status is 2xx. *)
Lemma rateLimitedFetch_on_Ok server url :
  forall t response rest,
    rateLimitedFetch_on server url t = (Ok response, rest) ->
    ok response = true.
Proof.
  induction server as [|x tail IH]; intros t response rest; simpl.
  - discriminate.
  - destruct (ok (respond x url)) eqn:Hok; simpl.
    + intros H. injection H as <- _. exact Hok.
    + destruct (status (respond x url) =? 429); [apply IH | discriminate].
Qed.

(** The latest dispatch of a call is a dispatch of its own request. *)
Lemma rateLimitedFetch_on_latest_dispatch server url :
  forall t, exists time earlier,
    dispatches (fst (snd (rateLimitedFetch_on server url t)))
    = (time, url) :: earlier.
Proof.
  induction server as [|x rest IH]; intros t; simpl.
  - eauto.
  - destruct (negb (ok (respond x url))).
    + destruct (status (respond x url) =? 429); [apply IH | simpl; eauto].
    + simpl. eauto.
Qed.

(** The step of the source on a 429: wait 1000ms, then start over on what
    the server answers next. *)
Lemma rateLimitedFetch_on_429 x rest url t :
  status (respond x url) = 429 ->
  rateLimitedFetch_on (x :: rest) url t
  = rateLimitedFetch_on rest url
      (setTimeout 1000 (elapse (latency x) (stamp_and_dispatch url (throttle t)))).
Proof.
  intros H. simpl. unfold ok. rewrite H. reflexivity.
Qed.

(** Every 429 is retried, however many came before it: after [n] of them
    in a row the client has dispatched [n + 1] requests and returns the
    answer to the last. *)
Lemma rateLimitedFetch_on_retries_every_429 n x url :
  ok (respond x url) = true ->
  forall t,
    let out := rateLimitedFetch_on (repeat too_many_requests n ++ [x]) url t in
    fst out = Ok (respond x url)
    /\ List.length (dispatches (fst (snd out)))
       = (List.length (dispatches t) + n + 1)%nat.
Proof.
  intros Hok. induction n as [|n IH]; intros t; simpl.
  - rewrite Hok. simpl. split; [reflexivity|].
    destruct (throttle_frame t) as (_ & -> & _). lia.
  - destruct (IH (setTimeout 1000 (elapse 50
                    (stamp_and_dispatch url (throttle t))))) as [R L].
    split; [exact R|].
    rewrite L. simpl.
    destruct (throttle_frame t) as (_ & -> & _). lia.
Qed.

End FetchClient.

(** ** One call alone in the event loop *)
Section AloneInTheLoop.
Import Scryfall EventLoop.

Lemma Timing_eq (a b : Timing) :
  clock a = clock b -> lastRequestTime a = lastRequestTime b ->
  dispatches a = dispatches b -> timerLag a = timerLag b -> a = b.
Proof. destruct a, b; simpl; intros; subst; reflexivity. Qed.

Lemma reaches_refl l : reaches l l.
Proof. exists 0%nat. reflexivity. Qed.

Lemma reaches_step l l1 l2 : step l = Some l1 -> reaches l1 l2 -> reaches l l2.
Proof.
  intros Hstep [k Hk]. exists (S k). intros more.
  cbn [Nat.add run]. rewrite Hstep. apply Hk.
Qed.

Lemma reaches_run l l' : reaches l l' -> exists turns, run turns l = l'.
Proof.
  intros [k Hk]. exists k. specialize (Hk 0%nat).
  now rewrite Nat.add_0_r in Hk.
Qed.

(** A turn of the loop on a call that is due at [due], not before the
    clock: the clock moves to [due] and the call resumes. *)
Lemma step_alone u tk t s due :
  ready tk = Some due -> clock t <= due ->
  step (alone u tk t s)
  = let '(c, w) := resume {| url := u; task := tk |}
                     {| timing := elapse (due - clock t) t; server := s |} in
    Some {| net := w; calls := [c] |}.
Proof.
  intros Hready Hdue. unfold step, alone.
  cbn [calls net earliest task]. rewrite Hready.
  unfold advance_to. cbn [timing server].
  rewrite Z.max_r by lia.
  cbn [resume_first task]. rewrite Hready.
  replace (due <=? clock (elapse (due - clock t) t)) with true
    by (symmetry; apply Z.leb_le; cbn [clock elapse]; lia).
  destruct (resume _ _) as [c w]. reflexivity.
Qed.

Lemma resume_entering u tk due w :
  tk = Called due \/ tk = BackingOff due ->
  resume {| url := u; task := tk |} w
  = (let '(k, w') := enter u w in ({| url := u; task := k |}, w')).
Proof. intros [-> | ->]; reflexivity. Qed.

(** The first turns of a call that starts (or starts over) at [due]: it
    passes the throttle, sleeping if it must, stamps [lastRequestTime] and
    dispatches. *)
Lemma enter_phase u tk t0 s due l2 :
  0 <= timerLag t0 -> clock t0 <= due ->
  tk = Called due \/ tk = BackingOff due ->
  let t := stamp_and_dispatch u (throttle (elapse (due - clock t0) t0)) in
  reaches (match s with
           | [] => alone u (InFlight (clock t) None) t []
           | x :: rest =>
               alone u (InFlight (clock t + latency x) (Some (respond x u)))
                 t rest
           end) l2 ->
  reaches (alone u tk t0 s) l2.
Proof.
  intros Hlag Hdue Htk t Hrest.
  assert (Hready : ready tk = Some due) by (destruct Htk; subst; reflexivity).
  set (ta := elapse (due - clock t0) t0) in *.
  assert (Hdispatch : forall tb, tb = throttle ta ->
            dispatch u {| timing := tb; server := s |}
            = match s with
              | [] => (InFlight (clock t) None,
                       {| timing := t; server := [] |})
              | x :: rest =>
                  (InFlight (clock t + latency x) (Some (respond x u)),
                   {| timing := t; server := rest |})
              end).
  { intros tb ->. unfold dispatch. cbn [timing server]. fold t.
    destruct s; reflexivity. }
  pose proof (step_alone u tk t0 s due Hready Hdue) as Hstep. fold ta in Hstep.
  rewrite (resume_entering u tk due _ Htk) in Hstep.
  unfold enter in Hstep. cbn [timing] in Hstep.
  destruct (clock ta - lastRequestTime ta <? REQUEST_DELAY) eqn:Hthr.
  - (* the call sleeps first *)
    cbn beta iota in Hstep.
    set (wake := clock ta + (REQUEST_DELAY - (clock ta - lastRequestTime ta))
                 + timerLag ta) in *.
    eapply reaches_step; [exact Hstep|].
    fold (alone u (Throttled wake) ta s).
    assert (Hlag' : 0 <= timerLag ta) by exact Hlag.
    assert (Hwake : clock ta <= wake).
    { apply Z.ltb_lt in Hthr. subst wake. lia. }
    eapply reaches_step; [|exact Hrest].
    rewrite (step_alone u (Throttled wake) ta s wake eq_refl Hwake).
    unfold resume. cbn [task url].
    rewrite (Hdispatch (elapse (wake - clock ta) ta)).
    + destruct s; reflexivity.
    + unfold throttle. rewrite Hthr.
      apply Timing_eq; subst wake;
        cbn [clock lastRequestTime dispatches timerLag elapse setTimeout];
        try reflexivity; lia.
  - (* no sleep: the request goes out in the same turn *)
    eapply reaches_step; [|exact Hrest].
    rewrite Hstep, (Hdispatch ta).
    + destruct s; reflexivity.
    + unfold throttle. rewrite Hthr. reflexivity.
Qed.

(** One call alone in the event loop ends as [rateLimitedFetch_on] says:
    with the same result, clock, [lastRequestTime] and dispatches, and the
    same exchanges left. *)
Lemma alone_refines u :
  forall s t0 tk due,
    0 <= timerLag t0 ->
    Forall (fun x => 0 <= latency x) s ->
    clock t0 <= due ->
    tk = Called due \/ tk = BackingOff due ->
    let out := rateLimitedFetch_on s u (elapse (due - clock t0) t0) in
    reaches (alone u tk t0 s)
      (alone u (Settled (fst out)) (fst (snd out)) (snd (snd out))).
Proof.
  induction s as [|x rest IH]; intros t0 tk due Hlag Hlat Hdue Htk out;
    apply (enter_phase u tk t0 _ due _ Hlag Hdue Htk);
    set (t := stamp_and_dispatch u (throttle (elapse (due - clock t0) t0)))
      in *.
  - (* the server is gone: the dispatched fetch rejects *)
    eapply reaches_step; [|apply reaches_refl].
    rewrite (step_alone u (InFlight (clock t) None) t [] (clock t) eq_refl)
      by lia.
    unfold resume. cbn [task url settle]. subst out.
    cbn [rateLimitedFetch_on fst snd].
    fold t. unfold alone. do 3 f_equal.
    apply Timing_eq; cbn [clock lastRequestTime dispatches timerLag elapse];
      try reflexivity; lia.
  - inversion Hlat as [|? ? Hx Hrest]; subst.
    assert (Hlagt : timerLag t = timerLag t0).
    { subst t. cbn [timerLag stamp_and_dispatch].
      now destruct (throttle_frame (elapse (due - clock t0) t0))
        as (_ & _ & ->). }
    set (t3 := elapse (latency x) t).
    assert (Hstep : step (alone u (InFlight (clock t + latency x)
                                     (Some (respond x u))) t rest)
                    = (let '(k, w) := settle (Some (respond x u))
                                        {| timing := t3; server := rest |} in
                       Some {| net := w;
                               calls := [{| url := u; task := k |}] |})).
    { rewrite (step_alone u (InFlight (clock t + latency x)
                              (Some (respond x u))) t rest
                 (clock t + latency x) eq_refl) by lia.
      unfold resume. cbn [task url].
      replace (clock t + latency x - clock t) with (latency x) by lia.
      fold t3. destruct (settle _ _). reflexivity. }
    subst out. cbn [rateLimitedFetch_on]. fold t. fold t3.
    unfold settle in Hstep. cbn [timing] in Hstep.
    destruct (negb (ok (respond x u))).
    + destruct (status (respond x u) =? 429).
      * eapply reaches_step; [exact Hstep|].
        fold (alone u (BackingOff (clock t3 + 1000 + timerLag t3)) t3 rest).
        assert (H3 : 0 <= timerLag t3) by (cbn [t3 timerLag elapse]; lia).
        pose proof (IH t3 (BackingOff (clock t3 + 1000 + timerLag t3))
                      (clock t3 + 1000 + timerLag t3) H3 Hrest
                      ltac:(lia) (or_intror eq_refl)) as Hind.
        cbv zeta in Hind.
        replace (elapse (clock t3 + 1000 + timerLag t3 - clock t3) t3)
          with (setTimeout 1000 t3) in Hind; [exact Hind|].
        apply Timing_eq; cbn [clock lastRequestTime dispatches timerLag
                                elapse setTimeout]; try reflexivity; lia.
      * eapply reaches_step; [exact Hstep | apply reaches_refl].
    + eapply reaches_step; [exact Hstep | apply reaches_refl].
Qed.

(** A call made at the current time, alone in the loop, settles after some
    turns exactly as the sequential [rateLimitedFetch] does. *)
Theorem one_call_alone_is_rateLimitedFetch u w :
  0 <= timerLag (timing w) ->
  Forall (fun x => 0 <= latency x) (server w) ->
  exists turns,
    run turns {| net := w;
                 calls := [{| url := u;
                              task := Called (clock (timing w)) |}] |}
    = {| net := snd (rateLimitedFetch u w);
         calls := [{| url := u; task := Settled (fst (rateLimitedFetch u w)) |}] |}.
Proof.
  intros Hlag Hlat. apply reaches_run.
  pose proof (alone_refines u (server w) (timing w) _ (clock (timing w))
                Hlag Hlat (Z.le_refl _) (or_introl eq_refl)) as H.
  cbv zeta in H.
  replace (elapse (clock (timing w) - clock (timing w)) (timing w))
    with (timing w) in H
    by (apply Timing_eq; cbn [clock lastRequestTime dispatches timerLag elapse];
        try reflexivity; lia).
  unfold rateLimitedFetch.
  destruct (rateLimitedFetch_on (server w) u (timing w)) as [r [t s]].
  destruct w as [tw sw]. exact H.
Qed.

(** One call that is rate limited once. *)
Lemma one_call_alone_is_rateLimitedFetch_witness :
  exists turns,
    run turns
      {| net := FetchSpec.facing [FetchSpec.too_many_requests; FetchSpec.no_cards];
         calls := [{| url := FetchSpec.search_url "bolt" no_options;
                      task := Called 5000 |}] |}
    = {| net := snd (rateLimitedFetch (FetchSpec.search_url "bolt" no_options)
                       (FetchSpec.facing [FetchSpec.too_many_requests;
                                          FetchSpec.no_cards]));
         calls := [{| url := FetchSpec.search_url "bolt" no_options;
                      task := Settled
                        (fst (rateLimitedFetch
                                (FetchSpec.search_url "bolt" no_options)
                                (FetchSpec.facing [FetchSpec.too_many_requests;
                                                   FetchSpec.no_cards]))) |}] |}.
Proof.
  apply (one_call_alone_is_rateLimitedFetch
           (FetchSpec.search_url "bolt" no_options)
           (FetchSpec.facing [FetchSpec.too_many_requests; FetchSpec.no_cards])).
  - simpl. lia.
  - repeat constructor; simpl; lia.
Defined.

End AloneInTheLoop.

Section FetchClientClaims.
Import Scryfall FetchSpec.

(** C1 (the code departs from the claim).  A server that answers 429 twice
    and then 200: the claim has the second 429 propagate as a failure after
    one retry; the client instead retries a second time, a further 1000ms
    later, and returns the 200 response, having dispatched three requests. *)
Theorem rateLimitedFetch_second_429_is_retried :
  let out := rateLimitedFetch (search_url "bolt" no_options)
               (facing [too_many_requests; too_many_requests; no_cards]) in
  fst out = Ok {| status := 200; statusText := "OK";
                  body := Some (PList empty_result) |}
  /\ map fst (dispatches (timing (snd out))) = [7100; 6050; 5000].
Proof. vm_compute. split; reflexivity. Qed.

(** C9 (the code departs from the claim).  Three calls made in the same
    turn of the event loop: the first is dispatched at once, the other two
    both read the same [lastRequestTime], sleep the same 100ms and are
    dispatched at the same instant, 0ms apart. *)
Theorem overlapping_calls_dispatch_together :
  let done := EventLoop.run 8 three_calls_at_once in
  EventLoop.settled done = true
  /\ EventLoop.dispatch_times done = [5000; 5100; 5100]
  /\ spaced (rev (EventLoop.dispatch_times done)) = false.
Proof. vm_compute. repeat split; reflexivity. Qed.

(** C3 (the code departs from the claim).  The API reports that a search
    found nothing with the error object [not_found] under status 404.
    [rateLimitedFetch] throws on the status before [searchCards] reads the
    body, so the branch of the source marked ['No cards found, return
    empty result'] is never reached for it: the search throws
    ['Scryfall API error: 404 Not Found'] where the claim has it return the
    empty result and never throw.  The same error object under status 200
    does reach the branch and gives the empty result. *)
Theorem searchCards_not_found_behind_404_throws :
  let w := facing [answer 404 "Not Found" (Some found_nothing)] in
  fst (searchCards "zzzz" no_options w)
  = Throw (Error "Scryfall API error: 404 Not Found")
  /\ fst (searchCards "zzzz" no_options w) <> Ok empty_result
  /\ fst (searchCards "zzzz" no_options
            (facing [answer 200 "OK" (Some found_nothing)]))
     = Ok empty_result.
Proof. vm_compute. repeat split; try reflexivity. discriminate. Qed.

(** What [searchCards] does with an error object that reaches it, which
    takes a response of status 2xx: with the code [not_found] the search
    returns the empty result, zero total and no further page, and does not
    throw; with any other code it throws the [details] of the error object
    when there are any, and ['Unknown Scryfall error'] otherwise. *)
Lemma searchCards_api_error query options w response w' code details :
  rateLimitedFetch (search_url query options) w = (Ok response, w') ->
  body response = Some (PError code details) ->
  ok response = true
  /\ (code = Some "not_found" ->
      searchCards query options w
      = (Ok {| total_cards := 0; has_more := false; data := [] |}, w'))
  /\ (code <> Some "not_found" ->
      forall message, details = Some message -> message <> EmptyString ->
      searchCards query options w = (Throw (Error message), w'))
  /\ (code <> Some "not_found" ->
      truthy details = false ->
      searchCards query options w
      = (Throw (Error "Unknown Scryfall error"), w')).
Proof.
  intros Hfetch Hbody.
  assert (Hok : ok response = true).
  { unfold rateLimitedFetch in Hfetch.
    destruct (rateLimitedFetch_on (server w) (search_url query options) (timing w))
      as [r [t s]] eqn:E.
    injection Hfetch as -> _. eapply rateLimitedFetch_on_Ok, E. }
  split; [exact Hok|].
  unfold searchCards. fold (search_url query options). rewrite Hfetch.
  cbn [bindR try_catch]. unfold decode_search. rewrite Hbody.
  repeat split.
  - intros ->. reflexivity.
  - intros Hcode message -> Hmsg.
    assert (is_code code "not_found" = false) as ->.
    { destruct code as [c|]; [|reflexivity]. simpl.
      apply String.eqb_neq. congruence. }
    unfold or_string, truthy_string.
    apply String.eqb_neq in Hmsg. rewrite Hmsg. reflexivity.
  - intros Hcode Hd.
    assert (is_code code "not_found" = false) as ->.
    { destruct code as [c|]; [|reflexivity]. simpl.
      apply String.eqb_neq. congruence. }
    unfold or_string. destruct details as [d|]; [|reflexivity].
    simpl in Hd. rewrite Hd. reflexivity.
Qed.

Lemma when_string_falsy o f : truthy o = false -> when_string o f = [].
Proof.
  unfold when_string, truthy. destruct o as [s|]; [|reflexivity].
  intros ->. reflexivity.
Qed.

Lemma when_list_empty o f : nonempty_list o = None -> when_list o f = [].
Proof. unfold when_list. intros ->. reflexivity. Qed.

Lemma when_number_absent o f : o = None -> when_number o f = [].
Proof. intros ->. reflexivity. Qed.

(** C8.  A filter object in which only [sets] is non-empty, with the N
    codes [codes], compiles to one query part, and so to a query string
    that is exactly one parenthesised clause: the N terms [s:"code"], in
    order, joined by [" OR "].  That string is the [q] parameter of the
    request [advancedSearch] sends. *)
Theorem advancedSearch_only_sets filters codes :
  only_sets filters ->
  sets filters = Some codes ->
  codes <> [] ->
  let terms := map (fun set => "s:" ++ dquote ++ set ++ dquote) codes in
  List.length terms = List.length codes
  /\ queryParts filters = ["(" ++ join " OR " terms ++ ")"]
  /\ advancedSearch_query filters = "(" ++ join " OR " terms ++ ")"
  /\ forall options w, exists time request earlier,
       dispatches (timing (snd (advancedSearch filters options w)))
       = (time, request) :: earlier
       /\ Js.get "q" (params request) = Some ("(" ++ join " OR " terms ++ ")").
Proof.
  intros (Hname & Hcol & Hid & Hty & Htext & Hm1 & Hm2 & Hp1 & Hp2
          & Ht1 & Ht2 & Hrar & Hfmt) Hsets Hne terms.
  split; [apply length_map|].
  assert (Hf : match format filters with
               | Some f =>
                   if truthy_string f
                   then if is_true (legal filters) then ["f:" ++ f]
                        else if is_true (banned filters) then ["banned:" ++ f]
                        else []
                   else []
               | None => []
               end = (@nil string)).
  { unfold truthy in Hfmt. destruct (format filters) as [f|]; [|reflexivity].
    rewrite Hfmt. reflexivity. }
  assert (Hparts : queryParts filters = ["(" ++ join " OR " terms ++ ")"]).
  { unfold queryParts.
    rewrite (when_string_falsy _ _ Hname), (when_string_falsy _ _ Htext).
    rewrite (when_list_empty _ _ Hcol), (when_list_empty _ _ Hid),
      (when_list_empty _ _ Hty), (when_list_empty _ _ Hrar).
    rewrite !when_number_absent by assumption.
    rewrite Hsets, Hf.
    destruct codes as [|c cs]; [congruence | reflexivity]. }
  assert (Hquery : advancedSearch_query filters
                   = "(" ++ join " OR " terms ++ ")")
    by (unfold advancedSearch_query; rewrite Hparts; reflexivity).
  split; [exact Hparts|]. split; [exact Hquery|].
  intros options w. unfold advancedSearch, searchCards, rateLimitedFetch.
  rewrite Hquery.
  match goal with |- context [rateLimitedFetch_on ?s ?u ?t] =>
    destruct (rateLimitedFetch_on_latest_dispatch s u t)
      as (time & earlier & Hlog);
    destruct (rateLimitedFetch_on s u t) as [r [t' s']]
  end.
  cbn [fst snd] in Hlog. cbn [snd timing].
  eexists time, _, earlier. split; [exact Hlog | reflexivity].
Qed.

(** Three set codes compile to one clause of three terms. *)
Lemma advancedSearch_only_sets_witness :
  advancedSearch_query (with_sets ["lea"; "leb"; "2ed"])
  = "(s:" ++ dquote ++ "lea" ++ dquote ++ " OR s:" ++ dquote ++ "leb" ++ dquote
    ++ " OR s:" ++ dquote ++ "2ed" ++ dquote ++ ")".
Proof.
  refine (proj1 (proj2 (proj2 (advancedSearch_only_sets
                                 (with_sets ["lea"; "leb"; "2ed"])
                                 ["lea"; "leb"; "2ed"] _ eq_refl _)))).
  - unfold only_sets. simpl. repeat split; reflexivity.
  - discriminate.
Defined.

(** One caller at a time.  Searches made one after the other, each awaited
    before the next, leave every two consecutive dispatches (retries
    included) at least [REQUEST_DELAY] apart, whatever the server answers
    and however long it takes. *)
Theorem search_in_turn_paced queries :
  forall w, paced (timing w) -> paced (timing (search_in_turn queries w)).
Proof.
  induction queries as [|query rest IH]; intros w Hw; [exact Hw|].
  cbn [search_in_turn]. apply IH.
  unfold searchCards.
  pose proof (rateLimitedFetch_paced (search_url query no_options) w Hw) as P.
  unfold search_url in P.
  destruct (rateLimitedFetch _ w) as [r w1]. exact P.
Qed.

Lemma paced_fresh_timing : paced fresh_timing.
Proof.
  unfold paced, fresh_timing; simpl. repeat split; [lia | discriminate].
Qed.

(** Three searches in turn, the second of them rate limited once. *)
Lemma search_in_turn_paced_witness :
  paced (timing (search_in_turn ["bolt"; "shock"; "zzzz"]
                   (facing [no_cards; too_many_requests; no_cards;
                            answer 200 "OK" (Some found_nothing)]))).
Proof.
  exact (search_in_turn_paced ["bolt"; "shock"; "zzzz"]
           (facing [no_cards; too_many_requests; no_cards;
                    answer 200 "OK" (Some found_nothing)])
           paced_fresh_timing).
Defined.

(** Five 429s in a row: six requests go out. *)
Lemma rateLimitedFetch_on_retries_every_429_witness :
  List.length
    (dispatches
       (fst (snd (rateLimitedFetch_on
                    (repeat too_many_requests 5 ++ [no_cards])
                    (search_url "bolt" no_options) fresh_timing))))
  = 6%nat.
Proof.
  exact (proj2 (rateLimitedFetch_on_retries_every_429 5 no_cards
                  (search_url "bolt" no_options) eq_refl fresh_timing)).
Defined.

End FetchClientClaims.

(** ** Lists with keys *)
Section ListFacts.
Context {A K : Type}.

Lemma filter_none (p : A -> bool) l :
  (forall y, In y l -> p y = false) -> filter p l = [].
Proof.
  induction l as [|a l IH]; intros H; [reflexivity|]. simpl.
  rewrite (H a (or_introl eq_refl)). apply IH.
  intros y Hy. apply H. now right.
Qed.

(** In a list without repeated keys, a test that accepts [x] and only
    elements with the key of [x] selects exactly [x]. *)
Lemma filter_NoDup_single (key : A -> K) (p : A -> bool) l x :
  NoDup (map key l) -> In x l -> p x = true ->
  (forall y, In y l -> p y = true -> key y = key x) ->
  filter p l = [x].
Proof.
  induction l as [|a l IH]; intros Hnd Hin Hpx Hkey; [contradiction|].
  simpl in Hnd. inversion Hnd as [|? ? Hnotin Hnd']; subst.
  assert (Hrest : forall y, In y l -> p y = true -> key y = key x)
    by (intros y Hy; apply Hkey; now right).
  destruct Hin as [-> | Hin].
  - simpl. rewrite Hpx. f_equal.
    apply filter_none.
    intros y Hy. destruct (p y) eqn:E; [exfalso | reflexivity].
    apply Hnotin. rewrite <- (Hrest y Hy E). now apply in_map.
  - simpl. destruct (p a) eqn:E.
    + exfalso. apply Hnotin.
      rewrite (Hkey a (or_introl eq_refl) E). now apply in_map.
    + now apply IH.
Qed.

Lemma filter_filter_subsumed (p q : A -> bool) l :
  (forall y, p y = true -> q y = true) ->
  filter p (filter q l) = filter p l.
Proof.
  intros H. induction l as [|a l IH]; [reflexivity|]. simpl.
  destruct (q a) eqn:Q; simpl.
  - now rewrite IH.
  - destruct (p a) eqn:P; [|exact IH].
    apply H in P. congruence.
Qed.

Lemma filter_map_stable (p : A -> bool) (f : A -> A) l :
  (forall y, p (f y) = p y) ->
  filter p (map f l) = map f (filter p l).
Proof.
  intros H. induction l as [|a l IH]; [reflexivity|]. simpl.
  rewrite H. destruct (p a); simpl; now rewrite IH.
Qed.

(** Replacing the one element with the key of [x]. *)
Lemma map_replace_NoDup (key : A -> K) (p : A -> bool) (f : A -> A)
    before x after :
  NoDup (map key (before ++ x :: after)) -> p x = true ->
  (forall y, p y = true -> key y = key x) ->
  map (fun y => if p y then f y else y) (before ++ x :: after)
  = (before ++ f x :: after)%list.
Proof.
  intros Hnd Hpx Hkey.
  assert (Hid : forall l, (forall y, In y l -> p y = false) ->
                          map (fun y => if p y then f y else y) l = l).
  { induction l as [|a l IH]; intros H; [reflexivity|]. simpl.
    rewrite (H a (or_introl eq_refl)). f_equal. apply IH.
    intros y Hy. apply H. now right. }
  rewrite map_app. simpl. rewrite Hpx.
  rewrite map_app in Hnd. simpl in Hnd.
  pose proof (NoDup_remove_2 _ _ _ Hnd) as Hnotin.
  rewrite !Hid; [reflexivity | |].
  - intros y Hy. destruct (p y) eqn:E; [exfalso | reflexivity].
    apply Hnotin, in_or_app. right. rewrite <- (Hkey y E). now apply in_map.
  - intros y Hy. destruct (p y) eqn:E; [exfalso | reflexivity].
    apply Hnotin, in_or_app. left. rewrite <- (Hkey y E). now apply in_map.
Qed.

End ListFacts.

Section CollectionAdd.
Import Database DbSpec CollectionAddRoute.

Lemma same_entry_key uid id condition foil r :
  same_entry uid id condition foil r = true
  <-> entry_key r = (uid, id, condition, foil).
Proof.
  unfold same_entry, entry_key.
  rewrite !andb_true_iff, !String.eqb_eq, Bool.eqb_true_iff.
  split.
  - intros [[[-> ->] ->] ->]. reflexivity.
  - intros H. injection H. auto.
Qed.

Lemma same_entry_user uid id condition foil r :
  same_entry uid id condition foil r = true ->
  String.eqb (cc_user_id r) uid = true.
Proof.
  unfold same_entry. rewrite !andb_true_iff. tauto.
Qed.

Lemma select_card_cached db id :
  well_formed db -> cached db id ->
  exists c, select_card no_faults db id = pg_ok c.
Proof.
  intros (Hcache & _) Hin. unfold cached in Hin.
  apply in_map_iff in Hin as (c & Hc & Hin).
  exists c. unfold select_card, request, no_faults.
  rewrite (filter_NoDup_single scryfall_id (has_id id) (cards_cache db) c);
    auto.
  - unfold has_id. now apply String.eqb_eq.
  - unfold has_id. intros y _ Hy. apply String.eqb_eq in Hy. congruence.
Qed.

Lemma select_card_missing faults db id :
  ~ cached db id -> pg_data (select_card faults db id) = None.
Proof.
  intros Hnot. unfold select_card, request.
  destruct (faults (SelectCard id)); [reflexivity|].
  rewrite filter_none; [reflexivity|].
  intros y Hy. unfold has_id. apply String.eqb_neq. intros E.
  apply Hnot. unfold cached. rewrite <- E. now apply in_map.
Qed.

Lemma select_entry_existing db uid id condition foil existing :
  well_formed db ->
  In existing (collection_cards db) ->
  same_entry uid id condition foil existing = true ->
  select_entry no_faults db uid id condition foil = pg_ok existing.
Proof.
  intros (_ & _ & Hkeys & _) Hin Hsame.
  unfold select_entry, request, no_faults, row_level_auth.
  rewrite filter_filter_subsumed by apply same_entry_user.
  rewrite (filter_NoDup_single entry_key _ (collection_cards db) existing);
    auto.
  intros y _ Hy. apply same_entry_key in Hy, Hsame. congruence.
Qed.

Lemma select_entry_none faults db uid id condition foil :
  (forall r, In r (collection_cards db) ->
             same_entry uid id condition foil r = false) ->
  pg_data (select_entry faults db uid id condition foil) = None.
Proof.
  intros Hnone. unfold select_entry, request, row_level_auth.
  destruct (faults _); [reflexivity|].
  rewrite filter_filter_subsumed by apply same_entry_user.
  rewrite filter_none by assumption. reflexivity.
Qed.

Lemma targets_set_quantity_notes uid id quantity notes r :
  targets uid id (set_quantity_notes quantity notes r) = targets uid id r.
Proof. reflexivity. Qed.

Lemma update_entry_existing db uid existing quantity notes :
  well_formed db ->
  In existing (collection_cards db) ->
  cc_user_id existing = uid ->
  let db' :=
    with_collection db
      (map (fun r => if targets uid (cc_id existing) r
                     then set_quantity_notes quantity notes r else r)
         (collection_cards db))
      (next_id db) in
  update_entry no_faults db uid (cc_id existing) quantity notes
  = (pg_ok (join_card db' (set_quantity_notes quantity notes existing)), db').
Proof.
  intros (_ & Hids & _ & _) Hin Huser db'.
  unfold update_entry, no_faults.
  assert (Htarget : targets uid (cc_id existing) existing = true).
  { unfold targets. rewrite Huser, String.eqb_refl, Nat.eqb_refl. reflexivity. }
  rewrite filter_map_stable.
  2:{ intros y. destruct (targets uid (cc_id existing) y) eqn:E;
        [rewrite targets_set_quantity_notes|]; exact E. }
  rewrite (filter_NoDup_single cc_id _ (collection_cards db) existing); auto.
  - simpl. rewrite Htarget. reflexivity.
  - intros y _ Hy. unfold targets in Hy.
    apply andb_true_iff in Hy as [_ Hy]. now apply Nat.eqb_eq in Hy.
Qed.

(** The rows after a merge: the rows before it, with [existing] replaced. *)
Lemma merge_rows db uid existing quantity notes :
  well_formed db ->
  In existing (collection_cards db) ->
  cc_user_id existing = uid ->
  exists before after,
    collection_cards db = (before ++ existing :: after)%list
    /\ map (fun r => if targets uid (cc_id existing) r
                     then set_quantity_notes quantity notes r else r)
         (collection_cards db)
       = (before ++ set_quantity_notes quantity notes existing :: after)%list.
Proof.
  intros (_ & Hids & _ & _) Hin Huser.
  destruct (in_split _ _ Hin) as (before & after & Hrows).
  exists before, after. split; [exact Hrows|].
  rewrite Hrows in Hids |- *.
  apply (map_replace_NoDup cc_id); auto.
  - unfold targets. rewrite Huser, String.eqb_refl, Nat.eqb_refl. reflexivity.
  - intros y Hy. unfold targets in Hy.
    apply andb_true_iff in Hy as [_ Hy]. now apply Nat.eqb_eq in Hy.
Qed.

(** What [POST] does when the entry exists. *)
Lemma POST_merges body auth db v user existing :
  well_formed db ->
  Schemas.AddToCollectionSchema body = Ok v ->
  authenticated auth = Some user ->
  cached db (Schemas.add_scryfall_id v) ->
  In existing (collection_cards db) ->
  same_entry (user_id user) (Schemas.add_scryfall_id v)
    (Schemas.add_condition v) (Schemas.add_foil v) existing = true ->
  exists before after db',
    POST (Some body) auth no_faults db
    = (Json 200 (Some (join_card db' (merged existing v))), db')
    /\ collection_cards db = (before ++ existing :: after)%list
    /\ collection_cards db' = (before ++ merged existing v :: after)%list
    /\ cards_cache db' = cards_cache db.
Proof.
  intros Hwf Hparse Hauth Hcached Hin Hsame.
  pose proof (same_entry_user _ _ _ _ _ Hsame) as Huser.
  apply String.eqb_eq in Huser.
  destruct (merge_rows db (user_id user) existing
              (cc_quantity existing + Schemas.add_quantity v)
              (or_option (Schemas.add_notes v) (cc_notes existing))
              Hwf Hin Huser) as (before & after & Hrows & Hmap).
  exists before, after. eexists.
  unfold POST. rewrite Hparse, Hauth. unfold add_to_collection.
  destruct (select_card_cached db _ Hwf Hcached) as (c & ->).
  cbn [pg_error pg_data pg_ok].
  rewrite (select_entry_existing db _ _ _ _ existing Hwf Hin Hsame).
  cbn [pg_error pg_data pg_ok].
  rewrite (update_entry_existing db _ existing _ _ Hwf Hin Huser).
  cbn [pg_error pg_data pg_ok].
  split; [reflexivity|].
  split; [exact Hrows|].
  split; [exact Hmap | reflexivity].
Qed.

(** What [POST] does when the user has no such entry. *)
Lemma POST_inserts body auth db v user :
  well_formed db ->
  Schemas.AddToCollectionSchema body = Ok v ->
  authenticated auth = Some user ->
  cached db (Schemas.add_scryfall_id v) ->
  (forall r, In r (collection_cards db) ->
     same_entry (user_id user) (Schemas.add_scryfall_id v)
       (Schemas.add_condition v) (Schemas.add_foil v) r = false) ->
  exists db',
    POST (Some body) auth no_faults db
    = (Json 200 (Some (join_card db' (created db (user_id user) v))), db')
    /\ collection_cards db'
       = (collection_cards db ++ [created db (user_id user) v])%list
    /\ cards_cache db' = cards_cache db.
Proof.
  intros Hwf Hparse Hauth Hcached Hnone.
  eexists.
  unfold POST. rewrite Hparse, Hauth. unfold add_to_collection.
  destruct (select_card_cached db _ Hwf Hcached) as (c & ->).
  cbn [pg_error pg_data pg_ok].
  rewrite (select_entry_none no_faults db _ _ _ _ Hnone).
  unfold insert_entry, no_faults, violates_unique.
  assert (existsb (same_entry (user_id user) (Schemas.add_scryfall_id v)
                     (Schemas.add_condition v) (Schemas.add_foil v))
            (collection_cards db) = false) as ->.
  { destruct (existsb _ _) eqn:E; [|reflexivity].
    apply existsb_exists in E as (r & Hr & E).
    rewrite (Hnone r Hr) in E. discriminate. }
  cbn [pg_error pg_data pg_ok].
  split; [reflexivity|]. split; reflexivity.
Qed.

End CollectionAdd.

(** ** The keys of the tables are kept by every route *)
Section KeysKept.
Import Database DbSpec.

Lemma well_formed_empty now :
  well_formed {| cards_cache := []; collection_cards := [];
                 next_id := 0; db_now := now |}.
Proof. repeat split; constructor. Qed.

Lemma map_conditional_same {A B} (key : A -> B) (p : A -> bool) (f : A -> A) l :
  (forall y, key (f y) = key y) ->
  map key (map (fun y => if p y then f y else y) l) = map key l.
Proof.
  intros H. rewrite map_map. apply map_ext. intros y.
  destruct (p y); [apply H | reflexivity].
Qed.

Lemma update_entry_well_formed faults db uid id quantity notes :
  well_formed db ->
  well_formed (snd (update_entry faults db uid id quantity notes)).
Proof.
  intros Hwf. unfold update_entry.
  destruct (faults (UpdateEntry id)); [exact Hwf|].
  match goal with |- context [match ?l with _ => _ end] =>
    destruct l as [|r [|r' rest]] end; try exact Hwf.
  destruct Hwf as (Hcache & Hids & Hkeys & Hnext).
  unfold well_formed; cbn [snd cards_cache collection_cards next_id
                            with_collection].
  split; [exact Hcache|]. split; [|split].
  - now rewrite map_conditional_same.
  - now rewrite map_conditional_same.
  - apply Forall_map. apply Forall_forall. intros y Hy.
    rewrite Forall_forall in Hnext. specialize (Hnext y Hy).
    now destruct (targets uid id y).
Qed.

Lemma insert_entry_well_formed faults db uid id quantity condition foil notes :
  well_formed db ->
  well_formed
    (snd (insert_entry faults db uid id quantity condition foil notes)).
Proof.
  intros Hwf. unfold insert_entry.
  destruct (faults _); [exact Hwf|].
  destruct (violates_unique _ _ _ _ _) eqn:Hv; [exact Hwf|].
  destruct Hwf as (Hcache & Hids & Hkeys & Hnext).
  unfold well_formed; cbn [snd cards_cache collection_cards next_id
                            with_collection].
  rewrite !map_app. cbn [map cc_id entry_key cc_user_id cc_scryfall_id
                           cc_condition cc_foil].
  rewrite Forall_forall in Hnext.
  split; [exact Hcache|]. split; [|split].
  - apply NoDup_app; [exact Hids | repeat constructor; intros [] |].
    intros a Ha [<- | []].
    apply in_map_iff in Ha as (y & Hy & Hin).
    specialize (Hnext y Hin). lia.
  - apply NoDup_app; [exact Hkeys | repeat constructor; intros [] |].
    intros a Ha [<- | []].
    apply in_map_iff in Ha as (y & Hy & Hin).
    apply same_entry_key in Hy.
    unfold violates_unique in Hv.
    assert (existsb (same_entry uid id condition foil) (collection_cards db)
            = true) as E by (apply existsb_exists; eauto).
    congruence.
  - apply Forall_app. split.
    + apply Forall_forall. intros y Hy. specialize (Hnext y Hy). lia.
    + repeat constructor.
Qed.

(** The keys of the tables survive collection add, whatever the request,
    the session and the faults: the ids by the counter they are drawn
    from, the key of an entry by the uniqueness constraint of the table,
    which an insert runs into when the lookup of the existing entry
    failed. *)
Lemma POST_well_formed body auth faults db :
  well_formed db ->
  well_formed (snd (CollectionAddRoute.POST body auth faults db)).
Proof.
  intros Hwf. unfold CollectionAddRoute.POST.
  destruct body as [body|]; [|exact Hwf].
  destruct (Schemas.AddToCollectionSchema body) as [v|e]; [|exact Hwf].
  destruct (authenticated auth) as [user|]; [|exact Hwf].
  assert (H : well_formed
                (snd (CollectionAddRoute.add_to_collection faults user v db))).
  { unfold CollectionAddRoute.add_to_collection.
    destruct (pg_error (select_card faults db _)); [exact Hwf|].
    destruct (pg_data (select_card faults db _)); [|exact Hwf].
    destruct (pg_data (select_entry faults db _ _ _ _)) as [existing|].
    - pose proof (update_entry_well_formed faults db (user_id user)
                    (cc_id existing)
                    (cc_quantity existing + Schemas.add_quantity v)
                    (or_option (Schemas.add_notes v) (cc_notes existing)) Hwf)
        as Hu.
      destruct (update_entry _ _ _ _ _ _) as [updated db1].
      now destruct (pg_error updated).
    - pose proof (insert_entry_well_formed faults db (user_id user)
                    (Schemas.add_scryfall_id v) (Schemas.add_quantity v)
                    (Schemas.add_condition v) (Schemas.add_foil v)
                    (Schemas.add_notes v) Hwf) as Hi.
      destruct (insert_entry _ _ _ _ _ _ _ _) as [inserted db1].
      now destruct (pg_error inserted). }
  destruct (CollectionAddRoute.add_to_collection faults user v db)
    as [[response|e] db1]; exact H.
Qed.

Lemma upsert_row_keys row cache :
  NoDup (map scryfall_id cache) ->
  NoDup (map scryfall_id (upsert_row row cache)).
Proof.
  intros Hnd. unfold upsert_row.
  destruct (existsb (has_id (scryfall_id row)) cache) eqn:E.
  - replace (map scryfall_id
               (map (fun c => if has_id (scryfall_id row) c then row else c)
                  cache))
      with (map scryfall_id cache); [exact Hnd|].
    rewrite map_map. apply map_ext. intros c. unfold has_id.
    destruct (String.eqb_spec (scryfall_id c) (scryfall_id row)) as [->|];
      reflexivity.
  - rewrite map_app. apply NoDup_app;
      [exact Hnd | repeat constructor; intros [] |].
    intros a Ha [<- | []].
    apply in_map_iff in Ha as (c & Hc & Hin).
    assert (existsb (has_id (scryfall_id row)) cache = true) as E'.
    { apply existsb_exists. exists c. split; [exact Hin|].
      unfold has_id. now apply String.eqb_eq. }
    congruence.
Qed.

Lemma insertCardToCache_well_formed faults db card :
  well_formed db -> well_formed (snd (insertCardToCache faults db card)).
Proof.
  intros Hwf. unfold insertCardToCache.
  destruct (faults _); [exact Hwf|].
  destruct Hwf as (Hcache & Hrest). split; [|exact Hrest].
  cbn [snd cards_cache with_cache]. now apply upsert_row_keys.
Qed.

Lemma enhance_all_well_formed faults uid now cards :
  forall db,
    well_formed db ->
    well_formed (snd (CardsSearchRoute.enhance_all faults uid now cards db)).
Proof.
  induction cards as [|card rest IH]; intros db Hwf; [exact Hwf|].
  cbn [CardsSearchRoute.enhance_all].
  assert (H1 : well_formed
                 (snd (CardsSearchRoute.enhance faults uid now card db))).
  { unfold CardsSearchRoute.enhance, CardsSearchRoute.enrich.
    destruct (getCardFromCache faults db (sc_id card)) as [c|e].
    - exact Hwf.
    - pose proof (insertCardToCache_well_formed faults db card Hwf) as Hi.
      destruct (insertCardToCache faults db card) as [[c|e'] db1]; exact Hi. }
  destruct (CardsSearchRoute.enhance faults uid now card db) as [result db1].
  specialize (IH db1 H1).
  destruct (CardsSearchRoute.enhance_all faults uid now rest db1)
    as [results db2].
  exact IH.
Qed.

(** Whatever the request and the faults, the cards search keeps the keys
    of the tables. *)
Lemma GET_well_formed searchParams env w db :
  well_formed db ->
  well_formed (snd (snd (CardsSearchRoute.GET searchParams env w db))).
Proof.
  intros Hwf. unfold CardsSearchRoute.GET.
  destruct (Schemas.SearchCardsSchema _) as [v|e]; [|exact Hwf].
  destruct (authenticated _) as [user|]; [|exact Hwf].
  destruct (Scryfall.searchCards _ _ _) as [[searchResult|e] w']; [|exact Hwf].
  destruct (CardsSearchRoute.service_key env); [|exact Hwf].
  pose proof (enhance_all_well_formed (CardsSearchRoute.faults env)
                (user_id user) (CardsSearchRoute.now env)
                (data searchResult) db Hwf) as H.
  destruct (CardsSearchRoute.enhance_all _ _ _ _ _) as [results db'].
  exact H.
Qed.

End KeysKept.

Section CollectionAddClaims.
Import Database DbSpec CollectionAddRoute.

Lemma well_formed_alices_db : well_formed alices_db.
Proof.
  unfold well_formed, alices_db, db_with; simpl.
  repeat split; repeat constructor; simpl; try tauto; lia.
Qed.

Lemma cached_bolt rows : cached (db_with rows) bolt_id.
Proof. left. reflexivity. Qed.

(** C2.  A validated add by a signed-in user for a cached card, on a
    database whose keys hold and whose requests go through.  If an entry
    with the same (user, card, condition, foil) exists, the response is 200,
    that row and no other is replaced by itself with quantity
    [existing.quantity + requested.quantity], and the table keeps its
    length: no row is created.  If the user has no entry with that
    (condition, foil) for the card, the response is 200 and the table is
    the old one followed by one new row carrying the requested values. *)
Theorem POST_merges_or_creates body auth db v user :
  well_formed db ->
  Schemas.AddToCollectionSchema body = Ok v ->
  authenticated auth = Some user ->
  cached db (Schemas.add_scryfall_id v) ->
  let key_of_request :=
    same_entry (user_id user) (Schemas.add_scryfall_id v)
      (Schemas.add_condition v) (Schemas.add_foil v) in
  let out := POST (Some body) auth no_faults db in
  let rows := collection_cards db in
  let rows' := collection_cards (snd out) in
  (forall existing,
     In existing rows -> key_of_request existing = true ->
     http_status (fst out) = 200
     /\ (exists before after updated,
           rows = (before ++ existing :: after)%list
           /\ rows' = (before ++ updated :: after)%list
           /\ cc_id updated = cc_id existing
           /\ cc_quantity updated
              = cc_quantity existing + Schemas.add_quantity v)
     /\ List.length rows' = List.length rows)
  /\ ((forall r, In r rows -> key_of_request r = false) ->
      http_status (fst out) = 200
      /\ (exists new,
            rows' = (rows ++ [new])%list
            /\ cc_user_id new = user_id user
            /\ cc_scryfall_id new = Schemas.add_scryfall_id v
            /\ cc_condition new = Schemas.add_condition v
            /\ cc_foil new = Schemas.add_foil v
            /\ cc_quantity new = Schemas.add_quantity v)).
Proof.
  intros Hwf Hparse Hauth Hcached key_of_request out rows rows'.
  split.
  - intros existing Hin Hsame.
    destruct (POST_merges body auth db v user existing
                Hwf Hparse Hauth Hcached Hin Hsame)
      as (before & after & db' & Hout & Hrows & Hrows' & _).
    subst out rows rows'. rewrite Hout. cbn [fst snd http_status].
    split; [reflexivity|]. split.
    + exists before, after, (merged existing v). now repeat split.
    + rewrite Hrows, Hrows', !length_app. reflexivity.
  - intros Hnone.
    destruct (POST_inserts body auth db v user
                Hwf Hparse Hauth Hcached Hnone) as (db' & Hout & Hrows' & _).
    subst out rows rows'. rewrite Hout. cbn [fst snd http_status].
    split; [reflexivity|].
    exists (created db (user_id user) v). now repeat split.
Qed.

(** Alice, who holds two non-foil bolts, adds three more (a merge) and
    adds a foil one (a new row). *)
Lemma POST_merges_or_creates_witness :
  http_status (fst (POST (Some (add_body 3 false Schemas.VUndefined))
                      (signed_in alice) no_faults alices_db)) = 200
  /\ http_status (fst (POST (Some (add_body 1 true Schemas.VUndefined))
                         (signed_in alice) no_faults alices_db)) = 200.
Proof.
  split.
  - refine (proj1 (proj1 (POST_merges_or_creates
              (add_body 3 false Schemas.VUndefined) (signed_in alice) alices_db
              (add_request 3 false None) alice
              well_formed_alices_db eq_refl eq_refl (cached_bolt _))
              (entry_of 1 "alice" 2 false (Some "signed")) _ eq_refl)).
    left. reflexivity.
  - refine (proj1 (proj2 (POST_merges_or_creates
              (add_body 1 true Schemas.VUndefined) (signed_in alice) alices_db
              (add_request 1 true None) alice
              well_formed_alices_db eq_refl eq_refl (cached_bolt _)) _)).
    intros r [<- | []]. reflexivity.
Defined.

(** C10, as the claim states it, fails: a duplicate add whose notes are
    provided as the empty string merges (the quantity goes from 2 to 3) and
    leaves the previous notes of the row in place. *)
Lemma POST_merge_keeps_notes_on_empty_string :
  let body := add_body 1 false (Schemas.VString EmptyString) in
  let out := POST (Some body) (signed_in alice) no_faults alices_db in
  Schemas.AddToCollectionSchema body = Ok (add_request 1 false (Some EmptyString))
  /\ map cc_quantity (collection_cards (snd out)) = [3]
  /\ map cc_notes (collection_cards (snd out)) = [Some "signed"]
  /\ map cc_notes (collection_cards (snd out)) <> [Some EmptyString].
Proof. vm_compute. repeat split; try reflexivity. discriminate. Qed.

(** C10, amended.  When a collection-add call merges into an existing
    entry, only the quantity and the notes of that row change: the quantity
    becomes [existing.quantity + requested.quantity]; the notes become the
    requested notes when these are provided and not the empty string, and
    stay what they were otherwise; the id, user, card, condition, foil and
    timestamps of the row, every other row and the card cache are
    unchanged. *)
Theorem POST_merge_frame body auth db v user existing :
  well_formed db ->
  Schemas.AddToCollectionSchema body = Ok v ->
  authenticated auth = Some user ->
  cached db (Schemas.add_scryfall_id v) ->
  In existing (collection_cards db) ->
  same_entry (user_id user) (Schemas.add_scryfall_id v)
    (Schemas.add_condition v) (Schemas.add_foil v) existing = true ->
  let out := POST (Some body) auth no_faults db in
  exists before after updated,
    collection_cards db = (before ++ existing :: after)%list
    /\ collection_cards (snd out) = (before ++ updated :: after)%list
    /\ cards_cache (snd out) = cards_cache db
    /\ cc_quantity updated = cc_quantity existing + Schemas.add_quantity v
    /\ (forall notes, Schemas.add_notes v = Some notes ->
                      notes <> EmptyString -> cc_notes updated = Some notes)
    /\ (Schemas.add_notes v = None \/ Schemas.add_notes v = Some EmptyString ->
        cc_notes updated = cc_notes existing)
    /\ cc_id updated = cc_id existing
    /\ cc_user_id updated = cc_user_id existing
    /\ cc_scryfall_id updated = cc_scryfall_id existing
    /\ cc_condition updated = cc_condition existing
    /\ cc_foil updated = cc_foil existing
    /\ cc_added_at updated = cc_added_at existing
    /\ cc_updated_at updated = cc_updated_at existing.
Proof.
  intros Hwf Hparse Hauth Hcached Hin Hsame out.
  destruct (POST_merges body auth db v user existing
              Hwf Hparse Hauth Hcached Hin Hsame)
    as (before & after & db' & Hout & Hrows & Hrows' & Hcache).
  subst out. rewrite Hout. cbn [snd].
  exists before, after, (merged existing v).
  split; [exact Hrows|]. split; [exact Hrows'|]. split; [exact Hcache|].
  split; [reflexivity|].
  split.
  { intros notes Hn Hne. unfold merged, set_quantity_notes; simpl.
    rewrite Hn. unfold or_option, truthy, truthy_string.
    apply String.eqb_neq in Hne. rewrite Hne. reflexivity. }
  split.
  { intros [Hn | Hn]; unfold merged, set_quantity_notes; simpl;
      rewrite Hn; reflexivity. }
  repeat split.
Qed.

(** Alice adds three bolts with a note to the two she holds. *)
Lemma POST_merge_frame_witness :
  exists before after updated,
    collection_cards alices_db
    = (before ++ entry_of 1 "alice" 2 false (Some "signed") :: after)%list
    /\ collection_cards
         (snd (POST (Some (add_body 3 false (Schemas.VString "played once")))
                 (signed_in alice) no_faults alices_db))
       = (before ++ updated :: after)%list
    /\ cc_quantity updated = 5.
Proof.
  destruct (POST_merge_frame
              (add_body 3 false (Schemas.VString "played once"))
              (signed_in alice) alices_db
              (add_request 3 false (Some "played once")) alice
              (entry_of 1 "alice" 2 false (Some "signed"))
              well_formed_alices_db eq_refl eq_refl (cached_bolt _)
              (or_introl eq_refl) eq_refl)
    as (before & after & updated & H1 & H2 & _ & H4 & _).
  exists before, after, updated. repeat split; assumption.
Defined.

End CollectionAddClaims.

(** ** The cache-and-enrich pipeline *)
Section Enrich.
Import Database CardsSearchRoute EnrichSpec.

Lemma enhance_all_length faults uid now cards :
  forall db,
    List.length (fst (enhance_all faults uid now cards db)) = List.length cards.
Proof.
  induction cards as [|card rest IH]; intros db; simpl; [reflexivity|].
  destruct (enhance faults uid now card db) as [result db1].
  specialize (IH db1).
  destruct (enhance_all faults uid now rest db1) as [results db2].
  simpl in *. now rewrite IH.
Qed.

(** The result at each position is the callback's result for the card at
    that position, on the database the earlier callbacks left. *)
Lemma enhance_all_nth faults uid now cards :
  forall db i card,
    nth_error cards i = Some card ->
    nth_error (fst (enhance_all faults uid now cards db)) i
    = Some (fst (enhance faults uid now card
                   (db_at faults uid now cards db i))).
Proof.
  unfold db_at.
  induction cards as [|c rest IH]; intros db i card Hnth.
  - destruct i; discriminate.
  - simpl.
    destruct (enhance faults uid now c db) as [result db1] eqn:E1.
    destruct i as [|i]; simpl in Hnth.
    + injection Hnth as <-.
      destruct (enhance_all faults uid now rest db1) as [results db2].
      simpl. rewrite E1. reflexivity.
    + specialize (IH db1 i card Hnth).
      simpl. rewrite E1.
      destruct (enhance_all faults uid now rest db1) as [results db2] eqn:E2.
      destruct (enhance_all faults uid now (firstn i rest) db1)
        as [results' db3] eqn:E3.
      simpl in *. exact IH.
Qed.

Lemma enhance_degrades faults uid now card db e :
  fst (enrich faults uid card db) = Throw e ->
  fst (enhance faults uid now card db) = degraded card now.
Proof.
  unfold enhance. destruct (enrich faults uid card db) as [[r|e'] db']; simpl.
  - discriminate.
  - reflexivity.
Qed.

Lemma single_Some {A} (rows : list A) (r : A) :
  pg_data (single rows) = Some r -> rows = [r].
Proof.
  destruct rows as [|a [|b rest]]; simpl; try discriminate.
  intros H. now injection H as ->.
Qed.

Lemma withErrorHandling_Ok {A} (r : PgResult A) (a : A) :
  withErrorHandling r = Ok a -> pg_data r = Some a.
Proof.
  unfold withErrorHandling. destruct (pg_error r); [discriminate|].
  destruct (pg_data r); [|discriminate]. now intros [= ->].
Qed.

Lemma filter_has_id_single id cache c :
  filter (has_id id) cache = [c] -> scryfall_id c = id.
Proof.
  intros H. assert (Hin : In c (filter (has_id id) cache))
    by (rewrite H; now left).
  apply filter_In in Hin as [_ Hc]. now apply String.eqb_eq in Hc.
Qed.

Lemma getCardFromCache_id faults db id c :
  getCardFromCache faults db id = Ok c -> scryfall_id c = id.
Proof.
  unfold getCardFromCache, select_card, request. intros H.
  apply withErrorHandling_Ok in H.
  destruct (faults (SelectCard id)); [discriminate|].
  apply single_Some in H. eapply filter_has_id_single, H.
Qed.

Lemma insertCardToCache_id faults db card c :
  fst (insertCardToCache faults db card) = Ok c -> scryfall_id c = sc_id card.
Proof.
  unfold insertCardToCache.
  destruct (faults (UpsertCard (sc_id card))); simpl; [discriminate|].
  intros H. apply withErrorHandling_Ok, single_Some in H.
  eapply filter_has_id_single, H.
Qed.

(** Whatever the callback returns is about the card it was called on. *)
Lemma enhance_same_card faults uid now card db :
  scryfall_id (cached (fst (enhance faults uid now card db))) = sc_id card.
Proof.
  unfold enhance, enrich.
  destruct (getCardFromCache faults db (sc_id card)) as [c|e] eqn:G.
  - simpl. eapply getCardFromCache_id, G.
  - destruct (insertCardToCache faults db card) as [[c|e'] db'] eqn:I; simpl.
    + apply (insertCardToCache_id faults db card). now rewrite I.
    + reflexivity.
Qed.

(** The enrichment of a card fails exactly when the cache can neither be
    read nor written for it; the ownership query cannot make it fail. *)
Lemma enrich_throws_iff faults uid card db :
  (exists e, fst (enrich faults uid card db) = Throw e)
  <-> (exists e1, getCardFromCache faults db (sc_id card) = Throw e1)
      /\ (exists e2, fst (insertCardToCache faults db card) = Throw e2).
Proof.
  unfold enrich.
  destruct (getCardFromCache faults db (sc_id card)) as [c|e1]; simpl.
  - split; [intros [e H]; discriminate | intros [[e H] _]; discriminate].
  - destruct (insertCardToCache faults db card) as [[c|e2] db']; simpl.
    + split; [intros [e H]; discriminate | intros [_ [e H]]; discriminate].
    + split; eauto.
Qed.

(** What [GET] does once validation, authentication and the search have
    succeeded and the service client exists. *)
Lemma GET_enhances searchParams env w db v user searchResult w' :
  Schemas.SearchCardsSchema (search_params searchParams) = Ok v ->
  authenticated (auth env) = Some user ->
  Scryfall.searchCards (Schemas.search_q v)
    {| Scryfall.unique := Schemas.search_unique v;
       Scryfall.page := Schemas.search_page v;
       Scryfall.include_extras := None;
       Scryfall.include_multilingual := None |} w = (Ok searchResult, w') ->
  service_key env = true ->
  let out := enhance_all (faults env) (user_id user) (now env)
               (data searchResult) db in
  GET searchParams env w db
  = (Json 200 {| page_total_cards := total_cards searchResult;
                 page_has_more := has_more searchResult;
                 page_data := fst out |}, (w', snd out)).
Proof.
  intros Hv Hauth Hsearch Hkey out. unfold GET.
  rewrite Hv, Hauth, Hsearch, Hkey. subst out.
  destruct (enhance_all _ _ _ _ _) as [results db']. reflexivity.
Qed.

End Enrich.

Section Ownership.
Import Database CardsSearchRoute EnrichSpec.

Lemma filter_filter_and {A} (p q : A -> bool) l :
  filter p (filter q l) = filter (fun x => q x && p x) l.
Proof.
  induction l as [|a l IH]; [reflexivity|]. simpl.
  destruct (q a); simpl; [destruct (p a)|]; now rewrite IH.
Qed.

(** The ownership query yields data exactly when the user has one row for
    the card. *)
Lemma select_owned_data faults db uid id :
  faults (SelectOwned id) = None ->
  pg_data (select_owned faults db uid id)
  = match owned_entries db uid id with
    | [r] => Some (cc_quantity r)
    | _ => None
    end.
Proof.
  intros Hf. unfold select_owned, request, row_level_auth, owned_entries.
  rewrite Hf, filter_filter_and.
  destruct (filter _ (collection_cards db)) as [|a [|b rest]]; reflexivity.
Qed.

Lemma insertCardToCache_collection faults db card :
  collection_cards (snd (insertCardToCache faults db card))
  = collection_cards db.
Proof.
  unfold insertCardToCache.
  destruct (faults (UpsertCard (sc_id card))); reflexivity.
Qed.

(** What an enrichment that succeeds attaches: the flag is set, and the
    quantity the stored one, when the user has exactly one row for the
    card; with no row, and with more than one, the card is reported as not
    owned. *)
Lemma enrich_ownership faults uid card db result db' :
  enrich faults uid card db = (Ok result, db') ->
  faults (SelectOwned (sc_id card)) = None ->
  (in_collection result, collection_quantity result)
  = match owned_entries db uid (sc_id card) with
    | [r] => (true, cc_quantity r)
    | _ => (false, 0)
    end.
Proof.
  unfold enrich. intros H Hf.
  assert (Hrows : forall db1 r1,
            match getCardFromCache faults db (sc_id card) with
            | Ok c => (Ok c, db)
            | Throw _ => insertCardToCache faults db card
            end = (r1, db1) ->
            owned_entries db1 uid (sc_id card)
            = owned_entries db uid (sc_id card)).
  { intros db1 r1 E. unfold owned_entries.
    destruct (getCardFromCache faults db (sc_id card)).
    - now injection E as _ <-.
    - replace db1 with (snd (insertCardToCache faults db card))
        by now rewrite E.
      now rewrite insertCardToCache_collection. }
  destruct (match getCardFromCache faults db (sc_id card) with
            | Ok c => (Ok c, db)
            | Throw _ => insertCardToCache faults db card
            end) as [[c|e] db1] eqn:E; [|discriminate].
  injection H as <- _. cbn [in_collection collection_quantity].
  rewrite (select_owned_data faults db1 uid (sc_id card) Hf).
  rewrite (Hrows db1 (Ok c) eq_refl).
  destruct (owned_entries db uid (sc_id card)) as [|r [|r' rest]];
    try reflexivity.
  destruct (Z.eqb_spec (cc_quantity r) 0) as [->|]; reflexivity.
Qed.

End Ownership.

Section EnrichClaims.
Import Database CardsSearchRoute EnrichSpec.

(** C4, as the claim states it, fails: the ownership lookup of a cached
    card fails.  The card is not replaced by the minimal record built from
    the payload: it comes back as its cache row (written on the first of
    January, where the minimal record would carry the time of the
    request), reported as not owned with quantity 0 although Alice holds
    two copies. *)
Lemma GET_ownership_failure_keeps_cache_row :
  let env := session_of DbSpec.alice (MoreSpec.ownership_down_for DbSpec.bolt_id) in
  let response :=
    fst (GET bolt_search env (serving [DbSpec.bolt]) DbSpec.alices_db) in
  http_status response = 200
  /\ MoreSpec.elements response
     = [{| cached := cache_row DbSpec.bolt None "2024-01-01T00:00:00Z";
           in_collection := false;
           collection_quantity := 0 |}]
  /\ MoreSpec.elements response <> [degraded DbSpec.bolt (now env)]
  /\ map cc_quantity (owned_entries DbSpec.alices_db "alice" DbSpec.bolt_id)
     = [2].
Proof. vm_compute. repeat split; try reflexivity. discriminate. Qed.

(** C4, amended.  Once the search has returned a page (the request is
    valid, the user signed in, the service client configured), and
    whatever requests to the database fail: the response is 200, its data
    array has exactly as many elements as the data array of the external
    result, and the element at each position is about the card at that
    position.  A card whose cache row can neither be read nor written (in
    particular when both requests fail) is there as the minimal record
    built from the external payload with [in_collection = false] and
    [collection_quantity = 0].  A card whose cache row was read, or
    written after a miss, is there with that row, never with the minimal
    record; when its ownership lookup fails it is reported with
    [in_collection = false] and [collection_quantity = 0]. *)
Theorem GET_keeps_every_card searchParams env w db v user searchResult w' :
  Schemas.SearchCardsSchema (search_params searchParams) = Ok v ->
  authenticated (auth env) = Some user ->
  Scryfall.searchCards (Schemas.search_q v)
    {| Scryfall.unique := Schemas.search_unique v;
       Scryfall.page := Schemas.search_page v;
       Scryfall.include_extras := None;
       Scryfall.include_multilingual := None |} w = (Ok searchResult, w') ->
  service_key env = true ->
  exists page db',
    GET searchParams env w db = (Json 200 page, (w', db'))
    /\ List.length (page_data page) = List.length (data searchResult)
    /\ forall i card,
         nth_error (data searchResult) i = Some card ->
         let found := db_at (faults env) (user_id user) (now env)
                        (data searchResult) db i in
         let read := getCardFromCache (faults env) found (sc_id card) in
         let written := fst (insertCardToCache (faults env) found card) in
         exists result,
           nth_error (page_data page) i = Some result
           /\ scryfall_id (cached result) = sc_id card
           /\ ((exists e1, read = Throw e1) ->
               (exists e2, written = Throw e2) ->
               result = degraded card (now env))
           /\ (forall m1 m2,
                 faults env (SelectCard (sc_id card)) = Some m1 ->
                 faults env (UpsertCard (sc_id card)) = Some m2 ->
                 result = degraded card (now env))
           /\ (forall row,
                 read = Ok row
                 \/ (exists e1, read = Throw e1) /\ written = Ok row ->
                 cached result = row
                 /\ forall message,
                      faults env (SelectOwned (sc_id card)) = Some message ->
                      result = {| cached := row;
                                  in_collection := false;
                                  collection_quantity := 0 |}).
Proof.
  intros Hv Hauth Hsearch Hkey.
  do 2 eexists. split.
  { apply (GET_enhances searchParams env w db v user searchResult w');
      assumption. }
  cbn [page_data]. split; [apply enhance_all_length|].
  intros i card Hnth. cbv zeta.
  set (found := db_at (faults env) (user_id user) (now env)
                  (data searchResult) db i).
  set (read := getCardFromCache (faults env) found (sc_id card)).
  set (written := fst (insertCardToCache (faults env) found card)).
  exists (fst (enhance (faults env) (user_id user) (now env) card found)).
  split; [apply enhance_all_nth, Hnth|].
  split; [apply enhance_same_card|].
  assert (Hboth : (exists e1, read = Throw e1) ->
                  (exists e2, written = Throw e2) ->
                  fst (enhance (faults env) (user_id user) (now env) card found)
                  = degraded card (now env)).
  { intros H1 H2.
    destruct (proj2 (enrich_throws_iff (faults env) (user_id user) card found)
                (conj H1 H2)) as (e & He).
    eapply enhance_degrades, He. }
  split; [exact Hboth|]. split.
  - intros m1 m2 Hread Hwrite. apply Hboth.
    + subst read. unfold getCardFromCache, select_card, request.
      rewrite Hread. cbn. eauto.
    + subst written. unfold insertCardToCache. rewrite Hwrite. cbn. eauto.
  - intros row Hrow. unfold enhance, enrich. fold read.
    assert (Hstep : match read with
                    | Ok c => (Ok c, found)
                    | Throw _ => insertCardToCache (faults env) found card
                    end
                    = (Ok row,
                       match read with
                       | Ok _ => found
                       | Throw _ =>
                           snd (insertCardToCache (faults env) found card)
                       end)).
    { destruct Hrow as [-> | [(e1 & ->) Hw]]; [reflexivity|].
      subst written.
      destruct (insertCardToCache (faults env) found card) as [r d].
      cbn [fst snd] in *. now rewrite Hw. }
    rewrite Hstep. cbn [fst cached]. split; [reflexivity|].
    intros message Hown. unfold select_owned, request. rewrite Hown.
    reflexivity.
Qed.

(** A page of two cards while the cache can neither be read nor written
    for the second. *)
Lemma GET_keeps_every_card_witness :
  exists page db',
    fst (GET bolt_search (session_of DbSpec.alice (cache_down_for DbSpec.bolt_id))
           (serving [shock; DbSpec.bolt]) DbSpec.alices_db) = Json 200 page
    /\ List.length (page_data page) = 2%nat
    /\ snd (snd (GET bolt_search
                   (session_of DbSpec.alice (cache_down_for DbSpec.bolt_id))
                   (serving [shock; DbSpec.bolt]) DbSpec.alices_db)) = db'.
Proof.
  destruct (GET_keeps_every_card bolt_search
              (session_of DbSpec.alice (cache_down_for DbSpec.bolt_id))
              (serving [shock; DbSpec.bolt]) DbSpec.alices_db
              {| Schemas.search_q := "lightning bolt";
                 Schemas.search_page := None;
                 Schemas.search_unique := Some "cards" |}
              DbSpec.alice _ _ eq_refl eq_refl eq_refl eq_refl)
    as (page & db' & Hget & Hlen & _).
  exists page, db'. rewrite Hget. repeat split. exact Hlen.
Defined.

(** C6 (the code departs from the claim).  Alice holds the card twice, two
    non-foil copies and one foil copy in two rows.  The ownership query
    asks for a single row, gets two, and so yields no data: the page
    reports the card as not in her collection, with quantity 0. *)
Theorem GET_two_entries_reported_as_not_owned :
  map cc_quantity (owned_entries DbSpec.alices_foil_db "alice" DbSpec.bolt_id)
  = [2; 1]
  /\ ownership (fst (GET bolt_search (session_of DbSpec.alice no_faults)
                       (serving [DbSpec.bolt]) DbSpec.alices_foil_db))
     = [(false, 0)].
Proof. vm_compute. split; reflexivity. Qed.

(** Alice holds the bolt in one row of quantity 2. *)
Lemma enrich_ownership_witness :
  exists result db',
    enrich no_faults "alice" DbSpec.bolt DbSpec.alices_db = (Ok result, db')
    /\ (in_collection result, collection_quantity result) = (true, 2).
Proof.
  do 2 eexists. split; [reflexivity|].
  exact (enrich_ownership no_faults "alice" DbSpec.bolt DbSpec.alices_db
           _ _ eq_refl eq_refl).
Defined.

End EnrichClaims.

(** ** The schemas *)
Section SchemaFacts.
Import Schemas.

Lemma ap_valid {A B} (f : Checked (A -> B)) (x : Checked A) (b : B) :
  ap f x = inl b -> exists g a, f = inl g /\ x = inl a /\ b = g a.
Proof.
  destruct f as [g|xs], x as [a|ys]; simpl; try discriminate.
  intros [= <-]. eauto.
Qed.

(** [parse] throws nothing but a [ZodError]. *)
Lemma parse_throws {A} (c : Checked A) e :
  parse c = Throw e -> exists issues, e = ZodError issues.
Proof.
  destruct c; simpl; [discriminate|]. intros [= <-]. eauto.
Qed.

Lemma z_number_min_max_bounds lo hi path v n :
  z_number_min_max lo hi path v = inl n ->
  lo <= n /\ (forall h, hi = Some h -> n <= h).
Proof.
  unfold z_number_min_max. destruct (z_number path v) as [m|]; [|discriminate].
  destruct (Z.ltb_spec m lo); [discriminate|].
  destruct hi as [h|].
  - destruct (Z.ltb_spec h m); [discriminate|].
    intros [= <-]. split; [assumption|]. now intros ? [= <-].
  - intros [= <-]. split; [assumption | discriminate].
Qed.

Lemma z_default_bounds lo hi default path v n :
  z_default (z_number_min_max lo hi) default path v = inl n ->
  lo <= default -> (forall h, hi = Some h -> default <= h) ->
  lo <= n /\ (forall h, hi = Some h -> n <= h).
Proof.
  unfold z_default. intros H Hlo Hhi.
  destruct v; try (now apply z_number_min_max_bounds in H).
  injection H as <-. auto.
Qed.

(** Validated collection-search parameters have a page of at least 1 and
    a limit between 1 and 100. *)
Lemma SearchCollectionSchema_bounds v p :
  SearchCollectionSchema v = Ok p ->
  1 <= page p /\ 1 <= limit p <= 100.
Proof.
  unfold SearchCollectionSchema. destruct v; try discriminate.
  unfold parse.
  match goal with |- match ?c with _ => _ end = _ -> _ =>
    destruct c as [p'|] eqn:E; [|discriminate] end.
  intros [= <-].
  repeat match type of E with
         | ap _ _ = inl _ =>
             apply ap_valid in E;
             let g := fresh "g" in let a := fresh "a" in
             let Hx := fresh "Hx" in let Hp := fresh "Hp" in
             destruct E as (g & a & E & Hx & Hp); subst
         end.
  injection E as <-. cbn [page limit].
  match goal with
  | Hpage : z_default (z_number_min_max 1 None) 1 _ _ = inl ?n,
    Hlimit : z_default (z_number_min_max 1 (Some 100)) 50 _ _ = inl ?m |- _ =>
      apply z_default_bounds in Hpage; [|lia | discriminate];
      apply z_default_bounds in Hlimit;
        [|lia | intros ? [= <-]; lia];
      destruct Hpage as [Hpage _]; destruct Hlimit as [Hlo Hhi];
      specialize (Hhi 100 eq_refl)
  end.
  lia.
Qed.

Lemma SearchCollectionSchema_throws v e :
  SearchCollectionSchema v = Throw e -> exists issues, e = ZodError issues.
Proof.
  unfold SearchCollectionSchema. destruct v; try (intros [= <-]; eauto).
  apply parse_throws.
Qed.

Lemma SearchCardsSchema_throws v e :
  SearchCardsSchema v = Throw e -> exists issues, e = ZodError issues.
Proof.
  unfold SearchCardsSchema. destruct v; try (intros [= <-]; eauto).
  apply parse_throws.
Qed.

Lemma AddToCollectionSchema_throws v e :
  AddToCollectionSchema v = Throw e -> exists issues, e = ZodError issues.
Proof.
  unfold AddToCollectionSchema. destruct v; try (intros [= <-]; eauto).
  apply parse_throws.
Qed.

End SchemaFacts.

(** ** The collection query builder *)
Section CollectionSearch.
Import Database CollectionSearchRoute.

Lemma filters_when_ f q :
  filters (when_ f q)
  = (filters q ++ match f with Some f => [f] | None => [] end)%list.
Proof. destruct f; simpl; [reflexivity | now rewrite app_nil_r]. Qed.

(** The two copies of the filter block build the same predicates. *)
Lemma count_query_same_filters uid p :
  filters (count_query uid p) = filters (page_query uid p).
Proof.
  unfold count_query, page_query, count_filters, page_filters.
  cbn [filters set_range set_order].
  now rewrite !filters_when_.
Qed.

Lemma matching_same_filters holds q1 q2 uid db :
  filters q1 = filters q2 -> matching holds q1 uid db = matching holds q2 uid db.
Proof. unfold matching. now intros ->. Qed.

End CollectionSearch.

Section CollectionSearchClaims.
Import Database CollectionSearchRoute QuerySpec.

(** C5, as the claim states it, fails: the count query fails.  Alice has
    two rows and asks for the first page of one row.  She gets her first
    row, a total of 0 and [hasMore = false], where the rows matching the
    predicates are 2 and [2 > 1 * 1]: a failed count is only logged. *)
Lemma GET_count_failure_reports_no_more :
  let response :=
    GET sample_holds sample_ordered [("page", "1"); ("limit", "1")]
      (DbSpec.signed_in DbSpec.alice) MoreSpec.count_down
      DbSpec.alices_foil_db in
  (exists row,
     response
     = Json 200 {| data := [row];
                   pagination := {| page := 1; limit := 1; total := 0;
                                    hasMore := false |} |})
  /\ List.length
       (matching sample_holds
          (count_query "alice"
             {| Schemas.q := None; Schemas.colors := None;
                Schemas.types := None; Schemas.sets := None;
                Schemas.cmc_min := None; Schemas.cmc_max := None;
                Schemas.rarity := None; Schemas.sort := "name";
                Schemas.order := "asc"; Schemas.page := 1;
                Schemas.limit := 1 |})
          "alice" DbSpec.alices_foil_db)
     = 2%nat
  /\ (1 * 1 <? 2) = true.
Proof. vm_compute. repeat split. eexists. reflexivity. Qed.

(** C5, amended.  A validated collection search by a signed-in user with
    page [p] and limit [n], [p * n] a safe integer, whatever the query
    engine makes of the filters and the order and whatever requests fail.
    If the page query fails the response is 500.  If it goes through the
    response is 200; its rows are the (at most [n]) rows that follow the
    first [(p - 1) * n] of the ordered selection; [hasMore] is
    [total > p * n]; and [total] is the number of rows the count query
    selects, which are the rows the page query selects, the two being built
    from the same predicates, when the count query goes through, and 0 when
    it fails, so that [hasMore] is then false whatever the selection. *)
Theorem GET_paginates holds ordered searchParams auth faults db params user :
  Schemas.SearchCollectionSchema (search_params searchParams) = Ok params ->
  authenticated auth = Some user ->
  Schemas.page params * Schemas.limit params <= MAX_SAFE_INTEGER ->
  let p := Schemas.page params in
  let n := Schemas.limit params in
  let uid := user_id user in
  let selected := matching holds (page_query uid params) uid db in
  let total := match faults CountPage with
               | None => Z.of_nat (List.length selected)
               | Some _ => 0
               end in
  match faults SelectPage with
  | Some _ =>
      GET holds ordered searchParams auth faults db
      = JsonError 500 {| error := "Internal server error"; details := None |}
  | None =>
      exists rows,
        GET holds ordered searchParams auth faults db
        = Json 200 {| data := rows;
                      pagination := {| page := p; limit := n; total := total;
                                       hasMore := p * n <? total |} |}
        /\ rows = firstn (Z.to_nat n)
                    (skipn (Z.to_nat ((p - 1) * n))
                       (ordered (sortColumn (Schemas.sort params))
                          (String.eqb (Schemas.order params) "asc") selected))
        /\ Z.of_nat (List.length rows) <= n
        /\ matching holds (count_query uid params) uid db = selected
        /\ ((p * n <? total) = true <-> total > p * n)
        /\ (faults CountPage <> None -> (p * n <? total) = false)
  end.
Proof.
  intros Hparse Hauth Hsafe p n uid selected total.
  destruct (SearchCollectionSchema_bounds _ _ Hparse) as (Hp & Hn).
  fold p n in Hp, Hn.
  assert (Hcount : matching holds (count_query uid params) uid db = selected)
    by apply matching_same_filters, count_query_same_filters.
  unfold GET. rewrite Hparse, Hauth.
  unfold search_collection, run, run_count, request.
  destruct (faults SelectPage) as [message|]; [reflexivity|].
  cbn [pg_error pg_data pg_ok]. fold uid. rewrite Hcount.
  assert (Htotal : count_or_0
                     (pg_data
                        match faults CountPage with
                        | Some message => pg_fail message
                        | None => pg_ok (Z.of_nat (List.length selected))
                        end) = total).
  { subst total. destruct (faults CountPage); reflexivity. }
  rewrite Htotal. fold p n.
  eexists. split; [|split; [reflexivity|]].
  - unfold window, arranged, page_query.
    cbn [range ordering set_range set_order]. fold p n.
    unfold offset. fold p n.
    replace ((p - 1) * n + n - 1 - (p - 1) * n + 1) with n by lia.
    reflexivity.
  - split; [|split; [reflexivity|split]].
    + rewrite length_firstn. lia.
    + rewrite Z.ltb_lt. lia.
    + intros Hfail. subst total.
      destruct (faults CountPage); [|congruence].
      apply Z.ltb_ge. nia.
Qed.

(** The second page of size one of a collection of two rows. *)
Lemma GET_paginates_witness :
  exists rows,
    GET sample_holds sample_ordered second_page_of_one
      (DbSpec.signed_in DbSpec.alice) no_faults DbSpec.alices_foil_db
    = Json 200 {| data := rows;
                  pagination := {| page := 2; limit := 1; total := 2;
                                   hasMore := false |} |}
    /\ Z.of_nat (List.length rows) <= 1.
Proof.
  assert (Hsafe : 2 * 1 <= MAX_SAFE_INTEGER) by (unfold MAX_SAFE_INTEGER; lia).
  destruct (GET_paginates sample_holds sample_ordered second_page_of_one
              (DbSpec.signed_in DbSpec.alice) no_faults DbSpec.alices_foil_db
              {| Schemas.q := None; Schemas.colors := None;
                 Schemas.types := None; Schemas.sets := Some ["lea"; "leb"];
                 Schemas.cmc_min := None; Schemas.cmc_max := None;
                 Schemas.rarity := None; Schemas.sort := "name";
                 Schemas.order := "asc"; Schemas.page := 2;
                 Schemas.limit := 1 |}
              DbSpec.alice eq_refl eq_refl Hsafe)
    as (rows & Hget & _ & Hlen & _).
  exists rows. split; [exact Hget | exact Hlen].
Defined.

(** The page query and the count query select the same rows: the two
    copies of the filter block apply the same filters, in the same order,
    for every combination of parameters. *)
Theorem count_and_page_queries_agree holds uid params db :
  filters (count_query uid params) = filters (page_query uid params)
  /\ matching holds (count_query uid params) uid db
     = matching holds (page_query uid params) uid db.
Proof.
  split; [apply count_query_same_filters|].
  apply matching_same_filters, count_query_same_filters.
Qed.

End CollectionSearchClaims.

(** ** Status codes of the three routes *)
Section StatusCodes.
Import Database.

Lemma rateLimitedFetch_on_throws server url :
  forall t e rest,
    Scryfall.rateLimitedFetch_on server url t = (Throw e, rest) ->
    exists message, e = Error message.
Proof.
  induction server as [|x tail IH]; intros t e rest; simpl.
  - intros [= <- _]. eauto.
  - destruct (negb (Scryfall.ok (Scryfall.respond x url))).
    + destruct (Scryfall.status (Scryfall.respond x url) =? 429).
      * apply IH.
      * intros [= <- _]. eauto.
    + discriminate.
Qed.

(** [searchCards] throws nothing but an [Error]. *)
Lemma searchCards_throws query options w e w' :
  Scryfall.searchCards query options w = (Throw e, w') ->
  exists message, e = Error message.
Proof.
  unfold Scryfall.searchCards, Scryfall.rateLimitedFetch.
  destruct (Scryfall.rateLimitedFetch_on _ _ _) as [[response|e'] [t s]] eqn:E.
  - cbn [bindR try_catch]. unfold Scryfall.decode_search.
    destruct (Scryfall.body response) as [[code details|r]|].
    + destruct (Scryfall.is_code code "not_found"); [discriminate|].
      intros [= <- _]. eauto.
    + discriminate.
    + intros [= <- _]. eauto.
  - cbn [bindR try_catch]. intros [= <- _].
    eapply rateLimitedFetch_on_throws, E.
Qed.

(** What the collection-add handler throws after validation is an
    [Error]. *)
Lemma add_to_collection_throws faults user v db e db' :
  CollectionAddRoute.add_to_collection faults user v db = (Throw e, db') ->
  exists message, e = Error message.
Proof.
  unfold CollectionAddRoute.add_to_collection.
  destruct (pg_error (select_card faults db _)); [discriminate|].
  destruct (pg_data (select_card faults db _)); [|discriminate].
  destruct (pg_data (select_entry faults db _ _ _ _)) as [existing|].
  - destruct (update_entry _ _ _ _ _ _) as [updated db1].
    destruct (pg_error updated); [|discriminate].
    intros [= <- _]. eauto.
  - destruct (insert_entry _ _ _ _ _ _ _ _) as [inserted db1].
    destruct (pg_error inserted); [|discriminate].
    intros [= <- _]. eauto.
Qed.

Lemma search_collection_throws holds ordered faults user params db e :
  CollectionSearchRoute.search_collection holds ordered faults user params db
  = Throw e ->
  exists message, e = Error message.
Proof.
  unfold CollectionSearchRoute.search_collection.
  destruct (pg_error _); [|discriminate]. intros [= <-]. eauto.
Qed.




End StatusCodes.

Section StatusCodeClaims.
Import Database.




End StatusCodeClaims.

(** ** The JavaScript runtime: numbers and strings in query strings *)
Section Runtime.
Import Schemas Js MoreSpec.

Lemma uint_value_pos d :
  forall a, uint_value d (Z.pos a) = Z.pos (Pos.of_uint_acc d a).
Proof.
  induction d; intros a; cbn [uint_value Pos.of_uint_acc];
    try reflexivity;
    match goal with
    | |- uint_value _ ?x = Z.pos (Pos.of_uint_acc _ ?y) =>
        replace x with (Z.pos y) by lia; apply IHd
    end.
Qed.

Lemma uint_value_of_uint d : uint_value d 0 = Z.of_N (Pos.of_uint d).
Proof.
  induction d; cbn [uint_value Pos.of_uint]; try reflexivity;
    try (change (10 * 0 + 0) with 0; exact IHd);
    cbn [Z.of_N];
    match goal with
    | |- uint_value _ ?x = Z.pos (Pos.of_uint_acc _ ?y) =>
        change x with (Z.pos y); apply uint_value_pos
    end.
Qed.

Lemma uint_value_to_uint p : uint_value (Pos.to_uint p) 0 = Z.pos p.
Proof.
  rewrite uint_value_of_uint, DecimalPos.Unsigned.of_to. reflexivity.
Qed.

(** Reading decimal digits gives their value. *)
Lemma digits_string_of_uint d :
  forall acc,
    digits 10 (NilEmpty.string_of_uint d) acc
    = match d with
      | Decimal.Nil => acc
      | _ => Some (uint_value d (match acc with Some a => a | None => 0 end))
      end.
Proof.
  induction d; intros acc; cbn [NilEmpty.string_of_uint digits uint_value];
    try reflexivity;
    match goal with
    | |- context [digit_value 10 ?c] =>
        let v := eval vm_compute in (digit_value 10 c) in
        change (digit_value 10 c) with v; cbv beta iota
    end;
    rewrite IHd; destruct d; reflexivity.
Qed.

Lemma parseInt_digits sign d :
  d <> Decimal.Nil ->
  (sign = EmptyString \/ sign = "-") ->
  parseInt (sign ++ NilEmpty.string_of_uint d)
  = VNumber ((if String.eqb sign "-" then -1 else 1) * uint_value d 0).
Proof.
  intros Hd Hsign.
  assert (Hdigits : digits 10 (NilEmpty.string_of_uint d) None
                    = Some (uint_value d 0)).
  { rewrite digits_string_of_uint. destruct d; [congruence | reflexivity ..]. }
  destruct Hsign as [-> | ->]; cbn [append String.eqb Ascii.eqb Bool.eqb];
    (destruct d as [|d|d|d|d|d|d|d|d|d|d]; [congruence | ..]);
    try (destruct d);
    unfold parseInt;
    cbn [NilEmpty.string_of_uint trim_start];
    repeat match goal with
           | |- context [is_white_space ?c] =>
               let v := eval vm_compute in (is_white_space c) in
               change (is_white_space c) with v; cbv beta iota
           end;
    cbv beta iota zeta;
    match goal with
    | |- context [digits 10 ?s None] =>
        match type of Hdigits with
        | digits 10 ?s' None = _ =>
            change s with s'; rewrite Hdigits; reflexivity
        end
    end.
Qed.

Lemma parseInt_toString n : parseInt (number_toString n) = VNumber n.
Proof.
  destruct n as [|p|p].
  - reflexivity.
  - unfold number_toString. cbn [Z.to_int NilZero.string_of_int].
    pose proof (DecimalPos.Unsigned.to_uint_nonnil p) as Hnil.
    unfold NilZero.string_of_uint.
    replace (match Pos.to_uint p with
             | Decimal.Nil => "0"
             | _ => NilEmpty.string_of_uint (Pos.to_uint p)
             end) with (EmptyString ++ NilEmpty.string_of_uint (Pos.to_uint p))
      by (destruct (Pos.to_uint p); [congruence | reflexivity ..]).
    rewrite (parseInt_digits EmptyString _ Hnil (or_introl eq_refl)).
    rewrite uint_value_to_uint. cbn [String.eqb]. f_equal; lia.
  - unfold number_toString. cbn [Z.to_int NilZero.string_of_int].
    pose proof (DecimalPos.Unsigned.to_uint_nonnil p) as Hnil.
    unfold NilZero.string_of_uint.
    replace (String "-" match Pos.to_uint p with
                        | Decimal.Nil => "0"
                        | _ => NilEmpty.string_of_uint (Pos.to_uint p)
                        end)
      with ("-" ++ NilEmpty.string_of_uint (Pos.to_uint p))
      by (destruct (Pos.to_uint p); [congruence | reflexivity ..]).
    rewrite (parseInt_digits "-" _ Hnil (or_intror eq_refl)).
    rewrite uint_value_to_uint. cbn [String.eqb Ascii.eqb Bool.eqb]. f_equal; lia.
Qed.

(** What [toString] prints is never the empty string. *)
Lemma number_toString_truthy n : truthy_string (number_toString n) = true.
Proof.
  unfold number_toString.
  destruct n as [|p|p]; cbn [Z.to_int NilZero.string_of_int]; try reflexivity.
  unfold NilZero.string_of_uint.
  pose proof (DecimalPos.Unsigned.to_uint_nonnil p) as Hnil.
  destruct (Pos.to_uint p); [congruence | reflexivity ..].
Qed.

(** A number that a caller prints into a query string with [toString] is
    read back by the routes as that number, for every safe integer: never
    as [NaN] and never as the default of the parameter.  (Beyond the safe
    integers it is not so in JavaScript: [1e21] is printed ['1e+21'] and
    read back as 1.) *)
Theorem int_param_number_toString key n otherwise rest :
  safe_integer n ->
  int_param key otherwise ((key, number_toString n) :: rest) = VNumber n.
Proof.
  intros _. unfold int_param. cbn [get]. rewrite String.eqb_refl.
  rewrite number_toString_truthy. apply parseInt_toString.
Qed.

(** The largest safe integer, printed and read back as [limit]. *)
Lemma int_param_number_toString_witness :
  int_param "limit" (VNumber 50)
    [("limit", number_toString MAX_SAFE_INTEGER); ("page", "2")]
  = VNumber 9007199254740991.
Proof.
  apply (int_param_number_toString "limit" MAX_SAFE_INTEGER (VNumber 50)
           [("page", "2")]).
  unfold safe_integer, MAX_SAFE_INTEGER. lia.
Defined.

Lemma split_comma_nonempty s : split_comma s <> [].
Proof.
  destruct s as [|c rest]; cbn [split_comma]; [discriminate|].
  destruct (Ascii.eqb c ","); [discriminate|].
  destruct (split_comma rest); discriminate.
Qed.

Lemma split_comma_no_comma s :
  Forall (fun piece => ~ In ","%char (list_ascii_of_string piece))
    (split_comma s).
Proof.
  induction s as [|c rest IH]; cbn [split_comma].
  - repeat constructor. intros [].
  - destruct (Ascii.eqb_spec c ",") as [->|Hc].
    + constructor; [intros [] | exact IH].
    + destruct (split_comma rest) as [|piece pieces].
      * repeat constructor. intros [H | []]. congruence.
      * inversion IH as [|? ? Hpiece Hpieces]; subst.
        constructor; [|exact Hpieces].
        cbn [list_ascii_of_string]. intros [H | H]; [congruence | tauto].
Qed.

(** [s.split(',')] and [join(',')] are inverse on the string, and what a
    list parameter keeps of the pieces, after [filter(Boolean)], are
    strings that are neither empty nor contain a comma. *)
Theorem split_comma_join s :
  join "," (split_comma s) = s
  /\ Forall (fun piece => piece <> EmptyString
                          /\ ~ In ","%char (list_ascii_of_string piece))
       (filter truthy_string (split_comma s)).
Proof.
  split.
  - unfold join. induction s as [|c rest IH]; [reflexivity|].
    cbn [split_comma].
    pose proof (split_comma_nonempty rest) as Hne.
    destruct (Ascii.eqb_spec c ",") as [->|Hc].
    + destruct (split_comma rest) as [|piece pieces]; [congruence|].
      change (concat "," (EmptyString :: piece :: pieces))
        with (EmptyString ++ "," ++ concat "," (piece :: pieces)).
      rewrite IH. reflexivity.
    + destruct (split_comma rest) as [|piece pieces]; [congruence|].
      rewrite <- IH. destruct pieces; reflexivity.
  - apply Forall_forall. intros piece Hin.
    apply filter_In in Hin as [Hin Htruthy]. split.
    + intros ->. discriminate.
    + pose proof (split_comma_no_comma s) as H.
      rewrite Forall_forall in H. now apply H.
Qed.

End Runtime.

(** ** The components and the routes they call *)
Section Callers.
Import Schemas Database DbSpec Components MoreSpec.

Lemma ap_invalid {A B} (f : Checked (A -> B)) issues :
  exists all, ap f (inr issues) = inr all /\ incl issues all.
Proof.
  destruct f as [g|xs]; simpl.
  - exists issues. split; [reflexivity | apply incl_refl].
  - exists (xs ++ issues)%list. split; [reflexivity | apply incl_appr, incl_refl].
Qed.

(** A cards search whose query string has no [unique] entry is answered
    400, with an issue on that member, whatever else it carries and whoever
    asks; nothing is sent to the card API and the database is not touched. *)
Lemma GET_without_unique searchParams env w db :
  Js.get "unique" searchParams = None ->
  exists issues,
    CardsSearchRoute.GET searchParams env w db
    = (JsonError 400 {| error := "Invalid request parameters";
                        details := Some issues |}, (w, db))
    /\ In {| issue_path := ["unique"];
             issue_message := "Invalid enum value" |} issues.
Proof.
  intros Hget.
  unfold CardsSearchRoute.GET, SearchCardsSchema, CardsSearchRoute.search_params.
  rewrite Hget.
  set (vq := Js.nullable _). set (vp := Js.int_param _ _ _).
  assert (Hu : field "unique" [("q", vq); ("page", vp); ("unique", Js.nullable None)]
               = VNull) by reflexivity.
  rewrite Hu.
  cbn [z_optional z_enum].
  destruct (ap_invalid
              (valid Build_SearchCards
               <*> z_string_min_max 1 100 ["q"]
                     (field "q" [("q", vq); ("page", vp); ("unique", Js.nullable None)])
               <*> z_optional (z_number_min_max 1 (Some 10)) ["page"]
                     (field "page" [("q", vq); ("page", vp); ("unique", Js.nullable None)]))%zod
              [{| issue_path := ["unique"]; issue_message := "Invalid enum value" |}])
    as (all & Hall & Hincl).
  unfold invalid. rewrite Hall. cbn [parse route_catch].
  exists all. split; [reflexivity|]. apply Hincl. now left.
Qed.

(** Every request the search box of [CardSearch] sends is answered 400 by
    the cards search route: the component sends [q] alone, and the route
    hands the missing [unique] to the schema as [null].  No search reaches
    the card API and no card is cached. *)
Theorem CardSearch_request_is_rejected debouncedQuery searchParams env w db :
  CardSearch_request debouncedQuery = Some searchParams ->
  exists issues,
    CardsSearchRoute.GET searchParams env w db
    = (JsonError 400 {| error := "Invalid request parameters";
                        details := Some issues |}, (w, db))
    /\ In {| issue_path := ["unique"];
             issue_message := "Invalid enum value" |} issues.
Proof.
  unfold CardSearch_request.
  destruct (2 <=? String.length debouncedQuery)%nat; [|discriminate].
  intros [= <-]. now apply GET_without_unique.
Qed.

Lemma CollectionView_request_params currentPage debouncedQuery :
  CollectionSearchRoute.search_params
    (CollectionView_request currentPage debouncedQuery)
  = VObject
      [("q", if truthy_string debouncedQuery then VString debouncedQuery
             else VUndefined);
       ("colors", VUndefined); ("types", VUndefined); ("sets", VUndefined);
       ("cmc_min", VUndefined); ("cmc_max", VUndefined); ("rarity", VUndefined);
       ("sort", VString "name"); ("order", VString "asc");
       ("page", VNumber currentPage); ("limit", VNumber 20)].
Proof.
  unfold CollectionSearchRoute.search_params, CollectionView_request.
  unfold Js.int_param, Js.list_param.
  destruct (truthy_string debouncedQuery) eqn:Htext;
    cbn [app Js.get String.eqb Ascii.eqb Bool.eqb or_string];
    rewrite ?Htext, number_toString_truthy, parseInt_toString;
    reflexivity.
Qed.

Lemma CollectionView_request_validated currentPage debouncedQuery :
  1 <= currentPage ->
  SearchCollectionSchema
    (CollectionSearchRoute.search_params
       (CollectionView_request currentPage debouncedQuery))
  = Ok {| Schemas.q := if truthy_string debouncedQuery
                        then Some debouncedQuery else None;
          Schemas.colors := None; Schemas.types := None; Schemas.sets := None;
          Schemas.cmc_min := None; Schemas.cmc_max := None;
          Schemas.rarity := None;
          Schemas.sort := "name"; Schemas.order := "asc";
          Schemas.page := currentPage; Schemas.limit := 20 |}.
Proof.
  intros Hpage. rewrite CollectionView_request_params.
  unfold SearchCollectionSchema.
  assert (Hp : z_default (z_number_min_max 1 None) 1 ["page"]
                 (VNumber currentPage) = valid currentPage).
  { cbn [z_default z_number_min_max z_number valid].
    destruct (Z.ltb_spec currentPage 1); [lia | reflexivity]. }
  destruct (truthy_string debouncedQuery);
    cbn [field String.eqb Ascii.eqb Bool.eqb];
    rewrite Hp; reflexivity.
Qed.

(** Every request of [CollectionView] for a page from 1 on, as long as
    [currentPage * 20] is a safe integer, passes the schema, whatever the
    text of the search box: a signed-in user whose page query goes through
    is answered 200 with that page number, the limit 20 and at most 20
    rows. *)
Theorem CollectionView_request_is_served holds ordered currentPage
    debouncedQuery auth user faults db :
  1 <= currentPage ->
  currentPage * 20 <= MAX_SAFE_INTEGER ->
  authenticated auth = Some user ->
  faults SelectPage = None ->
  exists response,
    CollectionSearchRoute.GET holds ordered
      (CollectionView_request currentPage debouncedQuery) auth faults db
    = Json 200 response
    /\ CollectionSearchRoute.page (CollectionSearchRoute.pagination response)
       = currentPage
    /\ CollectionSearchRoute.limit (CollectionSearchRoute.pagination response)
       = 20
    /\ (List.length (CollectionSearchRoute.data response) <= 20)%nat.
Proof.
  intros Hpage _ Hauth Hfault.
  unfold CollectionSearchRoute.GET.
  rewrite (CollectionView_request_validated _ _ Hpage), Hauth.
  unfold CollectionSearchRoute.search_collection, CollectionSearchRoute.run,
    request.
  rewrite Hfault. cbn [pg_error pg_data pg_ok].
  eexists. split; [reflexivity|].
  cbn [CollectionSearchRoute.pagination CollectionSearchRoute.page
       CollectionSearchRoute.limit CollectionSearchRoute.data
       Schemas.page Schemas.limit].
  split; [reflexivity|]. split; [reflexivity|].
  unfold CollectionSearchRoute.page_query, CollectionSearchRoute.set_range,
    CollectionSearchRoute.window.
  cbn [CollectionSearchRoute.range].
  rewrite length_firstn.
  etransitivity; [apply Nat.le_min_l|].
  unfold CollectionSearchRoute.offset. cbn [Schemas.page Schemas.limit].
  replace ((currentPage - 1) * 20 + 20 - 1 - (currentPage - 1) * 20 + 1)
    with 20 by lia.
  reflexivity.
Qed.

(** The search box asks for bolt. *)
Lemma CardSearch_request_is_rejected_witness :
  exists issues,
    CardsSearchRoute.GET [("q", "bolt")]
      (EnrichSpec.session_of alice no_faults) (EnrichSpec.serving [bolt])
      alices_db
    = (JsonError 400 {| error := "Invalid request parameters";
                        details := Some issues |},
       (EnrichSpec.serving [bolt], alices_db))
    /\ In {| issue_path := ["unique"];
             issue_message := "Invalid enum value" |} issues.
Proof.
  exact (CardSearch_request_is_rejected "bolt" [("q", "bolt")]
           (EnrichSpec.session_of alice no_faults) (EnrichSpec.serving [bolt])
           alices_db eq_refl).
Defined.

(** Alice opens the second page of her collection, searching for bolt. *)
Lemma CollectionView_request_is_served_witness :
  exists response,
    CollectionSearchRoute.GET QuerySpec.sample_holds QuerySpec.sample_ordered
      (CollectionView_request 2 "bolt") (signed_in alice) no_faults alices_db
    = Json 200 response
    /\ CollectionSearchRoute.page (CollectionSearchRoute.pagination response)
       = 2
    /\ CollectionSearchRoute.limit (CollectionSearchRoute.pagination response)
       = 20
    /\ (List.length (CollectionSearchRoute.data response) <= 20)%nat.
Proof.
  apply (CollectionView_request_is_served QuerySpec.sample_holds
           QuerySpec.sample_ordered 2 "bolt" (signed_in alice) alice no_faults
           alices_db);
    [lia | unfold MAX_SAFE_INTEGER; lia | reflexivity | reflexivity].
Defined.

End Callers.

(** ** The add button: repeated adds of one card *)
Section AddButton.
Import Schemas Database DbSpec Components MoreSpec CollectionAddRoute.

Lemma add_to_collection_well_formed faults user v db :
  well_formed db ->
  well_formed (snd (add_to_collection faults user v db)).
Proof.
  intros Hwf. unfold add_to_collection.
  destruct (pg_error (select_card faults db _)); [exact Hwf|].
  destruct (pg_data (select_card faults db _)); [|exact Hwf].
  destruct (pg_data (select_entry faults db _ _ _ _)) as [existing|].
  - pose proof (update_entry_well_formed faults db (user_id user)
                  (cc_id existing)
                  (cc_quantity existing + Schemas.add_quantity v)
                  (or_option (Schemas.add_notes v) (cc_notes existing)) Hwf)
      as Hu.
    destruct (update_entry _ _ _ _ _ _) as [updated db1].
    now destruct (pg_error updated).
  - pose proof (insert_entry_well_formed faults db (user_id user)
                  (Schemas.add_scryfall_id v) (Schemas.add_quantity v)
                  (Schemas.add_condition v) (Schemas.add_foil v)
                  (Schemas.add_notes v) Hwf) as Hi.
    destruct (insert_entry _ _ _ _ _ _ _ _) as [inserted db1].
    now destruct (pg_error inserted).
Qed.

(** What the schema makes of the body the add button posts. *)
Lemma handleAddToCollection_body_validated scryfall_id :
  is_uuid scryfall_id = true ->
  AddToCollectionSchema (handleAddToCollection_body scryfall_id)
  = Ok {| add_scryfall_id := scryfall_id; add_quantity := 1;
          add_condition := "near_mint"; add_foil := false;
          add_notes := None |}.
Proof.
  intros Huuid. unfold AddToCollectionSchema, handleAddToCollection_body.
  cbn [field String.eqb Ascii.eqb Bool.eqb].
  unfold z_string_uuid. cbn [z_string]. unfold valid at 2. cbv iota beta. rewrite Huuid. reflexivity.
Qed.

Lemma held_app db rows rows' uid id condition foil :
  collection_cards db = (rows ++ rows')%list ->
  held db uid id condition foil
  = fold_right Z.add 0
      (map cc_quantity (filter (same_entry uid id condition foil) rows))
    + fold_right Z.add 0
        (map cc_quantity (filter (same_entry uid id condition foil) rows')).
Proof.
  intros H. unfold held. rewrite H, filter_app, map_app, fold_right_app.
  generalize (fold_right Z.add 0
                (map cc_quantity
                   (filter (same_entry uid id condition foil) rows'))).
  induction (map cc_quantity (filter _ rows)) as [|x l IH]; intros z;
    cbn [fold_right]; [lia | rewrite IH; lia].
Qed.

Lemma filter_same_entry_split db uid id condition foil before existing after :
  well_formed db ->
  collection_cards db = (before ++ existing :: after)%list ->
  same_entry uid id condition foil existing = true ->
  filter (same_entry uid id condition foil) before = []
  /\ filter (same_entry uid id condition foil) after = [].
Proof.
  intros (_ & _ & Hkeys & _) Hrows Hsame.
  rewrite Hrows, map_app in Hkeys. cbn [map] in Hkeys.
  apply NoDup_remove_2 in Hkeys.
  apply same_entry_key in Hsame.
  split; apply filter_none; intros y Hy;
    destruct (same_entry uid id condition foil y) eqn:E; try reflexivity;
    apply same_entry_key in E; exfalso; apply Hkeys; apply in_or_app;
    [left | right]; rewrite Hsame, <- E; now apply in_map.
Qed.

(** One press of the add button, on a card that is cached. *)
Lemma press_once scryfall_id auth user db :
  well_formed db ->
  cached db scryfall_id ->
  is_uuid scryfall_id = true ->
  authenticated auth = Some user ->
  let same := same_entry (user_id user) scryfall_id "near_mint" false in
  let db' := pressed 1 scryfall_id auth db in
  well_formed db'
  /\ cached db' scryfall_id
  /\ held db' (user_id user) scryfall_id "near_mint" false
     = held db (user_id user) scryfall_id "near_mint" false + 1
  /\ List.length (filter same (collection_cards db')) = 1%nat
  /\ filter (fun r => negb (same r)) (collection_cards db')
     = filter (fun r => negb (same r)) (collection_cards db).
Proof.
  intros Hwf Hcached Huuid Hauth same db'.
  pose proof (handleAddToCollection_body_validated _ Huuid) as Hparse.
  assert (Hwf' : well_formed db').
  { subst db'. cbn [pressed]. unfold POST. rewrite Hparse, Hauth.
    pose proof (add_to_collection_well_formed no_faults user
                  {| add_scryfall_id := scryfall_id; add_quantity := 1;
                     add_condition := "near_mint"; add_foil := false;
                     add_notes := None |} db Hwf) as H.
    destruct (add_to_collection _ _ _ _) as [[response|e] db1]; exact H. }
  split; [exact Hwf'|].
  destruct (filter same (collection_cards db)) as [|existing others] eqn:Hf.
  - (* no such entry: the press inserts one *)
    assert (Hnone : forall r, In r (collection_cards db) -> same r = false).
    { intros r Hr. destruct (same r) eqn:E; [|reflexivity].
      assert (In r (filter same (collection_cards db)))
        by (apply filter_In; auto).
      rewrite Hf in H. destruct H. }
    destruct (POST_inserts _ auth db _ user Hwf Hparse Hauth Hcached Hnone)
      as (db1 & Hpost & Hrows & Hcache).
    assert (Hdb' : db' = db1) by (subst db'; cbn [pressed]; now rewrite Hpost).
    rewrite Hdb'.
    assert (Hnew : same (created db (user_id user)
                          {| add_scryfall_id := scryfall_id; add_quantity := 1;
                             add_condition := "near_mint"; add_foil := false;
                             add_notes := None |}) = true).
    { apply same_entry_key. reflexivity. }
    split; [unfold cached; now rewrite Hcache|].
    split; [|split].
    + rewrite (held_app db1 _ _ _ _ _ _ Hrows).
      unfold held. fold same. rewrite Hf. cbn [filter]. fold same.
      rewrite Hnew. reflexivity.
    + rewrite Hrows, filter_app, Hf. cbn [filter]. rewrite Hnew. reflexivity.
    + rewrite Hrows, filter_app. cbn [filter]. rewrite Hnew.
      cbn [negb]. apply app_nil_r.
  - (* the entry exists: the press adds one copy to it *)
    assert (Hin : In existing (filter same (collection_cards db)))
      by (rewrite Hf; now left).
    apply filter_In in Hin as [Hin Hsame].
    destruct (POST_merges _ auth db _ user existing Hwf Hparse Hauth Hcached
                Hin Hsame)
      as (before & after & db1 & Hpost & Hrows & Hrows' & Hcache).
    assert (Hdb' : db' = db1) by (subst db'; cbn [pressed]; now rewrite Hpost).
    rewrite Hdb'.
    destruct (filter_same_entry_split db _ _ _ _ _ _ _ Hwf Hrows Hsame)
      as [Hbefore Hafter].
    fold same in Hbefore, Hafter.
    assert (Hmerged : same (merged existing
                          {| add_scryfall_id := scryfall_id; add_quantity := 1;
                             add_condition := "near_mint"; add_foil := false;
                             add_notes := None |}) = true) by exact Hsame.
    split; [unfold cached; now rewrite Hcache|].
    split; [|split].
    + rewrite (held_app db1 _ _ _ _ _ _ Hrows'), (held_app db _ _ _ _ _ _ Hrows).
      fold same. cbn [filter]. fold same. rewrite Hbefore, Hmerged, Hsame, Hafter.
      cbn [map fold_right merged set_quantity_notes cc_quantity add_quantity].
      lia.
    + rewrite Hrows', filter_app. cbn [filter].
      rewrite Hbefore, Hmerged, Hafter. reflexivity.
    + rewrite Hrows', Hrows, !filter_app. cbn [filter].
      rewrite Hmerged, Hsame. reflexivity.
Qed.

(** The add button of [CardSearch] pressed [k] times on a cached card
    leaves the signed-in user one near-mint, non-foil entry of the
    card holding [k] copies more than before, and no other entry of any
    user is added, removed or changed. *)
Theorem add_button_accumulates k scryfall_id auth user db :
  well_formed db ->
  cached db scryfall_id ->
  is_uuid scryfall_id = true ->
  authenticated auth = Some user ->
  let same := same_entry (user_id user) scryfall_id "near_mint" false in
  let db' := pressed k scryfall_id auth db in
  held db' (user_id user) scryfall_id "near_mint" false
  = held db (user_id user) scryfall_id "near_mint" false + Z.of_nat k
  /\ (k <> 0%nat ->
      List.length (filter same (collection_cards db')) = 1%nat)
  /\ filter (fun r => negb (same r)) (collection_cards db')
     = filter (fun r => negb (same r)) (collection_cards db).
Proof.
  intros Hwf Hcached Huuid Hauth same.
  revert db Hwf Hcached.
  induction k as [|k IH]; intros db Hwf Hcached db'.
  - subst db'. cbn [pressed]. split; [cbn; lia|].
    split; [congruence | reflexivity].
  - destruct (press_once scryfall_id auth user db Hwf Hcached Huuid Hauth)
      as (Hwf1 & Hcached1 & Hheld1 & Hone1 & Hrest1).
    cbn [pressed] in Hwf1, Hcached1, Hheld1, Hone1, Hrest1.
    specialize (IH _ Hwf1 Hcached1). cbv zeta in IH.
    destruct IH as (Hheld & Hone & Hrest).
    subst db'. cbn [pressed].
    split; [rewrite Hheld, Hheld1; lia|].
    split.
    + intros _. destruct k as [|k'].
      * cbn [pressed]. exact Hone1.
      * apply Hone. discriminate.
    + fold same in Hrest1. rewrite Hrest. exact Hrest1.
Qed.

(** Alice, who holds two bolts, presses the button three times. *)
Lemma add_button_accumulates_witness :
  held (pressed 3 bolt_id (signed_in alice) alices_db) "alice" bolt_id
    "near_mint" false
  = 2 + 3
  /\ (3%nat <> 0%nat ->
      List.length
        (filter (same_entry "alice" bolt_id "near_mint" false)
           (collection_cards (pressed 3 bolt_id (signed_in alice) alices_db)))
      = 1%nat)
  /\ filter (fun r => negb (same_entry "alice" bolt_id "near_mint" false r))
       (collection_cards (pressed 3 bolt_id (signed_in alice) alices_db))
     = filter (fun r => negb (same_entry "alice" bolt_id "near_mint" false r))
         (collection_cards alices_db).
Proof.
  exact (add_button_accumulates 3 bolt_id (signed_in alice) alice alices_db
           well_formed_alices_db (cached_bolt _) eq_refl eq_refl).
Defined.

End AddButton.

(** ** The card cache: what is written can be read back *)
Section CardCacheFacts.
Import Database DbSpec.


Lemma upsert_row_same row cache :
  NoDup (map scryfall_id cache) ->
  filter (has_id (scryfall_id row)) (upsert_row row cache) = [row].
Proof.
  intros Hnd. unfold upsert_row.
  assert (Hrow : has_id (scryfall_id row) row = true)
    by (unfold has_id; apply String.eqb_refl).
  destruct (existsb (has_id (scryfall_id row)) cache) eqn:E.
  - apply existsb_exists in E as (c & Hin & Hc).
    destruct (in_split _ _ Hin) as (before & after & ->).
    rewrite map_app in Hnd. cbn [map] in Hnd.
    pose proof (NoDup_remove_2 _ _ _ Hnd) as Hnot.
    assert (Hnone : forall y, In y (before ++ after)%list ->
                              has_id (scryfall_id row) y = false).
    { intros y Hy. unfold has_id in *. apply String.eqb_neq. intros Hy'.
      apply String.eqb_eq in Hc. apply Hnot.
      rewrite Hc, <- Hy', <- map_app. now apply in_map. }
    rewrite map_app, filter_app. cbn [map filter]. rewrite Hc, Hrow.
    rewrite !filter_none; [reflexivity | |].
    + intros y Hy. apply in_map_iff in Hy as (z & <- & Hz).
      rewrite (Hnone z) by (apply in_or_app; now right).
      apply Hnone, in_or_app. now right.
    + intros y Hy. apply in_map_iff in Hy as (z & <- & Hz).
      rewrite (Hnone z) by (apply in_or_app; now left).
      apply Hnone, in_or_app. now left.
  - rewrite filter_app. cbn [filter]. rewrite Hrow.
    rewrite filter_none; [reflexivity|].
    intros y Hy. destruct (has_id (scryfall_id row) y) eqn:E'; [|reflexivity].
    assert (existsb (has_id (scryfall_id row)) cache = true)
      by (apply existsb_exists; eauto).
    congruence.
Qed.



End CardCacheFacts.

(** ** The cards search route: what it touches *)
Section CardsSearchFrame.
Import Database DbSpec CardsSearchRoute MoreSpec.

Lemma upsert_row_cached row cache id :
  In id (map scryfall_id cache) ->
  In id (map scryfall_id (upsert_row row cache)).
Proof.
  intros Hin. unfold upsert_row.
  destruct (existsb (has_id (scryfall_id row)) cache).
  - replace (map scryfall_id
               (map (fun c => if has_id (scryfall_id row) c then row else c)
                  cache))
      with (map scryfall_id cache); [exact Hin|].
    rewrite map_map. apply map_ext. intros c. unfold has_id.
    destruct (String.eqb_spec (scryfall_id c) (scryfall_id row)) as [->|];
      reflexivity.
  - rewrite map_app. apply in_or_app. now left.
Qed.

Lemma kept_refl db : kept db db.
Proof. repeat split; auto. Qed.

Lemma kept_trans db1 db2 db3 : kept db1 db2 -> kept db2 db3 -> kept db1 db3.
Proof.
  intros (A1 & A2 & A3 & A4) (B1 & B2 & B3 & B4).
  repeat split; try congruence. auto.
Qed.

Lemma insertCardToCache_kept faults db card :
  kept db (snd (insertCardToCache faults db card)).
Proof.
  unfold insertCardToCache.
  destruct (faults (UpsertCard (sc_id card))); [apply kept_refl|].
  repeat split; try reflexivity.
  intros id. unfold DbSpec.cached. cbn [snd cards_cache with_cache].
  apply upsert_row_cached.
Qed.

Lemma enhance_kept faults uid now card db :
  kept db (snd (enhance faults uid now card db)).
Proof.
  unfold enhance, enrich.
  destruct (getCardFromCache faults db (sc_id card)) as [c|e].
  - apply kept_refl.
  - pose proof (insertCardToCache_kept faults db card) as H.
    destruct (insertCardToCache faults db card) as [[c|e'] db1]; exact H.
Qed.

Lemma enhance_all_kept faults uid now cards :
  forall db, kept db (snd (enhance_all faults uid now cards db)).
Proof.
  induction cards as [|card rest IH]; intros db; [apply kept_refl|].
  cbn [enhance_all].
  pose proof (enhance_kept faults uid now card db) as H1.
  destruct (enhance faults uid now card db) as [result db1].
  specialize (IH db1).
  destruct (enhance_all faults uid now rest db1) as [results db2].
  eapply kept_trans; eauto.
Qed.

(** Whatever the request, the session, the answers of the card API and
    the failing database requests, a cards search leaves the collection
    table as it was and keeps every cached card cached; a response other
    than 200 leaves the whole database as it was; and a response of 400 or
    401 is sent before any request to the card API. *)
Theorem GET_frame searchParams env w db :
  let response := fst (GET searchParams env w db) in
  let w' := fst (snd (GET searchParams env w db)) in
  let db' := snd (snd (GET searchParams env w db)) in
  collection_cards db' = collection_cards db
  /\ next_id db' = next_id db
  /\ (forall id, DbSpec.cached db id -> DbSpec.cached db' id)
  /\ (http_status response <> 200 -> db' = db)
  /\ (http_status response = 400 \/ http_status response = 401 -> w' = w).
Proof.
  cbv zeta. unfold GET.
  destruct (Schemas.SearchCardsSchema _) as [v|e].
  2:{ cbn [fst snd]. repeat split; auto. }
  destruct (authenticated _) as [user|].
  2:{ cbn [fst snd]. repeat split; auto. }
  destruct (Scryfall.searchCards _ _ _) as [[searchResult|e] w1] eqn:Hsearch.
  2:{ destruct (searchCards_throws _ _ _ _ _ Hsearch) as (message & ->).
      cbn [fst snd route_catch http_status]. repeat split; auto.
      intros [H | H]; discriminate. }
  destruct (service_key env).
  2:{ cbn [fst snd route_catch http_status]. repeat split; auto.
      intros [H | H]; discriminate. }
  pose proof (enhance_all_kept (faults env) (user_id user) (now env)
                (data searchResult) db) as (H1 & H2 & _ & H4).
  destruct (enhance_all _ _ _ _ _) as [results db1].
  cbn [fst snd http_status] in *.
  repeat split; auto; try congruence.
  intros [H | H]; discriminate.
Qed.

Lemma getCardFromCache_cached faults db id :
  NoDup (map scryfall_id (cards_cache db)) ->
  faults (SelectCard id) = None ->
  DbSpec.cached db id ->
  exists c, getCardFromCache faults db id = Ok c /\ In c (cards_cache db).
Proof.
  intros Hnd Hf Hin. unfold DbSpec.cached in Hin.
  apply in_map_iff in Hin as (c & Hc & Hin).
  exists c. split; [|exact Hin].
  unfold getCardFromCache, select_card, request. rewrite Hf.
  rewrite (filter_NoDup_single scryfall_id (has_id id) (cards_cache db) c);
    auto.
  - unfold has_id. now apply String.eqb_eq.
  - unfold has_id. intros y _ Hy. apply String.eqb_eq in Hy. congruence.
Qed.

Lemma getCardFromCache_missing faults db id :
  ~ DbSpec.cached db id -> exists e, getCardFromCache faults db id = Throw e.
Proof.
  intros Hnot. unfold getCardFromCache, withErrorHandling.
  rewrite (select_card_missing faults db id Hnot).
  destruct (pg_error _); eauto.
Qed.

Lemma find_missing db id :
  ~ DbSpec.cached db id -> find (has_id id) (cards_cache db) = None.
Proof.
  intros Hnot. destruct (find _ _) as [c|] eqn:E; [|reflexivity].
  apply find_some in E as [Hin Hc]. exfalso. apply Hnot.
  unfold DbSpec.cached, has_id in *. apply String.eqb_eq in Hc. rewrite <- Hc.
  now apply in_map.
Qed.

(** The callback of one card when the cache requests go through: a cached
    card is served as stored and nothing is written; a card that is not
    cached is appended, built from the payload. *)
Lemma enhance_reads_through faults uid now card db :
  NoDup (map scryfall_id (cards_cache db)) ->
  (forall id, faults (SelectCard id) = None /\ faults (UpsertCard id) = None) ->
  let result := fst (enhance faults uid now card db) in
  let db' := snd (enhance faults uid now card db) in
  exists added,
    cards_cache db' = (cards_cache db ++ added)%list
    /\ (added = [] \/ added = [cache_row card None (db_now db)])
    /\ In (CardsSearchRoute.cached result) (cards_cache db')
    /\ NoDup (map scryfall_id (cards_cache db'))
    /\ db_now db' = db_now db.
Proof.
  intros Hnd Hfaults result db'. subst result db'.
  destruct (Hfaults (sc_id card)) as [Hsel Hup].
  unfold enhance, enrich.
  destruct (In_dec string_dec (sc_id card) (map scryfall_id (cards_cache db)))
    as [Hin | Hnot].
  - destruct (getCardFromCache_cached faults db _ Hnd Hsel Hin)
      as (c & -> & Hc).
    exists []. cbn [fst snd CardsSearchRoute.cached]. rewrite app_nil_r.
    repeat split; auto.
  - destruct (getCardFromCache_missing faults db _ Hnot) as (e & ->).
    unfold insertCardToCache. rewrite Hup.
    rewrite (find_missing db _ Hnot).
    set (row := cache_row card None (db_now db)).
    assert (Hnew : upsert_row row (cards_cache db)
                   = (cards_cache db ++ [row])%list).
    { unfold upsert_row.
      destruct (existsb _ _) eqn:E; [|reflexivity].
      apply existsb_exists in E as (c & Hc & E). exfalso. apply Hnot.
      unfold has_id in E. apply String.eqb_eq in E.
      change (scryfall_id row) with (sc_id card) in E. rewrite <- E.
      now apply in_map. }
    pose proof (upsert_row_same row (cards_cache db) Hnd) as Hsame.
    change (scryfall_id row) with (sc_id card) in Hsame.
    cbn [cards_cache with_cache]. rewrite Hsame.
    cbn [withErrorHandling single pg_ok pg_error pg_data fst snd
         CardsSearchRoute.cached cards_cache with_cache db_now].
    exists [row]. rewrite Hnew.
    split; [reflexivity|]. split; [now right|].
    split; [apply in_or_app; right; now left|].
    split; [|reflexivity].
    rewrite <- Hnew. now apply upsert_row_keys.
Qed.

Lemma enhance_all_reads_through faults uid now cards :
  (forall id, faults (SelectCard id) = None /\ faults (UpsertCard id) = None) ->
  forall db,
    NoDup (map scryfall_id (cards_cache db)) ->
    let results := fst (enhance_all faults uid now cards db) in
    let db' := snd (enhance_all faults uid now cards db) in
    exists added,
      cards_cache db' = (cards_cache db ++ added)%list
      /\ Forall (fun row => exists card,
                   In card cards /\ row = cache_row card None (db_now db))
           added
      /\ (forall r, In r results ->
            In (CardsSearchRoute.cached r) (cards_cache db'))
      /\ NoDup (map scryfall_id (cards_cache db')).
Proof.
  intros Hfaults.
  induction cards as [|card rest IH]; intros db Hnd results db';
    subst results db'.
  - exists []. cbn [enhance_all fst snd]. rewrite app_nil_r.
    repeat split; auto. intros r [].
  - cbn [enhance_all].
    destruct (enhance_reads_through faults uid now card db Hnd Hfaults)
      as (added1 & Hcache1 & Hadded1 & Hin1 & Hnd1 & Hnow1).
    destruct (enhance faults uid now card db) as [result db1].
    cbn [fst snd] in Hcache1, Hin1, Hnd1, Hnow1.
    destruct (IH db1 Hnd1) as (added2 & Hcache2 & Hadded2 & Hin2 & Hnd2).
    destruct (enhance_all faults uid now rest db1) as [results db2].
    cbn [fst snd] in *.
    exists (added1 ++ added2)%list.
    split; [rewrite Hcache2, Hcache1; symmetry; apply app_assoc|].
    split; [|split; [|exact Hnd2]].
    + apply Forall_app. split.
      * destruct Hadded1 as [-> | ->]; [constructor|].
        repeat constructor. exists card. split; [now left | reflexivity].
      * eapply Forall_impl; [|exact Hadded2].
        intros row (c & Hc & ->). exists c. split; [now right|].
        now rewrite Hnow1.
    + intros r [<- | Hr]; [|now apply Hin2].
      rewrite Hcache2. apply in_or_app. now left.
Qed.

(** A search that returns a page, when the cache requests go through and
    the cache has one row per identifier: the response is 200; the cache
    afterwards is the cache before followed by rows built from cards of
    the page, so no row that was cached is rewritten or refreshed; and
    every element of the response is a row of the cache afterwards. *)
Theorem GET_reads_through searchParams env w db v user searchResult w' :
  Schemas.SearchCardsSchema (search_params searchParams) = Ok v ->
  authenticated (auth env) = Some user ->
  Scryfall.searchCards (Schemas.search_q v)
    {| Scryfall.unique := Schemas.search_unique v;
       Scryfall.page := Schemas.search_page v;
       Scryfall.include_extras := None;
       Scryfall.include_multilingual := None |} w = (Ok searchResult, w') ->
  service_key env = true ->
  NoDup (map scryfall_id (cards_cache db)) ->
  (forall id, faults env (SelectCard id) = None
              /\ faults env (UpsertCard id) = None) ->
  exists page db' added,
    GET searchParams env w db = (Json 200 page, (w', db'))
    /\ cards_cache db' = (cards_cache db ++ added)%list
    /\ Forall (fun row => exists card,
                 In card (data searchResult)
                 /\ row = cache_row card None (db_now db)) added
    /\ (forall r, In r (page_data page) ->
          In (CardsSearchRoute.cached r) (cards_cache db'))
    /\ NoDup (map scryfall_id (cards_cache db')).
Proof.
  intros Hv Hauth Hsearch Hkey Hnd Hfaults.
  rewrite (GET_enhances searchParams env w db v user searchResult w'
             Hv Hauth Hsearch Hkey).
  destruct (enhance_all_reads_through (faults env) (user_id user) (now env)
              (data searchResult) Hfaults db Hnd)
    as (added & H1 & H2 & H3 & H4).
  eexists _, _, added. split; [reflexivity|].
  cbn [page_data]. auto.
Qed.

(** Alice searches; the page has shock, which is not cached, and the
    bolt, which is. *)
Lemma GET_reads_through_witness :
  exists page db' added,
    GET EnrichSpec.bolt_search (EnrichSpec.session_of alice no_faults)
      (EnrichSpec.serving [EnrichSpec.shock; bolt]) alices_db
    = (Json 200 page, (snd (Scryfall.searchCards "lightning bolt"
                              {| Scryfall.unique := Some "cards";
                                 Scryfall.page := None;
                                 Scryfall.include_extras := None;
                                 Scryfall.include_multilingual := None |}
                              (EnrichSpec.serving [EnrichSpec.shock; bolt])),
                        db'))
    /\ cards_cache db' = (cards_cache alices_db ++ added)%list.
Proof.
  destruct (GET_reads_through EnrichSpec.bolt_search
              (EnrichSpec.session_of alice no_faults)
              (EnrichSpec.serving [EnrichSpec.shock; bolt]) alices_db
              {| Schemas.search_q := "lightning bolt";
                 Schemas.search_page := None;
                 Schemas.search_unique := Some "cards" |}
              alice _ _ eq_refl eq_refl eq_refl eq_refl
              (proj1 well_formed_alices_db)
              (fun _ => conj eq_refl eq_refl))
    as (page & db' & added & Hget & Hcache & _).
  exists page, db', added. split; [exact Hget | exact Hcache].
Defined.

End CardsSearchFrame.

(** ** Collection add: what it touches and what it admits *)
Section CollectionAddFrame.
Import Schemas Database DbSpec MoreSpec CollectionAddRoute.

Lemma z_string_uuid_sound path x s :
  z_string_uuid path x = inl s -> is_uuid s = true.
Proof.
  unfold z_string_uuid. destruct (z_string path x) as [s'|]; [|discriminate].
  destruct (is_uuid s') eqn:E; [|discriminate]. now intros [= <-].
Qed.

Lemma z_default_enum_sound options default path x s :
  z_default (z_enum options) default path x = inl s ->
  In default options -> In s options.
Proof.
  unfold z_default, z_enum. intros H Hd.
  destruct x; try discriminate; [now injection H as <-|].
  destruct (existsb (String.eqb s0) options) eqn:E; [|discriminate].
  injection H as <-.
  apply existsb_exists in E as (o & Ho & E). apply String.eqb_eq in E.
  now subst.
Qed.

Lemma z_optional_notes_sound path x o :
  z_optional (z_string_min_max 0 500) path x = inl o ->
  match o with
  | Some notes => (String.length notes <= 500)%nat
  | None => True
  end.
Proof.
  unfold z_optional.
  assert (H : forall s, z_string_min_max 0 500 path x = inl s ->
                        (String.length s <= 500)%nat).
  { unfold z_string_min_max. intros s.
    destruct (z_string path x) as [s'|]; [|discriminate].
    destruct (String.length s' <? 0)%nat; [discriminate|].
    destruct (Nat.ltb_spec 500 (String.length s')); [discriminate|].
    now intros [= <-]. }
  destruct x; try (now intros [= <-]);
    (destruct (z_string_min_max 0 500 path _) as [notes|] eqn:E;
     [|discriminate]; intros [= <-]; now apply H).
Qed.

(** What the handler may rely on once the body has passed the schema. *)
Lemma AddToCollectionSchema_sound body v :
  AddToCollectionSchema body = Ok v ->
  is_uuid (add_scryfall_id v) = true
  /\ 1 <= add_quantity v <= 100
  /\ In (add_condition v) CARD_CONDITIONS
  /\ match add_notes v with
     | Some notes => (String.length notes <= 500)%nat
     | None => True
     end.
Proof.
  unfold AddToCollectionSchema. destruct body; try discriminate.
  unfold parse.
  match goal with |- match ?c with _ => _ end = _ -> _ =>
    destruct c as [v'|] eqn:E; [|discriminate] end.
  intros [= <-].
  repeat match type of E with
         | ap _ _ = inl _ =>
             apply ap_valid in E;
             let g := fresh "g" in let a := fresh "a" in
             let Hx := fresh "Hx" in let Hp := fresh "Hp" in
             destruct E as (g & a & E & Hx & Hp); subst
         end.
  injection E as <-.
  cbn [add_scryfall_id add_quantity add_condition add_notes].
  match goal with
  | Hid : z_string_uuid _ _ = inl _,
    Hq : z_default (z_number_min_max 1 (Some 100)) 1 _ _ = inl _,
    Hc : z_default (z_enum CARD_CONDITIONS) _ _ _ = inl _,
    Hn : z_optional (z_string_min_max 0 500) _ _ = inl _ |- _ =>
      apply z_string_uuid_sound in Hid;
      apply z_default_bounds in Hq; [|lia | intros ? [= <-]; lia];
      apply z_default_enum_sound in Hc; [|cbn; tauto];
      apply z_optional_notes_sound in Hn;
      destruct Hq as [Hlo Hhi]; specialize (Hhi 100 eq_refl)
  end.
  repeat split; auto.
Qed.

Lemma select_card_data faults db id c :
  pg_data (select_card faults db id) = Some c -> cached db id.
Proof.
  unfold select_card, request.
  destruct (faults (SelectCard id)); [discriminate|].
  intros H. apply single_Some in H.
  assert (Hin : In c (filter (has_id id) (cards_cache db)))
    by (rewrite H; now left).
  apply filter_In in Hin as [Hin Hc]. unfold has_id in Hc.
  apply String.eqb_eq in Hc. unfold cached. rewrite <- Hc. now apply in_map.
Qed.

Lemma select_entry_data faults db uid id condition foil existing :
  pg_data (select_entry faults db uid id condition foil) = Some existing ->
  In existing (collection_cards db)
  /\ same_entry uid id condition foil existing = true.
Proof.
  unfold select_entry, request, row_level_auth.
  destruct (faults _); [discriminate|].
  intros H. apply single_Some in H.
  assert (Hin : In existing
                  (filter (same_entry uid id condition foil)
                     (filter (fun r => String.eqb (cc_user_id r) uid)
                        (collection_cards db))))
    by (rewrite H; now left).
  apply filter_In in Hin as [Hin Hsame].
  apply filter_In in Hin as [Hin _]. auto.
Qed.

(** The three things the handler can do to the database after validation
    and authentication: nothing; rewrite the quantity and the notes of the
    rows of the user with the id of the entry it found; append one row.
    The last two come with a response of 200, and only for a cached
    card. *)
Lemma add_to_collection_cases faults user v db :
  let uid := user_id user in
  let out := add_to_collection faults user v db in
  snd out = db
  \/ (exists existing row,
        In existing (collection_cards db)
        /\ same_entry uid (add_scryfall_id v) (add_condition v) (add_foil v)
             existing = true
        /\ cached db (add_scryfall_id v)
        /\ fst out = Ok (Json 200 row)
        /\ snd out
           = with_collection db
               (map (fun r => if targets uid (cc_id existing) r
                              then set_quantity_notes
                                     (cc_quantity existing + add_quantity v)
                                     (or_option (add_notes v)
                                        (cc_notes existing)) r
                              else r)
                  (collection_cards db))
               (next_id db))
  \/ (exists row,
        cached db (add_scryfall_id v)
        /\ fst out = Ok (Json 200 row)
        /\ snd out
           = with_collection db
               (collection_cards db ++ [created db uid v])%list
               (S (next_id db))).
Proof.
  intros uid out. subst out. unfold add_to_collection.
  destruct (pg_error (select_card faults db _)); [now left|].
  destruct (pg_data (select_card faults db _)) as [c|] eqn:Hcard; [|now left].
  apply select_card_data in Hcard.
  destruct (pg_data (select_entry faults db _ _ _ _)) as [existing|] eqn:Hsel.
  - apply select_entry_data in Hsel as [Hin Hsame].
    unfold update_entry.
    destruct (faults (UpdateEntry _)); [now left|].
    match goal with |- context [match ?l with _ => _ end] =>
      destruct l as [|r [|r' rest]] end; cbn [fst snd pg_error pg_fail single];
      try (now left).
    right; left. exists existing. eexists.
    repeat (split; [eassumption || reflexivity|]). reflexivity.
  - unfold insert_entry.
    destruct (faults (InsertEntry _ _ _ _)); [now left|].
    destruct (violates_unique _ _ _ _ _); [now left|].
    right; right. eexists. split; [exact Hcard|]. split; reflexivity.
Qed.

Lemma of_others_update uid id quantity notes rows :
  of_others uid
    (map (fun r => if targets uid id r
                   then set_quantity_notes quantity notes r else r) rows)
  = of_others uid rows.
Proof.
  unfold of_others. induction rows as [|y rows IH]; [reflexivity|].
  cbn [map filter].
  destruct (targets uid id y) eqn:Ht.
  - unfold targets in Ht. apply andb_true_iff in Ht as [Hu _].
    cbn [cc_user_id set_quantity_notes]. rewrite Hu. cbn [negb].
    exact IH.
  - rewrite IH. reflexivity.
Qed.

(** Whatever the body, the session and the failing database requests,
    collection add leaves the card cache as it was, leaves every row that
    is not a row of the signed-in user as it was, and deletes no row; a
    response of 400, 401 or 404 leaves the whole database as it was. *)
Theorem POST_frame body auth faults db :
  let response := fst (POST body auth faults db) in
  let db' := snd (POST body auth faults db) in
  cards_cache db' = cards_cache db
  /\ match authenticated auth with
     | Some user =>
         of_others (user_id user) (collection_cards db')
         = of_others (user_id user) (collection_cards db)
     | None => db' = db
     end
  /\ (List.length (collection_cards db) <= List.length (collection_cards db'))%nat
  /\ (http_status response = 400 \/ http_status response = 401
      \/ http_status response = 404 -> db' = db).
Proof.
  cbv zeta. unfold POST.
  destruct body as [body|].
  2:{ cbn [fst snd]. repeat split; auto; destruct (authenticated auth); auto. }
  destruct (AddToCollectionSchema body) as [v|e].
  2:{ cbn [fst snd]. repeat split; auto; destruct (authenticated auth); auto. }
  destruct (authenticated auth) as [user|].
  2:{ cbn [fst snd]. repeat split; auto. }
  pose proof (add_to_collection_cases faults user v db) as Hcases.
  cbv zeta in Hcases.
  destruct (add_to_collection faults user v db) as [r db1].
  cbn [fst snd] in Hcases.
  assert (Hdone : forall r' : NextResponse (option CollectionRow), db1 = db ->
            cards_cache (snd (r', db1)) = cards_cache db
            /\ of_others (user_id user) (collection_cards (snd (r', db1)))
               = of_others (user_id user) (collection_cards db)
            /\ (List.length (collection_cards db)
                <= List.length (collection_cards (snd (r', db1))))%nat
            /\ (http_status (fst (r', db1)) = 400
                \/ http_status (fst (r', db1)) = 401
                \/ http_status (fst (r', db1)) = 404 -> snd (r', db1) = db)).
  { intros r' ->. cbn [snd]. repeat split; auto. }
  destruct Hcases as [Hsame | [(existing & row & _ & _ & _ & Hr & Hdb)
                              | (row & _ & Hr & Hdb)]].
  - destruct r as [response|e]; apply Hdone, Hsame.
  - subst r db1. cbn [fst snd cards_cache collection_cards with_collection
                       http_status].
    split; [reflexivity|]. split; [|split].
    + apply of_others_update.
    + rewrite length_map. apply Nat.le_refl.
    + intros [H | [H | H]]; discriminate.
  - subst r db1. cbn [fst snd cards_cache collection_cards with_collection
                       http_status].
    split; [reflexivity|]. split; [|split].
    + unfold of_others. rewrite filter_app. cbn [filter created cc_user_id].
      rewrite String.eqb_refl. cbn [negb]. apply app_nil_r.
    + rewrite length_app. lia.
    + intros [H | [H | H]]; discriminate.
Qed.

Lemma admitted_cache db db' r :
  (forall id, cached db id -> cached db' id) ->
  admitted db r -> admitted db' r.
Proof.
  intros Hc (H1 & H2 & H3 & H4 & H5). repeat split; auto.
Qed.

(** Whatever the body, the session and the failing database requests,
    collection add keeps the rows of the collection table admissible:
    every row holds at least one copy, in a condition of
    [CARD_CONDITIONS], of a card whose identifier has the shape of a uuid
    and a row in the card cache, with notes of at most 500 characters. *)
Theorem POST_admits body auth faults db :
  Forall (admitted db) (collection_cards db) ->
  let db' := snd (POST body auth faults db) in
  Forall (admitted db') (collection_cards db').
Proof.
  intros Hall. cbv zeta. unfold POST.
  destruct body as [body|]; [|exact Hall].
  destruct (AddToCollectionSchema body) as [v|e] eqn:Hparse; [|exact Hall].
  destruct (authenticated auth) as [user|]; [|exact Hall].
  destruct (AddToCollectionSchema_sound _ _ Hparse)
    as (Huuid & Hq & Hcondition & Hnotes).
  pose proof (add_to_collection_cases faults user v db) as Hcases.
  cbv zeta in Hcases.
  destruct (add_to_collection faults user v db) as [r db1].
  cbn [fst snd] in Hcases.
  assert (Hgoal : Forall (admitted db1) (collection_cards db1)).
  { destruct Hcases as [-> | [(existing & row & Hin & _ & _ & _ & ->)
                              | (row & Hcached & _ & ->)]].
    - exact Hall.
    - cbn [collection_cards with_collection].
      rewrite Forall_forall in Hall.
      pose proof (Hall existing Hin) as (He1 & _ & _ & _ & He5).
      apply Forall_forall. intros y Hy.
      apply in_map_iff in Hy as (x & <- & Hx).
      apply (admitted_cache db); [auto|].
      destruct (Hall x Hx) as (H1 & H2 & H3 & H4 & H5).
      destruct (targets _ _ x); [|repeat split; auto].
      repeat split; auto; cbn [cc_quantity cc_notes set_quantity_notes];
        [lia|].
      unfold or_option. destruct (truthy (add_notes v)); assumption.
    - cbn [collection_cards with_collection].
      apply Forall_app. split.
      + eapply Forall_impl; [|exact Hall].
        intros y. apply admitted_cache. auto.
      + constructor; [|constructor].
        repeat split; cbn [created cc_quantity cc_condition
                             cc_scryfall_id cc_notes]; auto; lia. }
  destruct r; exact Hgoal.
Qed.

(** A valid add by a signed-in user is answered 404 exactly when the
    card has no row in the cache.  Whatever requests fail, a card that is
    not cached gets 404 and the database stays as it was; a card that is
    cached, in one row that the cache check can read, never gets 404. *)
Theorem POST_not_found body auth faults db v user :
  AddToCollectionSchema body = Ok v ->
  authenticated auth = Some user ->
  (~ cached db (add_scryfall_id v) ->
   POST (Some body) auth faults db
   = (JsonError 404 {| error := "Card not found in database";
                       details := None |}, db))
  /\ (cached db (add_scryfall_id v) ->
      NoDup (map scryfall_id (cards_cache db)) ->
      faults (SelectCard (add_scryfall_id v)) = None ->
      http_status (fst (POST (Some body) auth faults db)) <> 404).
Proof.
  intros Hparse Hauth. split.
  - intros Hnot. unfold POST. rewrite Hparse, Hauth.
    unfold add_to_collection.
    rewrite (select_card_missing faults db _ Hnot).
    destruct (pg_error _); reflexivity.
  - intros Hin Hnd Hf. unfold POST. rewrite Hparse, Hauth.
    destruct (add_to_collection faults user v db) as [[response|e] db1] eqn:E.
    + cbn [fst]. revert E. unfold add_to_collection.
      assert (Hsel : exists c, select_card faults db (add_scryfall_id v)
                               = pg_ok c).
      { unfold cached in Hin. apply in_map_iff in Hin as (c & Hc & Hin).
        exists c. unfold select_card, request. rewrite Hf.
        rewrite (filter_NoDup_single scryfall_id (has_id (add_scryfall_id v))
                   (cards_cache db) c); auto.
        - unfold has_id. now apply String.eqb_eq.
        - unfold has_id. intros y _ Hy. apply String.eqb_eq in Hy.
          congruence. }
      destruct Hsel as (c & ->). cbn [pg_error pg_data pg_ok].
      destruct (pg_data (select_entry faults db _ _ _ _)) as [existing|].
      * destruct (update_entry _ _ _ _ _ _) as [updated db2].
        destruct (pg_error updated); [discriminate|].
        intros [= <- _]. discriminate.
      * destruct (insert_entry _ _ _ _ _ _ _ _) as [inserted db2].
        destruct (pg_error inserted); [discriminate|].
        intros [= <- _]. discriminate.
    + destruct (add_to_collection_throws _ _ _ _ _ _ E) as (message & ->).
      discriminate.
Qed.

(** Alice, whose one row is admissible, adds a foil bolt. *)
Lemma POST_admits_witness :
  Forall (admitted (snd (POST (Some (add_body 1 true VUndefined))
                           (signed_in alice) no_faults alices_db)))
    (collection_cards (snd (POST (Some (add_body 1 true VUndefined))
                              (signed_in alice) no_faults alices_db))).
Proof.
  apply (POST_admits (Some (add_body 1 true VUndefined)) (signed_in alice)
           no_faults alices_db).
  constructor; [|constructor].
  repeat split; [cbn; lia | cbn; tauto | apply cached_bolt | cbn; lia].
Defined.

(** Alice adds shock, which nobody has searched for yet. *)
Lemma POST_not_found_witness :
  POST (Some (VObject [("scryfall_id", VString (sc_id EnrichSpec.shock))]))
    (signed_in alice) no_faults alices_db
  = (JsonError 404 {| error := "Card not found in database";
                      details := None |}, alices_db).
Proof.
  apply (POST_not_found
           (VObject [("scryfall_id", VString (sc_id EnrichSpec.shock))])
           (signed_in alice) no_faults alices_db
           {| add_scryfall_id := sc_id EnrichSpec.shock; add_quantity := 1;
              add_condition := "near_mint"; add_foil := false;
              add_notes := None |}
           alice eq_refl eq_refl).
  intros [H | []]. discriminate H.
Defined.

End CollectionAddFrame.

(** ** Walking the pages of a collection search *)
Section Pages.
Import Database CollectionSearchRoute MoreSpec.

Variable holds : Filter -> CollectionRow -> bool.
Variable ordered : string -> bool -> list CollectionRow -> list CollectionRow.

Lemma firstn_skipn_app {A} (a b : nat) (l : list A) :
  (firstn a l ++ firstn b (skipn a l))%list = firstn (a + b) l.
Proof.
  revert l. induction a as [|a IH]; intros l; [reflexivity|].
  destruct l as [|x l]; cbn [firstn skipn Nat.add app].
  - now rewrite firstn_nil.
  - now rewrite IH.
Qed.

Lemma firstn_skipn_nonempty {A} (a b : nat) (l : list A) :
  (0 < b)%nat ->
  firstn b (skipn a l) <> [] <-> (a < List.length l)%nat.
Proof.
  intros Hb. split.
  - intros H. destruct (Nat.lt_ge_cases a (List.length l)) as [|Hge]; [assumption|].
    rewrite skipn_all2 in H by assumption. now rewrite firstn_nil in H.
  - intros Hlt H. apply (f_equal (@List.length A)) in H.
    rewrite length_firstn, length_skipn in H. cbn [List.length] in H. lia.
Qed.

(** The response to the search [params] asked for page [p]. *)
Lemma search_collection_on_page user params db p :
  search_collection holds ordered no_faults user (on_page params p) db
  = let n := Schemas.limit params in
    let selected :=
      matching holds (page_query (user_id user) params) (user_id user) db in
    Ok (Json 200
          {| data :=
               firstn (Z.to_nat ((p - 1) * n + n - 1 - (p - 1) * n + 1))
                 (skipn (Z.to_nat ((p - 1) * n))
                    (ordered (sortColumn (Schemas.sort params))
                       (String.eqb (Schemas.order params) "asc") selected));
             pagination :=
               {| page := p; limit := n;
                  total := Z.of_nat (List.length selected);
                  hasMore := p * n <? Z.of_nat (List.length selected) |} |}).
Proof.
  unfold search_collection, run, run_count, request, no_faults.
  cbn [pg_error pg_data pg_ok count_or_0].
  rewrite (matching_same_filters holds _ _ _ _
             (count_query_same_filters (user_id user) (on_page params p))).
  reflexivity.
Qed.

(** [hasMore] tells the truth about the next page: for a query engine
    whose ordering neither adds nor drops rows, the response to page [p]
    says [hasMore] exactly when the response to page [p + 1] of the same
    search has at least one row.  The flag comes from the count query and
    the rows from the page query. *)
Theorem hasMore_iff_next_page user params db p :
  (forall column ascending rows,
     List.length (ordered column ascending rows) = List.length rows) ->
  1 <= p ->
  1 <= Schemas.limit params ->
  let response_to p :=
    search_collection holds ordered no_faults user (on_page params p) db in
  hasMore_of (response_to p) = true <-> rows_of (response_to (p + 1)) <> [].
Proof.
  intros Hordered Hp Hn response_to. subst response_to. cbv beta.
  rewrite !search_collection_on_page. cbv zeta.
  cbn [hasMore_of rows_of hasMore pagination data].
  set (n := Schemas.limit params) in *.
  set (selected := matching holds _ _ _).
  rewrite firstn_skipn_nonempty by lia.
  rewrite Hordered, Z.ltb_lt.
  replace (p + 1 - 1) with p by lia. nia.
Qed.

End Pages.

Section PagesInTurn.
Import Database CollectionSearchRoute MoreSpec.

(** The requests for the pages are separate requests: each finds the
    database as it is then ([db_at p]) and gets the selection in the order
    the engine gives it then ([ordered_at p]).  The route sorts on one
    column and adds no tie-break. *)
Variable holds : Filter -> CollectionRow -> bool.
Variable ordered_at :
  Z -> string -> bool -> list CollectionRow -> list CollectionRow.
Variable db_at : Z -> Db.

(** Walking the pages.  If the requests for pages 1 to [k] of a search all
    find the same rows in the same order, [sorted], (the table does not
    change in between and the engine breaks ties the same way each time)
    and [k * limit] is a safe integer, then the rows of the [k] pages, one
    page after the other, are the first [k * limit] rows of [sorted]: no
    row is skipped and none comes twice. *)
Theorem pages_tile user params k sorted :
  1 <= Schemas.limit params ->
  Z.of_nat k * Schemas.limit params <= MAX_SAFE_INTEGER ->
  (forall p,
     1 <= p <= Z.of_nat k ->
     ordered_at p (sortColumn (Schemas.sort params))
       (String.eqb (Schemas.order params) "asc")
       (matching holds (page_query (user_id user) params) (user_id user)
          (db_at p))
     = sorted) ->
  let response_to p :=
    search_collection holds (ordered_at p) no_faults user (on_page params p)
      (db_at p) in
  first_pages (fun p => rows_of (response_to p)) k
  = firstn (k * Z.to_nat (Schemas.limit params)) sorted.
Proof.
  intros Hn _ Hsame response_to. subst response_to. cbv beta.
  induction k as [|k IH]; [reflexivity|].
  cbn [first_pages]. rewrite IH by (intros p Hp; apply Hsame; lia).
  rewrite search_collection_on_page. cbv zeta. cbn [rows_of data].
  rewrite Hsame by lia.
  set (n := Schemas.limit params) in *.
  replace (Z.to_nat ((Z.of_nat (S k) - 1) * n + n - 1
                     - (Z.of_nat (S k) - 1) * n + 1))
    with (Z.to_nat n) by lia.
  replace (Z.to_nat ((Z.of_nat (S k) - 1) * n)) with (k * Z.to_nat n)%nat
    by nia.
  rewrite firstn_skipn_app. f_equal. lia.
Qed.

End PagesInTurn.

Section PagesClaims.
Import Database CollectionSearchRoute MoreSpec QuerySpec.

Lemma sample_ordered_length column ascending rows :
  List.length (sample_ordered column ascending rows) = List.length rows.
Proof.
  unfold sample_ordered. destruct ascending; [reflexivity | apply length_rev].
Qed.

(** Alice, who has two rows, walks her collection one row a page. *)
Lemma hasMore_iff_next_page_witness :
  hasMore_of
    (search_collection sample_holds sample_ordered no_faults DbSpec.alice
       (on_page
          {| Schemas.q := None; Schemas.colors := None;
             Schemas.types := None; Schemas.sets := None;
             Schemas.cmc_min := None; Schemas.cmc_max := None;
             Schemas.rarity := None; Schemas.sort := "name";
             Schemas.order := "asc"; Schemas.page := 1;
             Schemas.limit := 1 |} 1) DbSpec.alices_foil_db) = true
  <-> rows_of
        (search_collection sample_holds sample_ordered no_faults DbSpec.alice
           (on_page
              {| Schemas.q := None; Schemas.colors := None;
                 Schemas.types := None; Schemas.sets := None;
                 Schemas.cmc_min := None; Schemas.cmc_max := None;
                 Schemas.rarity := None; Schemas.sort := "name";
                 Schemas.order := "asc"; Schemas.page := 1;
                 Schemas.limit := 1 |} (1 + 1)) DbSpec.alices_foil_db) <> [].
Proof.
  apply (hasMore_iff_next_page sample_holds sample_ordered DbSpec.alice
           {| Schemas.q := None; Schemas.colors := None;
              Schemas.types := None; Schemas.sets := None;
              Schemas.cmc_min := None; Schemas.cmc_max := None;
              Schemas.rarity := None; Schemas.sort := "name";
              Schemas.order := "asc"; Schemas.page := 1;
              Schemas.limit := 1 |} DbSpec.alices_foil_db 1
           sample_ordered_length); cbn; lia.
Defined.

(** The first two pages of one row are her two rows. *)
Lemma pages_tile_witness :
  map (fun r => cc_id (entry r))
    (first_pages
       (fun p =>
          rows_of
            (search_collection sample_holds sample_ordered no_faults
               DbSpec.alice
               (on_page
                  {| Schemas.q := None; Schemas.colors := None;
                     Schemas.types := None; Schemas.sets := None;
                     Schemas.cmc_min := None; Schemas.cmc_max := None;
                     Schemas.rarity := None; Schemas.sort := "name";
                     Schemas.order := "asc"; Schemas.page := 1;
                     Schemas.limit := 1 |} p) DbSpec.alices_foil_db)) 2)
  = [1%nat; 2%nat].
Proof.
  rewrite (pages_tile sample_holds (fun _ => sample_ordered)
             (fun _ => DbSpec.alices_foil_db) DbSpec.alice
             {| Schemas.q := None; Schemas.colors := None;
                Schemas.types := None; Schemas.sets := None;
                Schemas.cmc_min := None; Schemas.cmc_max := None;
                Schemas.rarity := None; Schemas.sort := "name";
                Schemas.order := "asc"; Schemas.page := 1;
                Schemas.limit := 1 |} 2 _
             ltac:(cbn; lia) ltac:(unfold MAX_SAFE_INTEGER; cbn; lia)
             (fun _ _ => eq_refl)).
  reflexivity.
Defined.

(** Without that condition a row can come twice: the two rows of Alice tie
    on the sort column, the engine returns them in one order for the first
    page and in the other for the second, and both pages of one row show
    the same row. *)
Lemma pages_repeat_a_row_when_ties_break_differently :
  map (fun r => cc_id (entry r))
    (first_pages
       (fun p =>
          rows_of
            (search_collection sample_holds (fickle_ordered p) no_faults
               DbSpec.alice
               (on_page
                  {| Schemas.q := None; Schemas.colors := None;
                     Schemas.types := None; Schemas.sets := None;
                     Schemas.cmc_min := None; Schemas.cmc_max := None;
                     Schemas.rarity := None; Schemas.sort := "name";
                     Schemas.order := "asc"; Schemas.page := 1;
                     Schemas.limit := 1 |} p) DbSpec.alices_foil_db)) 2)
  = [1%nat; 1%nat].
Proof. vm_compute. reflexivity. Qed.

End PagesClaims.

(** ** The gateway as a whole *)
Section Gateway.
Import Scryfall Schemas ScryfallLookups FetchSpec GatewaySpec.

Variable json : Response -> option Value.
Variable arrayBuffer : Response -> option Blob.

(** Every method of the gateway is one call of [rateLimitedFetch], for a
    request that depends on its arguments only. *)
Lemma perform_is_one_fetch op :
  exists url, forall w,
    perform json arrayBuffer op w = snd (rateLimitedFetch url w).
Proof.
  destruct op; cbn [perform];
    unfold getCard, getCardByName, getCardByFuzzyName, lookup, getSets,
      getAutocomplete, downloadCardImage, fetch_json, advancedSearch,
      searchCards;
    lazymatch goal with
    | |- exists url, forall w, @?lhs w = _ =>
        match lhs with
        | context [rateLimitedFetch ?u] => exists u
        end
    end;
    intros w; destruct (rateLimitedFetch _ w) as [r w1]; reflexivity.
Qed.

Lemma rateLimitedFetch_on_dispatches server url :
  forall t,
    (List.length (dispatches t)
     < List.length (dispatches (fst (snd (rateLimitedFetch_on server url t)))))%nat.
Proof.
  induction server as [|x rest IH]; intros t; cbn [rateLimitedFetch_on].
  - cbn [fst snd dispatches stamp_and_dispatch List.length].
    destruct (throttle_frame t) as (_ & -> & _). lia.
  - assert (H0 : List.length (dispatches
                    (stamp_and_dispatch url (throttle t)))
                 = S (List.length (dispatches t))).
    { cbn [dispatches stamp_and_dispatch List.length].
      now destruct (throttle_frame t) as (_ & -> & _). }
    destruct (negb (ok (respond x url))).
    + destruct (status (respond x url) =? 429).
      * eapply Nat.lt_trans; [|apply IH].
        cbn [dispatches setTimeout elapse]. lia.
      * cbn [fst snd dispatches elapse]. lia.
    + cbn [fst snd dispatches elapse]. lia.
Qed.

(** One caller at a time, over the whole gateway.  Calls of any of the
    eight methods made one after the other, each awaited before the
    next, leave every two consecutive dispatches (retries included) at
    least [REQUEST_DELAY] apart, and every call dispatches at least one
    request: no method answers from memory. *)
Theorem gateway_in_turn_paced ops :
  forall w,
    paced (timing w) ->
    let w' := in_turn json arrayBuffer ops w in
    paced (timing w')
    /\ (List.length (dispatches (timing w)) + List.length ops
        <= List.length (dispatches (timing w')))%nat.
Proof.
  induction ops as [|op rest IH]; intros w Hw; cbv zeta.
  - cbn [in_turn List.length]. split; [exact Hw | lia].
  - cbn [in_turn List.length].
    destruct (perform_is_one_fetch op) as (url & Hop). rewrite Hop.
    pose proof (rateLimitedFetch_paced url w Hw) as Hpaced.
    assert (Hsent : (List.length (dispatches (timing w))
                     < List.length (dispatches
                         (timing (snd (rateLimitedFetch url w)))))%nat).
    { unfold rateLimitedFetch.
      pose proof (rateLimitedFetch_on_dispatches (server w) url (timing w)) as H.
      destruct (rateLimitedFetch_on (server w) url (timing w)) as [r [t s]].
      exact H. }
    destruct (IH _ Hpaced) as [H1 H2]. split; [exact H1 | lia].
Qed.

Lemma rateLimitedFetch_Ok url w response w1 :
  rateLimitedFetch url w = (Ok response, w1) -> ok response = true.
Proof.
  unfold rateLimitedFetch.
  destruct (rateLimitedFetch_on (server w) url (timing w)) as [r [t s]] eqn:E.
  intros [= -> _]. eapply rateLimitedFetch_on_Ok, E.
Qed.

(** [getAutocomplete] never throws.  Whatever the server does (errors,
    timeouts, bodies that are not JSON, error objects, null), it returns:
    either the empty list, or the [data] member of the document of a 2xx
    response, when that member is truthy and the document is not an error
    object. *)
Theorem getAutocomplete_never_throws query w :
  exists suggestions,
    fst (getAutocomplete json query w) = Ok suggestions
    /\ (suggestions = VArray []
        \/ exists response data object,
             ok response = true
             /\ json response = Some data
             /\ member "object" data = Ok object
             /\ is_string object "error" = false
             /\ member "data" data = Ok suggestions
             /\ truthy_value suggestions = true).
Proof.
  unfold getAutocomplete, fetch_json.
  destruct (rateLimitedFetch _ w) as [[response|e] w1] eqn:Hfetch;
    cbn [fst bindR try_catch]; [|eauto].
  apply rateLimitedFetch_Ok in Hfetch.
  destruct (json response) as [data|] eqn:Hjson; cbn [bindR try_catch];
    [|eauto].
  destruct (member "object" data) as [object|e] eqn:Hobject;
    cbn [bindR try_catch]; [|eauto].
  destruct (is_string object "error") eqn:Herror; cbn [try_catch]; [eauto|].
  destruct (member "data" data) as [d|e] eqn:Hdata; cbn [bindR try_catch];
    [|eauto].
  unfold or_empty_array. destruct (truthy_value d) eqn:Htruthy; [|eauto].
  exists d. split; [reflexivity|]. right. exists response, data, object.
  auto 10.
Qed.

Lemma lookup_returns url w data :
  fst (lookup json url w) = Ok data ->
  exists response object,
    ok response = true
    /\ json response = Some data
    /\ member "object" data = Ok object
    /\ is_string object "error" = false.
Proof.
  unfold lookup, fetch_json.
  destruct (rateLimitedFetch _ w) as [[response|e] w1] eqn:Hfetch;
    cbn [fst bindR try_catch]; [|discriminate].
  apply rateLimitedFetch_Ok in Hfetch.
  destruct (json response) as [d|] eqn:Hjson; cbn [bindR try_catch];
    [|discriminate].
  destruct (member "object" d) as [object|e] eqn:Hobject;
    cbn [bindR try_catch]; [|discriminate].
  destruct (is_string object "error") eqn:Herror.
  - destruct (member "details" d); discriminate.
  - cbn [try_catch]. intros [= <-]. eauto 10.
Qed.

Lemma getSets_returns w sets :
  fst (getSets json w) = Ok sets ->
  exists response data object,
    ok response = true
    /\ json response = Some data
    /\ member "object" data = Ok object
    /\ is_string object "error" = false
    /\ (sets = VArray []
        \/ member "data" data = Ok sets /\ truthy_value sets = true).
Proof.
  unfold getSets, fetch_json.
  destruct (rateLimitedFetch _ w) as [[response|e] w1] eqn:Hfetch;
    cbn [fst bindR try_catch]; [|discriminate].
  apply rateLimitedFetch_Ok in Hfetch.
  destruct (json response) as [d|] eqn:Hjson; cbn [bindR try_catch];
    [|discriminate].
  destruct (member "object" d) as [object|e] eqn:Hobject;
    cbn [bindR try_catch]; [|discriminate].
  destruct (is_string object "error") eqn:Herror.
  - destruct (member "details" d); discriminate.
  - destruct (member "data" d) as [listed|e] eqn:Hdata;
      cbn [bindR try_catch]; [|discriminate].
    unfold or_empty_array.
    destruct (truthy_value listed) eqn:Htruthy; intros [= <-];
      exists response, d, object; auto 10.
Qed.

Lemma downloadCardImage_returns imageUrl w bytes :
  fst (downloadCardImage arrayBuffer imageUrl w) = Ok bytes ->
  exists response, ok response = true /\ arrayBuffer response = Some bytes.
Proof.
  unfold downloadCardImage.
  destruct (rateLimitedFetch _ w) as [[response|e] w1] eqn:Hfetch;
    cbn [fst bindR try_catch]; [|discriminate].
  apply rateLimitedFetch_Ok in Hfetch.
  destruct (arrayBuffer response) as [b|] eqn:Hbytes; [|discriminate].
  intros [= <-]. eauto.
Qed.

(** The gateway hands out only what a 2xx response carried.  What
    [getCard], [getCardByName] and [getCardByFuzzyName] return is the
    document of a 2xx response, it is not null, and its [object] member
    is not ['error']: an error object is never handed out as a card.  What
    [getSets] returns is the empty list or the truthy [data] member of
    such a document, and what [downloadCardImage] returns is the body of
    a 2xx response. *)
Theorem gateway_returns_2xx_documents scryfallId name set imageUrl :
  let returns_cards (method : Net -> Res Value * Net) :=
    forall w data,
      fst (method w) = Ok data ->
      exists response object,
        ok response = true
        /\ json response = Some data
        /\ member "object" data = Ok object
        /\ is_string object "error" = false in
  returns_cards (getCard json scryfallId)
  /\ returns_cards (getCardByName json name set)
  /\ returns_cards (getCardByFuzzyName json name)
  /\ (forall w sets,
        fst (getSets json w) = Ok sets ->
        exists response data object,
          ok response = true
          /\ json response = Some data
          /\ member "object" data = Ok object
          /\ is_string object "error" = false
          /\ (sets = VArray []
              \/ member "data" data = Ok sets /\ truthy_value sets = true))
  /\ (forall w bytes,
        fst (downloadCardImage arrayBuffer imageUrl w) = Ok bytes ->
        exists response,
          ok response = true /\ arrayBuffer response = Some bytes).
Proof.
  cbv zeta. unfold getCard, getCardByName, getCardByFuzzyName.
  repeat split;
    try (intros w data; apply lookup_returns);
    [apply getSets_returns | apply downloadCardImage_returns].
Qed.

End Gateway.

Section GatewayClaims.
Import Scryfall FetchSpec GatewaySpec.

(** A lookup, an autocompletion that is rate limited once, and the list of
    sets, against a server that answers with documents no method can
    read. *)
Lemma gateway_in_turn_paced_witness :
  paced (timing (in_turn (fun _ => Some Schemas.VNull) (fun _ => None)
                   [GetCard DbSpec.bolt_id; GetAutocomplete "bol"; GetSets]
                   (facing [no_cards; too_many_requests; no_cards; no_cards])))
  /\ (0 + 3
      <= List.length
           (dispatches
              (timing (in_turn (fun _ => Some Schemas.VNull) (fun _ => None)
                         [GetCard DbSpec.bolt_id; GetAutocomplete "bol"; GetSets]
                         (facing [no_cards; too_many_requests; no_cards;
                                  no_cards])))))%nat.
Proof.
  exact (gateway_in_turn_paced (fun _ => Some Schemas.VNull) (fun _ => None)
           [GetCard DbSpec.bolt_id; GetAutocomplete "bol"; GetSets]
           (facing [no_cards; too_many_requests; no_cards; no_cards])
           paced_fresh_timing).
Defined.

End GatewayClaims.

(** ** What the cards search route sends to the card API *)
Section Sent.
Import Schemas Database CardsSearchRoute.

Lemma rateLimitedFetch_on_sent server url :
  forall t, exists times,
    times <> []
    /\ Scryfall.dispatches (fst (snd (Scryfall.rateLimitedFetch_on server url t)))
       = (map (fun time => (time, url)) times ++ Scryfall.dispatches t)%list.
Proof.
  induction server as [|x rest IH]; intros t; cbn [Scryfall.rateLimitedFetch_on].
  - exists [Scryfall.clock (Scryfall.throttle t)]. split; [discriminate|].
    cbn [fst snd Scryfall.dispatches Scryfall.stamp_and_dispatch map app].
    now destruct (throttle_frame t) as (_ & -> & _).
  - assert (H0 : Scryfall.dispatches
                   (Scryfall.stamp_and_dispatch url (Scryfall.throttle t))
                 = (Scryfall.clock (Scryfall.throttle t), url)
                   :: Scryfall.dispatches t).
    { cbn [Scryfall.dispatches Scryfall.stamp_and_dispatch].
      now destruct (throttle_frame t) as (_ & -> & _). }
    destruct (negb (Scryfall.ok (Scryfall.respond x url))).
    + destruct (Scryfall.status (Scryfall.respond x url) =? 429).
      * destruct (IH (Scryfall.setTimeout 1000
                        (Scryfall.elapse (Scryfall.latency x)
                           (Scryfall.stamp_and_dispatch url
                              (Scryfall.throttle t)))))
          as (times & Hne & ->).
        exists (times ++ [Scryfall.clock (Scryfall.throttle t)])%list.
        split; [destruct times; discriminate|].
        cbn [Scryfall.dispatches Scryfall.setTimeout Scryfall.elapse].
        rewrite H0, map_app, <- app_assoc. reflexivity.
      * exists [Scryfall.clock (Scryfall.throttle t)]. split; [discriminate|].
        cbn [fst snd Scryfall.dispatches Scryfall.elapse]. now rewrite H0.
    + exists [Scryfall.clock (Scryfall.throttle t)]. split; [discriminate|].
      cbn [fst snd Scryfall.dispatches Scryfall.elapse]. now rewrite H0.
Qed.

Lemma z_optional_enum_sound options path x o :
  z_optional (z_enum options) path x = inl o ->
  match o with
  | Some s => x = VString s /\ In s options
  | None => x = VUndefined
  end.
Proof.
  unfold z_optional, z_enum.
  destruct x; try discriminate; [now intros [= <-]|].
  destruct (existsb (String.eqb s) options) eqn:E; [|discriminate].
  intros [= <-]. split; [reflexivity|].
  apply existsb_exists in E as (o' & Ho & E). apply String.eqb_eq in E.
  now subst.
Qed.

Lemma z_string_min_max_sound lo hi path x s :
  z_string_min_max lo hi path x = inl s ->
  x = VString s /\ (lo <= String.length s <= hi)%nat.
Proof.
  unfold z_string_min_max, z_string.
  destruct x; try discriminate. unfold valid.
  destruct (Nat.ltb_spec (String.length s0) lo); [discriminate|].
  destruct (Nat.ltb_spec hi (String.length s0)); [discriminate|].
  intros [= <-]. split; [reflexivity | lia].
Qed.

Lemma z_optional_number_sound lo hi path x o :
  z_optional (z_number_min_max lo (Some hi)) path x = inl o ->
  match o with
  | Some n => x = VNumber n /\ lo <= n <= hi
  | None => x = VUndefined
  end.
Proof.
  unfold z_optional.
  destruct x; try (now intros [= <-]);
    (destruct (z_number_min_max lo (Some hi) path _) as [m|] eqn:E;
     [|discriminate]; intros [= <-]);
    pose proof (z_number_min_max_bounds _ _ _ _ _ E) as [Hlo Hhi];
    specialize (Hhi hi eq_refl);
    unfold z_number_min_max, z_number in E; try discriminate.
  split; [|lia]. unfold valid, invalid in E.
  destruct (n <? lo); [discriminate|]. destruct (hi <? n); [discriminate|].
  now injection E as ->.
Qed.

(** What a validated cards search says about the query string. *)
Lemma SearchCardsSchema_sound searchParams v :
  SearchCardsSchema (search_params searchParams) = Ok v ->
  Js.get "q" searchParams = Some (search_q v)
  /\ (1 <= String.length (search_q v) <= 100)%nat
  /\ (exists u, Js.get "unique" searchParams = Some u
                /\ search_unique v = Some u
                /\ In u ["cards"; "art"; "prints"])
  /\ match search_page v with
     | Some p => 1 <= p <= 10
     | None => True
     end.
Proof.
  unfold SearchCardsSchema, search_params.
  set (vq := Js.nullable _). set (vp := Js.int_param _ _ _).
  set (vu := Js.nullable _).
  assert (Hq : field "q" [("q", vq); ("page", vp); ("unique", vu)] = vq).
  { cbn [field String.eqb Ascii.eqb Bool.eqb]. now destruct vq. }
  assert (Hp : field "page" [("q", vq); ("page", vp); ("unique", vu)] = vp).
  { cbn [field String.eqb Ascii.eqb Bool.eqb]. now destruct vp. }
  assert (Hu : field "unique" [("q", vq); ("page", vp); ("unique", vu)] = vu).
  { cbn [field String.eqb Ascii.eqb Bool.eqb]. now destruct vu. }
  rewrite Hq, Hp, Hu. unfold parse.
  match goal with |- match ?c with _ => _ end = _ -> _ =>
    destruct c as [v'|] eqn:E; [|discriminate] end.
  intros [= <-].
  repeat match type of E with
         | ap _ _ = inl _ =>
             apply ap_valid in E;
             let g := fresh "g" in let a := fresh "a" in
             let Hx := fresh "Hx" in let Hp := fresh "Hp" in
             destruct E as (g & a & E & Hx & Hp'); subst
         end.
  injection E as <-. cbn [search_q search_page search_unique].
  match goal with
  | H1 : z_string_min_max _ _ _ _ = inl _,
    H2 : z_optional (z_number_min_max _ _) _ _ = inl _,
    H3 : z_optional (z_enum _) _ _ = inl _ |- _ =>
      apply z_string_min_max_sound in H1 as [H1 Hlen];
      apply z_optional_number_sound in H2;
      apply z_optional_enum_sound in H3
  end.
  subst vq vu. 
  split.
  { destruct (Js.get "q" searchParams); cbn [Js.nullable] in *; congruence. }
  split; [exact Hlen|]. split.
  { match goal with
    | H : match ?o with Some s => _ | None => _ end |- context [_ = Some _ /\ ?o = Some _ /\ _] =>
        destruct o as [u|]
    end.
    - match goal with H : _ /\ In _ _ |- _ => destruct H as [Hu' Hin] end.
      exists u. destruct (Js.get "unique" searchParams);
        cbn [Js.nullable] in Hu'; [|discriminate].
      injection Hu' as ->. auto.
    - destruct (Js.get "unique" searchParams); discriminate. }
  match goal with
  | |- match ?o with Some p => _ | None => True end =>
      destruct o; [|exact I]
  end.
  match goal with H : _ /\ _ <= _ <= _ |- _ => apply H end.
Qed.

(** What reaches the card API.  Whatever the request, the session and
    the answers, a cards search either sends nothing, or sends (once, and
    once more for every 429) one request to [/cards/search] that carries
    the [q] of the caller, of 1 to 100 characters, its [unique], one of the
    three modes, and its [page], from 1 to 10, when it gave one; nothing
    else is ever sent. *)
Theorem GET_sends searchParams env w db :
  let w' := fst (snd (GET searchParams env w db)) in
  w' = w
  \/ exists q u page_part times,
       Js.get "q" searchParams = Some q
       /\ (1 <= String.length q <= 100)%nat
       /\ Js.get "unique" searchParams = Some u
       /\ In u ["cards"; "art"; "prints"]
       /\ (page_part = []
           \/ exists p, 1 <= p <= 10
                        /\ Js.int_param "page" VUndefined searchParams
                           = VNumber p
                        /\ page_part = [("page", number_toString p)])
       /\ times <> []
       /\ Scryfall.dispatches (Scryfall.timing w')
          = (map (fun time =>
                    (time, {| Scryfall.endpoint := "/cards/search";
                              Scryfall.params :=
                                ("q", q) :: ("unique", u) :: page_part |}))
               times
             ++ Scryfall.dispatches (Scryfall.timing w))%list.
Proof.
  cbv zeta. unfold GET.
  destruct (SearchCardsSchema (search_params searchParams)) as [v|e] eqn:Hv;
    [|now left].
  destruct (authenticated (auth env)) as [user|]; [|now left].
  right.
  pose proof (SearchCardsSchema_sound _ _ Hv)
    as (Hq & Hlen & (u & Hu & Hunique & Hin) & Hpage).
  set (page_part := match search_page v with
                    | Some p => [("page", number_toString p)]
                    | None => []
                    end).
  exists (search_q v), u, page_part.
  assert (Hparams :
            Scryfall.search_params (search_q v)
              {| Scryfall.unique := search_unique v;
                 Scryfall.page := search_page v;
                 Scryfall.include_extras := None;
                 Scryfall.include_multilingual := None |}
            = ("q", search_q v) :: ("unique", u) :: page_part).
  { unfold Scryfall.search_params.
    cbn [Scryfall.unique Scryfall.page Scryfall.include_extras
         Scryfall.include_multilingual app].
    rewrite Hunique, app_nil_r.
    assert (or_string (Some u) "cards" = u) as ->
      by (destruct Hin as [<- | [<- | [<- | []]]]; reflexivity).
    subst page_part. destruct (search_page v) as [p|]; [|reflexivity].
    destruct (Z.eqb_spec p 0); [lia | reflexivity]. }
  assert (Hsent : exists times,
            times <> []
            /\ Scryfall.dispatches
                 (Scryfall.timing
                    (snd (Scryfall.searchCards (search_q v)
                            {| Scryfall.unique := search_unique v;
                               Scryfall.page := search_page v;
                               Scryfall.include_extras := None;
                               Scryfall.include_multilingual := None |} w)))
               = (map (fun time =>
                         (time, {| Scryfall.endpoint := "/cards/search";
                                   Scryfall.params :=
                                     ("q", search_q v) :: ("unique", u)
                                     :: page_part |}))
                    times
                  ++ Scryfall.dispatches (Scryfall.timing w))%list).
  { unfold Scryfall.searchCards, Scryfall.rateLimitedFetch. rewrite Hparams.
    destruct (rateLimitedFetch_on_sent (Scryfall.server w)
                {| Scryfall.endpoint := "/cards/search";
                   Scryfall.params :=
                     ("q", search_q v) :: ("unique", u) :: page_part |}
                (Scryfall.timing w)) as (times & Hne & Hd).
    exists times. split; [exact Hne|].
    destruct (Scryfall.rateLimitedFetch_on _ _ _) as [r [t s0]].
    exact Hd. }
  destruct Hsent as (times & Hne & Hd). exists times.
  repeat (split; [assumption|]).
  split.
  { subst page_part. destruct (search_page v) as [p|] eqn:Hp; [|now left].
    right. exists p. split; [exact Hpage|]. split; [|reflexivity].
    revert Hv. unfold SearchCardsSchema, search_params.
    set (vq := Js.nullable _). set (vp := Js.int_param _ _ _).
    set (vu := Js.nullable _).
    assert (Hfp : field "page" [("q", vq); ("page", vp); ("unique", vu)] = vp).
    { cbn [field String.eqb Ascii.eqb Bool.eqb]. now destruct vp. }
    rewrite Hfp. unfold parse.
    match goal with |- match ?c with _ => _ end = _ -> _ =>
      destruct c as [v'|] eqn:E; [|discriminate] end.
    intros [= <-].
    repeat match type of E with
           | ap _ _ = inl _ =>
               apply ap_valid in E;
               let g := fresh "g" in let a := fresh "a" in
               let Hx := fresh "Hx" in let Hp := fresh "Hp" in
               destruct E as (g & a & E & Hx & Hp'); subst
           end.
    injection E as <-. cbn [search_page] in Hp. subst.
    match goal with
    | H2 : z_optional (z_number_min_max _ _) _ _ = inl _ |- _ =>
        apply z_optional_number_sound in H2; apply H2
    end. }
  split; [exact Hne|].
  destruct (Scryfall.searchCards _ _ w) as [[searchResult|e] w1];
    cbn [snd] in Hd.
  - destruct (service_key env); [|exact Hd].
    destruct (enhance_all _ _ _ _ _) as [results db1]. exact Hd.
  - exact Hd.
Qed.

End Sent.

(** ** What a rejected request is told: the issues name members *)
Section Issues.
Import Schemas IssueSpec.

Variable members : list string.

Lemma named_ap {A B} (f : Checked (A -> B)) (x : Checked A) :
  named members f -> named members x -> named members (ap f x).
Proof.
  destruct f as [g|xs], x as [a|ys]; cbn [ap named]; auto.
  intros [Hx Hxs] [Hy Hys]. split.
  - destruct xs; [congruence | discriminate].
  - now apply Forall_app.
Qed.

Lemma named_invalid {A} member rest message :
  In member members -> named members (@invalid A (member :: rest) message).
Proof.
  intros Hin. split; [discriminate|]. repeat constructor. cbn. eauto.
Qed.

Lemma names_z_string : names members z_string.
Proof.
  intros member rest v Hin.
  destruct v; cbn [z_string]; try exact I; now apply named_invalid.
Qed.

Lemma names_z_string_min_max lo hi : names members (z_string_min_max lo hi).
Proof.
  intros member rest v Hin. unfold z_string_min_max.
  pose proof (names_z_string member rest v Hin) as H.
  destruct (z_string _ v) as [s|issues]; [|exact H].
  destruct (_ <? _)%nat; [now apply named_invalid|].
  destruct (_ <? _)%nat; [now apply named_invalid | exact I].
Qed.

Lemma names_z_string_uuid : names members z_string_uuid.
Proof.
  intros member rest v Hin. unfold z_string_uuid.
  pose proof (names_z_string member rest v Hin) as H.
  destruct (z_string _ v) as [s|issues]; [|exact H].
  destruct (is_uuid s); [exact I | now apply named_invalid].
Qed.

Lemma names_z_number_min_max lo hi : names members (z_number_min_max lo hi).
Proof.
  intros member rest v Hin. unfold z_number_min_max.
  assert (H : named members (z_number (member :: rest) v)).
  { destruct v; cbn [z_number]; try exact I; now apply named_invalid. }
  destruct (z_number _ v) as [n|issues]; [|exact H].
  destruct (n <? lo); [now apply named_invalid|].
  destruct hi as [h|]; [|exact I].
  destruct (h <? n); [now apply named_invalid | exact I].
Qed.

Lemma names_z_boolean : names members z_boolean.
Proof.
  intros member rest v Hin.
  destruct v; cbn [z_boolean]; try exact I; now apply named_invalid.
Qed.

Lemma names_z_enum options : names members (z_enum options).
Proof.
  intros member rest v Hin.
  destruct v; cbn [z_enum]; try exact I; try now apply named_invalid.
  destruct (existsb _ _); [exact I | now apply named_invalid].
Qed.

Lemma names_z_optional {A} (inner : Schema A) :
  names members inner -> names members (z_optional inner).
Proof.
  intros Hinner member rest v Hin. unfold z_optional.
  pose proof (Hinner member rest v Hin) as H.
  destruct v; try exact I; destruct (inner _ _); auto; exact I.
Qed.

Lemma names_z_default {A} (inner : Schema A) default :
  names members inner -> names members (z_default inner default).
Proof.
  intros Hinner member rest v Hin. unfold z_default.
  pose proof (Hinner member rest v Hin) as H.
  destruct v; try exact I; exact H.
Qed.

Lemma names_z_array {A} (inner : Schema A) :
  names members inner -> names members (z_array inner).
Proof.
  intros Hinner member rest v Hin. unfold z_array.
  destruct v; try exact I; try now apply named_invalid.
  generalize 0. induction items as [|item items IH]; intros index;
    cbn [z_items]; [exact I|].
  apply named_ap; [apply named_ap; [exact I|] | apply IH].
  cbn [app]. now apply Hinner.
Qed.

End Issues.

Section IssueClaims.
Import Schemas Database IssueSpec.

Local Ltac names_members :=
  repeat first
    [ apply named_ap
    | exact I
    | apply names_z_optional
    | apply names_z_default
    | apply names_z_array
    | apply names_z_string_min_max
    | apply names_z_string_uuid
    | apply names_z_string
    | apply names_z_number_min_max
    | apply names_z_boolean
    | apply names_z_enum
    | (cbn; tauto) ].

Lemma AddToCollectionSchema_names fields issues :
  AddToCollectionSchema (VObject fields) = Throw (ZodError issues) ->
  name_members AddToCollection_members issues.
Proof.
  unfold AddToCollectionSchema, parse.
  match goal with |- match ?c with _ => _ end = _ -> _ =>
    assert (H : named AddToCollection_members c) by names_members;
    destruct c; [discriminate|]
  end.
  now intros [= <-].
Qed.

Lemma SearchCardsSchema_names fields issues :
  SearchCardsSchema (VObject fields) = Throw (ZodError issues) ->
  name_members SearchCards_members issues.
Proof.
  unfold SearchCardsSchema, parse.
  match goal with |- match ?c with _ => _ end = _ -> _ =>
    assert (H : named SearchCards_members c) by names_members;
    destruct c; [discriminate|]
  end.
  now intros [= <-].
Qed.

Lemma SearchCollectionSchema_names fields issues :
  SearchCollectionSchema (VObject fields) = Throw (ZodError issues) ->
  name_members SearchCollection_members issues.
Proof.
  unfold SearchCollectionSchema, parse.
  match goal with |- match ?c with _ => _ end = _ -> _ =>
    assert (H : named SearchCollection_members c) by names_members;
    destruct c; [discriminate|]
  end.
  now intros [= <-].
Qed.

(** A response of 400 tells the caller what to fix.  In each of the three
    routes, a response of 400 comes from the schema and from nowhere else,
    and its [details] hold at least one issue, each about a member of the
    schema of the route, named first in its path (for collection add, a
    body that is not an object gets the one issue about the body
    itself). *)
Theorem rejected_requests_name_members :
  (forall body auth faults db,
     http_status (fst (CollectionAddRoute.POST (Some body) auth faults db))
     = 400 ->
     exists issues,
       CollectionAddRoute.POST (Some body) auth faults db
       = (JsonError 400 {| error := "Invalid request data";
                           details := Some issues |}, db)
       /\ (name_members AddToCollection_members issues
           \/ issues = [{| issue_path := [];
                           issue_message := "Expected object" |}]))
  /\ (forall searchParams env w db,
        http_status (fst (CardsSearchRoute.GET searchParams env w db)) = 400 ->
        exists issues,
          CardsSearchRoute.GET searchParams env w db
          = (JsonError 400 {| error := "Invalid request parameters";
                              details := Some issues |}, (w, db))
          /\ name_members SearchCards_members issues)
  /\ (forall holds ordered searchParams auth faults db,
        http_status
          (CollectionSearchRoute.GET holds ordered searchParams auth faults db)
        = 400 ->
        exists issues,
          CollectionSearchRoute.GET holds ordered searchParams auth faults db
          = JsonError 400 {| error := "Invalid request parameters";
                             details := Some issues |}
          /\ name_members SearchCollection_members issues).
Proof.
  repeat apply conj.
  - intros body auth faults db. unfold CollectionAddRoute.POST.
    destruct (AddToCollectionSchema body) as [v|e] eqn:Hparse.
    + destruct (authenticated auth) as [user|]; [|discriminate].
      destruct (CollectionAddRoute.add_to_collection faults user v db)
        as [[response|e] db1] eqn:E.
      * revert E. unfold CollectionAddRoute.add_to_collection.
        destruct (pg_error (select_card faults db _));
          [intros [= <- _]; discriminate|].
        destruct (pg_data (select_card faults db _));
          [|intros [= <- _]; discriminate].
        destruct (pg_data (select_entry faults db _ _ _ _)).
        -- destruct (update_entry _ _ _ _ _ _) as [updated db2].
           destruct (pg_error updated); [discriminate|].
           intros [= <- _]. discriminate.
        -- destruct (insert_entry _ _ _ _ _ _ _ _) as [inserted db2].
           destruct (pg_error inserted); [discriminate|].
           intros [= <- _]. discriminate.
      * destruct (add_to_collection_throws _ _ _ _ _ _ E) as (message & ->).
        discriminate.
    + destruct (AddToCollectionSchema_throws _ _ Hparse) as (issues & ->).
      intros _. exists issues. split; [reflexivity|].
      destruct body; try (right; now injection Hparse as <-).
      left. eapply AddToCollectionSchema_names, Hparse.
  - intros searchParams env w db. unfold CardsSearchRoute.GET.
    destruct (SearchCardsSchema _) as [v|e] eqn:Hparse.
    + destruct (authenticated _) as [user|]; [|discriminate].
      destruct (Scryfall.searchCards _ _ _) as [[searchResult|e] w1] eqn:E.
      * destruct (CardsSearchRoute.service_key env); [|discriminate].
        destruct (CardsSearchRoute.enhance_all _ _ _ _ _). discriminate.
      * destruct (searchCards_throws _ _ _ _ _ E) as (message & ->).
        discriminate.
    + destruct (SearchCardsSchema_throws _ _ Hparse) as (issues & ->).
      intros _. exists issues. split; [reflexivity|].
      eapply SearchCardsSchema_names, Hparse.
  - intros holds ordered searchParams auth faults db.
    unfold CollectionSearchRoute.GET.
    destruct (SearchCollectionSchema _) as [v|e] eqn:Hparse.
    + destruct (authenticated _) as [user|]; [|discriminate].
      destruct (CollectionSearchRoute.search_collection _ _ _ _ _ _)
        as [response|e] eqn:E.
      * revert E. unfold CollectionSearchRoute.search_collection.
        destruct (pg_error _); [discriminate|]. intros [= <-]. discriminate.
      * destruct (search_collection_throws _ _ _ _ _ _ _ E) as (message & ->).
        discriminate.
    + destruct (SearchCollectionSchema_throws _ _ Hparse) as (issues & ->).
      intros _. exists issues. split; [reflexivity|].
      eapply SearchCollectionSchema_names, Hparse.
Qed.

End IssueClaims.

(** ** Overlapping calls: the throttle does not keep them apart *)
Section Overlap.
Import Scryfall EventLoop FetchSpec OverlapSpec.
Local Open Scope list_scope.

Lemma run_step l l1 k : step l = Some l1 -> run (S k) l = run k l1.
Proof. intros H. cbn [run]. now rewrite H. Qed.

Lemma run_add a : forall b l, run (a + b) l = run b (run a l).
Proof.
  induction a as [|a IH]; intros b l; [reflexivity|].
  cbn [Nat.add run]. destruct (step l) as [l1|] eqn:E; [apply IH|].
  destruct b; [reflexivity|]. cbn [run]. now rewrite E.
Qed.

Lemma earliest_due time rest :
  rest <> [] ->
  Forall (fun c => ready (task c) = Some time) rest ->
  earliest rest = Some time.
Proof.
  induction rest as [|c rest IH]; [congruence|].
  intros _ Hall. inversion Hall as [|? ? Hc Hrest]; subst.
  cbn [earliest]. rewrite Hc.
  destruct rest as [|c' rest']; [reflexivity|].
  rewrite IH by (discriminate || assumption). now rewrite Z.min_id.
Qed.

Lemma earliest_app time prefix rest :
  Forall (not_due time) prefix ->
  rest <> [] ->
  Forall (fun c => ready (task c) = Some time) rest ->
  earliest (prefix ++ rest) = Some time.
Proof.
  intros Hprefix Hne Hrest.
  induction Hprefix as [|c prefix Hc Hprefix IH]; cbn [app earliest].
  - now apply earliest_due.
  - rewrite IH. unfold not_due in Hc.
    destruct (ready (task c)) as [r|]; [|reflexivity].
    now rewrite Z.min_r by lia.
Qed.

Lemma resume_first_app time prefix c rest w :
  Forall (not_due time) prefix ->
  ready (task c) = Some time ->
  resume_first time (prefix ++ c :: rest) w
  = (prefix ++ fst (resume c w) :: rest, snd (resume c w)).
Proof.
  intros Hprefix Hc.
  induction Hprefix as [|p prefix Hp Hprefix IH]; cbn [app resume_first].
  - rewrite Hc, Z.leb_refl. now destruct (resume c w).
  - unfold not_due in Hp. rewrite IH.
    destruct (ready (task p)) as [r|]; [|reflexivity].
    destruct (Z.leb_spec r time); [lia | reflexivity].
Qed.

Lemma step_first time prefix c rest w :
  Forall (not_due time) prefix ->
  ready (task c) = Some time ->
  Forall (fun c => ready (task c) = Some time) rest ->
  clock (timing w) <= time ->
  step {| net := w; calls := prefix ++ c :: rest |}
  = Some {| net := snd (resume c (advance_to time w));
            calls := prefix ++ fst (resume c (advance_to time w)) :: rest |}.
Proof.
  intros Hprefix Hc Hrest Hclock. unfold step. cbn [net calls].
  rewrite (earliest_app time prefix (c :: rest) Hprefix)
    by (discriminate || now constructor).
  assert (Hnow : clock (timing (advance_to time w)) = time).
  { unfold advance_to. cbn [timing clock elapse]. lia. }
  rewrite Hnow, (resume_first_app time prefix c rest _ Hprefix Hc).
  reflexivity.
Qed.

Lemma advance_to_now time w : clock (timing w) = time -> advance_to time w = w.
Proof.
  intros H. destruct w as [t s]. unfold advance_to. cbn [timing server] in *.
  f_equal. apply Timing_eq; cbn [clock lastRequestTime dispatches timerLag
                                  elapse]; try reflexivity.
  lia.
Qed.

(** The calls enter one after the other in the same instant; each finds
    the throttle closed, computes the same wake-up time and goes to
    sleep. *)
Lemma enter_all w wake :
  clock (timing w) - lastRequestTime (timing w) < REQUEST_DELAY ->
  0 <= timerLag (timing w) ->
  wake = clock (timing w)
         + (REQUEST_DELAY - (clock (timing w) - lastRequestTime (timing w)))
         + timerLag (timing w) ->
  forall urls prefix,
    Forall (not_due (clock (timing w))) prefix ->
    run (List.length urls)
      {| net := w;
         calls := prefix
                  ++ map (fun u => {| url := u;
                                      task := Called (clock (timing w)) |})
                       urls |}
    = {| net := w;
         calls := prefix
                  ++ map (fun u => {| url := u; task := Throttled wake |})
                       urls |}.
Proof.
  intros Hclosed Hlag Hwake.
  induction urls as [|u urls IH]; intros prefix Hprefix; [reflexivity|].
  cbn [List.length map].
  assert (Hrest : Forall (fun c => ready (task c) = Some (clock (timing w)))
                    (map (fun u0 => {| url := u0;
                                       task := Called (clock (timing w)) |})
                       urls)).
  { apply Forall_map, Forall_forall. reflexivity. }
  rewrite (run_step _ _ _
             (step_first (clock (timing w)) prefix
                {| url := u; task := Called (clock (timing w)) |} _ w
                Hprefix eq_refl Hrest (Z.le_refl _))).
  rewrite (advance_to_now _ w eq_refl).
  assert (Hresume : resume {| url := u; task := Called (clock (timing w)) |} w
                    = ({| url := u; task := Throttled wake |}, w)).
  { unfold resume, enter. cbn [task url].
    apply Z.ltb_lt in Hclosed. rewrite Hclosed, <- Hwake. reflexivity. }
  rewrite Hresume. cbn [fst snd].
  change (prefix ++ {| url := u; task := Throttled wake |}
          :: map (fun u0 => {| url := u0; task := Called (clock (timing w)) |})
               urls)
    with (prefix ++ [{| url := u; task := Throttled wake |}]
          ++ map (fun u0 => {| url := u0; task := Called (clock (timing w)) |})
               urls).
  rewrite app_assoc, IH.
  - now rewrite <- app_assoc.
  - apply Forall_app. split; [exact Hprefix|].
    repeat constructor. unfold not_due. cbn [ready task].
    unfold REQUEST_DELAY in *. lia.
Qed.

(** They all wake up in the same instant and dispatch one after the other
    without the clock moving: nothing looks at [lastRequestTime] again
    after the sleep. *)
Lemma dispatch_all wake :
  forall urls prefix w,
    clock (timing w) <= wake ->
    Forall (not_due wake) prefix ->
    (List.length urls <= List.length (server w))%nat ->
    Forall (fun x => 0 < latency x) (firstn (List.length urls) (server w)) ->
    dispatches
      (timing
         (net (run (List.length urls)
                 {| net := w;
                    calls := prefix
                             ++ map (fun u => {| url := u;
                                                 task := Throttled wake |})
                                  urls |})))
    = rev (map (fun u => (wake, u)) urls) ++ dispatches (timing w).
Proof.
  induction urls as [|u urls IH]; intros prefix w Hclock Hprefix Hlen Hlat;
    [reflexivity|].
  cbn [List.length map].
  assert (Hrest : Forall (fun c => ready (task c) = Some wake)
                    (map (fun u0 => {| url := u0; task := Throttled wake |})
                       urls)).
  { apply Forall_map, Forall_forall. reflexivity. }
  rewrite (run_step _ _ _
             (step_first wake prefix {| url := u; task := Throttled wake |} _ w
                Hprefix eq_refl Hrest Hclock)).
  clear Hrest.
  destruct w as [t xs]. cbn [server timing List.length] in *.
  destruct xs as [|x xs]; [cbn [List.length] in Hlen; lia|].
  cbn [firstn List.length] in Hlat, Hlen.
  inversion Hlat as [|? ? Hx Hxs]; subst.
  unfold resume, dispatch, advance_to. cbn [task url server timing fst snd].
  set (t1 := stamp_and_dispatch u _).
  assert (Hnow : clock t1 = wake).
  { subst t1. cbn [clock stamp_and_dispatch elapse]. lia. }
  change (prefix ++ {| url := u;
                       task := InFlight (clock t1 + latency x)
                                 (Some (respond x u)) |}
          :: map (fun u0 => {| url := u0; task := Throttled wake |}) urls)
    with (prefix ++ [{| url := u;
                        task := InFlight (clock t1 + latency x)
                                  (Some (respond x u)) |}]
          ++ map (fun u0 => {| url := u0; task := Throttled wake |}) urls).
  rewrite app_assoc, IH.
  - cbn [timing rev]. rewrite <- app_assoc. cbn [app]. do 2 f_equal.
    subst t1. cbn [dispatches stamp_and_dispatch elapse clock]. f_equal.
    f_equal. lia.
  - cbn [timing]. lia.
  - apply Forall_app. split; [exact Hprefix|].
    repeat constructor. unfold not_due. cbn [ready task]. lia.
  - cbn [server]. lia.
  - exact Hxs.
Qed.

Lemma spaced_twice times time rest :
  spaced (times ++ time :: time :: rest) = false.
Proof.
  induction times as [|x times IH]; cbn [app].
  - cbn [spaced].
    replace (time + REQUEST_DELAY <=? time) with false; [reflexivity|].
    symmetry. apply Z.leb_gt. unfold REQUEST_DELAY. lia.
  - destruct times as [|y times]; cbn [app spaced] in *;
      rewrite IH; apply andb_false_r.
Qed.

(** The throttle does not keep overlapping calls apart.  Any number of
    calls made in the same turn of the event loop, less than 100ms after
    the last request, all go to sleep until the same instant and are all
    dispatched in that instant, 0ms apart (the server answering each
    after a positive time, timers never firing early): with two calls or
    more the dispatches are not 100ms apart. *)
Theorem calls_at_once_dispatch_together urls t server :
  clock t - lastRequestTime t < REQUEST_DELAY ->
  0 <= timerLag t ->
  (List.length urls <= List.length server)%nat ->
  Forall (fun x => 0 < latency x) (firstn (List.length urls) server) ->
  let wake := lastRequestTime t + REQUEST_DELAY + timerLag t in
  let done := run (List.length urls + List.length urls)
                (at_once urls t server) in
  dispatches (timing (net done))
  = rev (map (fun u => (wake, u)) urls) ++ dispatches t
  /\ ((2 <= List.length urls)%nat ->
      spaced (map fst (dispatches (timing (net done)))) = false).
Proof.
  intros Hclosed Hlag Hlen Hlat wake done.
  assert (Hdone : dispatches (timing (net done))
                  = rev (map (fun u => (wake, u)) urls) ++ dispatches t).
  { subst done. rewrite run_add.
    set (w := {| timing := t; server := server |}).
    change (at_once urls t server)
      with {| net := w;
              calls := [] ++ map (fun u => {| url := u;
                                              task := Called (clock (timing w)) |})
                               urls |}.
    rewrite (enter_all w wake Hclosed Hlag
               ltac:(subst wake w; cbn [timing]; lia) urls [] (Forall_nil _)).
    apply (dispatch_all wake urls [] w);
      subst w; cbn [timing Scryfall.server]; auto.
    subst wake. unfold REQUEST_DELAY in *. lia. }
  split; [exact Hdone|].
  intros Htwo. rewrite Hdone.
  destruct urls as [|u1 [|u2 urls]]; cbn [List.length] in Htwo; try lia.
  cbn [map rev]. rewrite !map_app, <- !app_assoc. cbn [map app fst].
  apply spaced_twice.
Qed.

(** Three searches made at once, 50ms after a request: all three go out
    50ms later, in the same instant. *)
Lemma calls_at_once_dispatch_together_witness :
  map fst
    (dispatches
       (timing
          (net (run (3 + 3)
                  (at_once [search_url "bolt" no_options;
                            search_url "shock" no_options;
                            search_url "opt" no_options]
                     just_sent [no_cards; no_cards; no_cards])))))
  = [5050; 5050; 5050; 4950].
Proof.
  assert (H1 : clock just_sent - lastRequestTime just_sent < REQUEST_DELAY)
    by (unfold just_sent, REQUEST_DELAY; cbn; lia).
  assert (H2 : 0 <= timerLag just_sent) by (unfold just_sent; cbn; lia).
  assert (H3 : (3 <= List.length [no_cards; no_cards; no_cards])%nat)
    by (cbn; lia).
  assert (H4 : Forall (fun x => 0 < latency x)
                 (firstn 3 [no_cards; no_cards; no_cards]))
    by (repeat constructor).
  pose proof (calls_at_once_dispatch_together
                [search_url "bolt" no_options; search_url "shock" no_options;
                 search_url "opt" no_options]
                just_sent [no_cards; no_cards; no_cards] H1 H2 H3 H4) as H.
  cbv zeta in H. destruct H as [H _].
  cbn [List.length] in H. rewrite H. reflexivity.
Defined.

End Overlap.

(** ** A count query that fails *)
Section CountFails.
Import Database CollectionSearchRoute.

Variable holds : Filter -> CollectionRow -> bool.
Variable ordered : string -> bool -> list CollectionRow -> list CollectionRow.

(** A count query that fails is not reported.  When the page query of a
    valid search by a signed-in user goes through and the count query
    fails, the response is still 200 and carries the rows of the page,
    with a total of 0 and [hasMore] false, however many rows the
    selection has: the last page is all a client is told of. *)
Theorem GET_count_failure_is_silent searchParams auth faults db params user
    message :
  Schemas.SearchCollectionSchema (search_params searchParams) = Ok params ->
  authenticated auth = Some user ->
  faults SelectPage = None ->
  faults CountPage = Some message ->
  GET holds ordered searchParams auth faults db
  = Json 200
      {| data := MoreSpec.rows_of
                   (search_collection holds ordered no_faults user params db);
         pagination := {| page := Schemas.page params;
                          limit := Schemas.limit params;
                          total := 0; hasMore := false |} |}.
Proof.
  intros Hparse Hauth Hpage Hcount.
  destruct (SearchCollectionSchema_bounds _ _ Hparse) as (Hp & Hn).
  unfold GET. rewrite Hparse, Hauth.
  unfold search_collection, run, run_count, request, no_faults.
  rewrite Hpage, Hcount.
  cbn [pg_error pg_data pg_ok pg_fail count_or_0 MoreSpec.rows_of data].
  replace (Schemas.page params * Schemas.limit params <? 0) with false;
    [reflexivity|].
  symmetry. apply Z.ltb_ge. nia.
Qed.

End CountFails.

Section CountFailsClaims.
Import Database CollectionSearchRoute QuerySpec.

(** The second page of size one of Alice's two rows, the count failing. *)
Lemma GET_count_failure_is_silent_witness :
  GET sample_holds sample_ordered second_page_of_one
    (DbSpec.signed_in DbSpec.alice) MoreSpec.count_down DbSpec.alices_foil_db
  = Json 200
      {| data :=
           MoreSpec.rows_of
             (search_collection sample_holds sample_ordered no_faults
                DbSpec.alice
                {| Schemas.q := None; Schemas.colors := None;
                   Schemas.types := None; Schemas.sets := Some ["lea"; "leb"];
                   Schemas.cmc_min := None; Schemas.cmc_max := None;
                   Schemas.rarity := None; Schemas.sort := "name";
                   Schemas.order := "asc"; Schemas.page := 2;
                   Schemas.limit := 1 |} DbSpec.alices_foil_db);
         pagination := {| page := 2; limit := 1; total := 0;
                          hasMore := false |} |}.
Proof.
  exact (GET_count_failure_is_silent sample_holds sample_ordered
           second_page_of_one (DbSpec.signed_in DbSpec.alice)
           MoreSpec.count_down DbSpec.alices_foil_db
           {| Schemas.q := None; Schemas.colors := None;
              Schemas.types := None; Schemas.sets := Some ["lea"; "leb"];
              Schemas.cmc_min := None; Schemas.cmc_max := None;
              Schemas.rarity := None; Schemas.sort := "name";
              Schemas.order := "asc"; Schemas.page := 2;
              Schemas.limit := 1 |}
           DbSpec.alice "canceling statement due to statement timeout"
           eq_refl eq_refl eq_refl eq_refl).
Defined.

End CountFailsClaims.
